(** * A shallow embedding of [cachesim.c]

    The set-associative cache simulator of [src/cachesim.c], modelled over
    [Z] and lists, with the properties of its specification stated against
    the embedded functions.

    Conventions.
    - C [int] values are integers in [Z]; arithmetic on them is written with
      its 32-bit two's-complement wrap-around ([wrap_int]).  [unsigned long]
      is 64 bits wide ([wrap_ulong]).
      Signed overflow of [x + 1] and [s + b] is read as wrap-around too.
    - A computation returns [option]: [None] stands for an execution whose
      behaviour the C language leaves undefined (a shift by a negative count
      or by at least the width of the type, a left shift of an [int] whose
      result is not representable, an array access out of range).
    - [malloc] is a parameter of [makecache]; the messages [makecache]
      prints when it fails are left out.  The trace file is the list of the
      records [fscanf] decodes from it.
    - The arrays [c->sets] and [set.lines] are lists; the pointers [set*] and
      [line*] that the program passes around always point into these arrays
      and are modelled by the indices they point at, so that a write through
      the pointer is a write into the array. *)

From Stdlib Require Import ZArith Lia Ascii String.
From stdpp Require Import base option list strings.

Local Open Scope Z_scope.

(** ** Machine integers *)

Definition INT_BITS : Z := 32.
Definition ADDRESS_LENGTH : Z := 64.

Definition wrap_int (x : Z) : Z := (x + 2 ^ 31) mod 2 ^ 32 - 2 ^ 31.
Definition wrap_ulong (x : Z) : Z := x mod 2 ^ ADDRESS_LENGTH.

Definition is_ulong (a : Z) : Prop := 0 <= a < 2 ^ ADDRESS_LENGTH.

(** [x << n] on [int]: defined only for a non-negative [x], a count in
    range and a representable result. *)
Definition int_shl (x n : Z) : option Z :=
  if (0 <=? x) && (0 <=? n) && (n <? INT_BITS) && (Z.shiftl x n <? 2 ^ 31)
  then Some (Z.shiftl x n) else None.

(** [x << n] and [x >> n] on [unsigned long]: defined only for
    [0 <= n < 64]. *)
Definition ulong_shl (x n : Z) : option Z :=
  if (0 <=? n) && (n <? ADDRESS_LENGTH)
  then Some (wrap_ulong (Z.shiftl x n)) else None.

Definition ulong_shr (x n : Z) : option Z :=
  if (0 <=? n) && (n <? ADDRESS_LENGTH)
  then Some (Z.shiftr x n) else None.

(** ** Data model: [line], [set], [cache] *)

Record line := mkline {
  valid : Z;   (* int valid *)
  tag : Z;     (* unsigned long tag *)
  lru : Z      (* int lru *)
}.

Record set := mkset {
  lines : list line
}.

Record cache := mkcache {
  c_sets : list set;  (* set* sets *)
  c_s : Z;            (* int s *)
  c_E : Z;            (* int E *)
  c_b : Z;            (* int b *)
  c_S : Z             (* int S *)
}.

Definition with_valid (l : line) (v : Z) : line := mkline v (tag l) (lru l).
Definition with_tag (l : line) (t : Z) : line := mkline (valid l) t (lru l).
Definition with_lru (l : line) (r : Z) : line := mkline (valid l) (tag l) r.

(** [c->sets[i].lines = ls], the other sets untouched. *)
Definition with_lines (c : cache) (i : nat) (ls : list line) : cache :=
  mkcache (<[i := mkset ls]> (c_sets c)) (c_s c) (c_E c) (c_b c) (c_S c).

Definition set_lines (c : cache) (i : nat) : option (list line) :=
  st ← c_sets c !! i; Some (lines st).

(** ** [makecache] *)

(** Object sizes on the LP64 target the program is written for; they only
    feed the allocator. *)
Definition sizeof_cache : Z := 24.
Definition sizeof_set : Z := 8.
Definition sizeof_line : Z := 24.

(** The allocator is a parameter: [malloc_ok k n] tells whether the [k]-th
    call of [malloc], asking for [n] bytes, succeeds. *)
Definition allocator := nat -> Z -> bool.

Definition fresh_line : line := mkline 0 0 0.

(** The inner loop [for (j = 0; j < E; j++)] that zeroes a set's lines. *)
Definition fresh_lines (E : Z) : list line := replicate (Z.to_nat E) fresh_line.

(** The outer loop [for (i = 0; i < S; i++)]: [n] iterations left, [i] sets
    built so far (in [acc]).  [None] here is the [return NULL] of the failure
    path. *)
Fixpoint makecache_sets (malloc_ok : allocator) (E : Z) (i n : nat)
    (acc : list set) : option (list set) :=
  match n with
  | O => Some acc
  | S n' =>
      if malloc_ok (2 + i)%nat (wrap_ulong (wrap_ulong E * sizeof_line))
      then makecache_sets malloc_ok E (S i) n' (acc ++ [mkset (fresh_lines E)])
      else None
  end.

(** The outer [option] is definedness, the inner one the returned pointer
    ([None] for [NULL]). *)
Definition makecache (malloc_ok : allocator) (s E b : Z) : option (option cache) :=
  S ← int_shl 1 s;
  if negb (malloc_ok 0%nat sizeof_cache) then Some None else
  if negb (malloc_ok 1%nat (wrap_ulong (wrap_ulong S * sizeof_set))) then Some None else
  match makecache_sets malloc_ok E 0 (Z.to_nat S) [] with
  | None => Some None
  | Some sets => Some (Some (mkcache sets s E b S))
  end.

(** ** [lru_update], [find_lru] *)

(** The loop of [lru_update]: [i] is the loop variable, [n] the number of
    iterations left, [k] the index [cache_line] points at.  [cache_line->lru]
    is read from the array at every comparison, as the program does. *)
Fixpoint lru_update_loop (ls : list line) (k i n : nat) : option (list line) :=
  match n with
  | O => Some ls
  | S n' =>
      li ← ls !! i;
      if negb (valid li =? 0) then
        lk ← ls !! k;
        if lru li <? lru lk
        then lru_update_loop (<[i := with_lru li (wrap_int (lru li + 1))]> ls) k (S i) n'
        else lru_update_loop ls k (S i) n'
      else lru_update_loop ls k (S i) n'
  end.

(** [lru_update(c, &c->sets[inset], &c->sets[inset].lines[cache_line])]. *)
Definition lru_update (c : cache) (inset cache_line : nat) : option cache :=
  ls ← set_lines c inset;
  ls' ← lru_update_loop ls cache_line 0 (Z.to_nat (c_E c));
  lk ← ls' !! cache_line;
  Some (with_lines c inset (<[cache_line := with_lru lk 0]> ls')).

(** The loop of [find_lru]; [Some 0] at the end is the initial value of
    [lru_idx], returned when no iteration reaches the [break]. *)
Fixpoint find_lru_loop (c : cache) (inset : nat) (i n : nat) : option nat :=
  match n with
  | O => Some 0%nat
  | S n' =>
      ls ← set_lines c inset;
      li ← ls !! i;
      if lru li =? wrap_int (c_E c - 1) then Some i
      else find_lru_loop c inset (S i) n'
  end.

(** [find_lru(c, &c->sets[inset])]. *)
Definition find_lru (c : cache) (inset : nat) : option nat :=
  find_lru_loop c inset 0 (Z.to_nat (c_E c)).

(** ** [access_cache] *)

(** The three ways [access_cache] returns: from the first loop, from the
    second loop, and at the end of the function. *)
Inductive Outcome := Hit | MissFill | MissEvict.

#[global] Instance Outcome_eq_dec : EqDecision Outcome.
Proof. solve_decision. Defined.

(** What a call leaves behind: the cache, the three counters behind the
    pointers [hit], [miss] and [evictions], and the text printed. *)
Record access_result := mkresult {
  ar_cache : cache;
  ar_hit : Z;
  ar_miss : Z;
  ar_evictions : Z;
  ar_printed : list string;
  ar_outcome : Outcome
}.

Definition print_if (verb : Z) (text : string) : list string :=
  if verb =? 1 then [text] else [].

Section access.
Variables (c : cache) (cache_set : nat) (tg : Z).
Variables (hit miss evictions verb : Z).

(** First loop, "check for a hit". *)
Fixpoint hit_loop (i n : nat) : option (option access_result) :=
  match n with
  | O => Some None
  | S n' =>
      ls ← set_lines c cache_set;
      li ← ls !! i;
      if negb (valid li =? 0) && (tag li =? tg) then
        c' ← lru_update c cache_set i;
        Some (Some (mkresult c' (wrap_int (hit + 1)) miss evictions
                      (print_if verb "hit ") Hit))
      else hit_loop (S i) n'
  end.

(** Second loop, "check for a miss and find empty line". *)
Fixpoint fill_loop (i n : nat) : option (option access_result) :=
  match n with
  | O => Some None
  | S n' =>
      ls ← set_lines c cache_set;
      li ← ls !! i;
      if valid li =? 0 then
        let c1 := with_lines c cache_set (<[i := with_tag (with_valid li 1) tg]> ls) in
        c' ← lru_update c1 cache_set i;
        Some (Some (mkresult c' hit (wrap_int (miss + 1)) evictions
                      (print_if verb "miss ") MissFill))
      else fill_loop (S i) n'
  end.

(** The rest of the function, "check for eviction". *)
Definition evict : option access_result :=
  lru_idx ← find_lru c cache_set;
  ls ← set_lines c cache_set;
  li ← ls !! lru_idx;
  let c1 := with_lines c cache_set (<[lru_idx := with_tag li tg]> ls) in
  c' ← lru_update c1 cache_set lru_idx;
  Some (mkresult c' hit (wrap_int (miss + 1)) (wrap_int (evictions + 1))
          (print_if verb "miss eviction ") MissEvict).

Definition access_set : option access_result :=
  r ← hit_loop 0 (Z.to_nat (c_E c));
  match r with
  | Some res => Some res
  | None =>
      r ← fill_loop 0 (Z.to_nat (c_E c));
      match r with
      | Some res => Some res
      | None => evict
      end
  end.
End access.

Definition set_index (c : cache) (address : Z) : option Z :=
  hi ← ulong_shr address (c_b c);
  one ← ulong_shl 1 (c_s c);
  Some (Z.land hi (wrap_ulong (one - 1))).

Definition block_tag (c : cache) (address : Z) : option Z :=
  ulong_shr address (wrap_int (c_s c + c_b c)).

Definition access_cache (c : cache) (address : Z) (hit miss evictions verb : Z)
    : option access_result :=
  cache_set ← set_index c address;
  tg ← block_tag c address;
  access_set c (Z.to_nat cache_set) tg hit miss evictions verb.

(** ** [runsim] and the start of [main] *)

(** One record of the trace as [fscanf] decodes it. *)
Record event := mkevent {
  operation : ascii;
  address : Z;
  size : Z
}.

(** What the simulation writes to standard output: the text of
    [access_cache], the header [printf("%c %lx, %d ", ...)] of a traced
    access, and the newline that ends its line. *)
Inductive chunk :=
| Text (text : string)
| Header (operation : ascii) (address size : Z)
| Newline.

(** The state [runsim] works on: the cache and the three counters of [main]
    that it reaches through pointers, and the output so far. *)
Record sim := mksim {
  sim_cache : cache;
  hits : Z;
  misses : Z;
  evictions : Z;
  stdout : list chunk
}.

Definition printf (x : chunk) (st : sim) : sim :=
  mksim (sim_cache st) (hits st) (misses st) (evictions st) (stdout st ++ [x]).

(** [access_cache(c, &address, hits, misses, evictions, verbose)]. *)
Definition call_access (verbose : Z) (a : Z) (st : sim) : option sim :=
  r ← access_cache (sim_cache st) a (hits st) (misses st) (evictions st) verbose;
  Some (mksim (ar_cache r) (ar_hit r) (ar_miss r) (ar_evictions r)
          (stdout st ++ (Text <$> ar_printed r))).

Definition is_op (ev : event) (ch : string) : bool :=
  bool_decide (String (operation ev) EmptyString = ch).

(** The body of the [while] loop of [runsim] for one decoded record. *)
Definition runsim_event (verbose : Z) (ev : event) (st : sim) : option sim :=
  let header := Header (operation ev) (address ev) (size ev) in
  st1 ← (if is_op ev "L" || is_op ev "S" then
           if verbose =? 1 then
             st' ← call_access verbose (address ev) (printf header st);
             Some (printf Newline st')
           else call_access verbose (address ev) st
         else Some st);
  if is_op ev "M" then
    if verbose =? 1 then
      st' ← call_access verbose (address ev) (printf header st1);
      st'' ← call_access verbose (address ev) st';
      Some (printf Newline st'')
    else
      st' ← call_access verbose (address ev) st1;
      call_access verbose (address ev) st'
  else Some st1.

Fixpoint runsim (verbose : Z) (trace : list event) (st : sim) : option sim :=
  match trace with
  | [] => Some st
  | ev :: trace' => st' ← runsim_event verbose ev st; runsim verbose trace' st'
  end.

(** The test of [main] that sends the run to [print_usage]: [h] is the help
    flag, [argv1] the first command-line argument and [t] the trace file
    name, [None] for a null pointer; [s], [E], [b] are what [atoi] returned,
    or 0 when the option was not given. *)
Definition main_rejects (h : Z) (argv1 : option string) (s E b : Z)
    (t : option string) : bool :=
  (h =? 1) || bool_decide (argv1 = None) || (s =? 0) || (E =? 0) || (b =? 0)
  || bool_decide (t = None).

(** How [main] gets to the simulation: it prints the usage text, or reports
    that [makecache] returned [NULL], or has a cache. *)
Inductive startup :=
| PrintUsage
| ErrorCreatingCache
| CacheCreated (c : cache).

Definition main_startup (malloc_ok : allocator) (h : Z) (argv1 : option string)
    (s E b : Z) (t : option string) : option startup :=
  if main_rejects h argv1 s E b t then Some PrintUsage
  else
    r ← makecache malloc_ok s E b;
    match r with
    | None => Some ErrorCreatingCache
    | Some c => Some (CacheCreated c)
    end.

(** An allocator that never fails. *)
Definition malloc_always : allocator := fun _ _ => true.

(** ** Predicates on lines, sets and caches *)

(** A line answers a lookup of tag [tg]; a line is free. *)
Definition is_match (tg : Z) (l : line) : Prop := valid l ≠ 0 ∧ tag l = tg.
Definition is_free (l : line) : Prop := valid l = 0.

#[global] Instance is_match_dec tg l : Decision (is_match tg l).
Proof. unfold is_match. apply _. Defined.

#[global] Instance is_free_dec l : Decision (is_free l).
Proof. unfold is_free. apply _. Defined.

(** What the frame properties keep: the valid bit and the tag of a line. *)
Definition content (l : line) : Z * Z := (valid l, tag l).

(** Every line of the set has recency 0. *)
Definition young (ls : list line) : Prop := Forall (λ l, lru l = 0) ls.

(** The parameters for which every shift of [access_cache] is defined. *)
Definition valid_config (s E b : Z) : Prop :=
  0 <= s ∧ 1 <= E ∧ 0 <= b ∧ s + b < ADDRESS_LENGTH.

(** The state [makecache] leaves when every allocation succeeds. *)
Definition fresh_cache (s E b : Z) : cache :=
  mkcache (replicate (Z.to_nat (2 ^ s)) (mkset (fresh_lines E))) s E b (2 ^ s).

(** The caches a run can see: built by [makecache] from valid parameters,
    then changed by [access_cache] at 64-bit addresses only. *)
Inductive reachable : cache → Prop :=
| reachable_fresh malloc_ok s E b c :
    valid_config s E b →
    makecache malloc_ok s E b = Some (Some c) →
    reachable c
| reachable_access c a hit miss evs verb r :
    reachable c →
    is_ulong a →
    access_cache c a hit miss evs verb = Some r →
    reachable (ar_cache r).

(** The caches that calls of [access_cache] at 64-bit addresses lead to
    from the cache [c0]. *)
Inductive run_from (c0 : cache) : cache → Prop :=
| run_start : run_from c0 c0
| run_access c a hit miss evs verb r :
    run_from c0 c →
    is_ulong a →
    access_cache c a hit miss evs verb = Some r →
    run_from c0 (ar_cache r).

(** The invariant of the reachable caches.  Its last part is the one the
    recency bookkeeping rests on: no line ever leaves recency 0. *)
Record cache_inv (c : cache) : Prop := mk_cache_inv {
  inv_s : 0 <= c_s c <= 30;
  inv_E : 1 <= c_E c;
  inv_b : 0 <= c_b c;
  inv_sb : c_s c + c_b c < ADDRESS_LENGTH;
  inv_S : c_S c = 2 ^ c_s c;
  inv_sets : length (c_sets c) = Z.to_nat (c_S c);
  inv_lines : Forall (λ st, length (lines st) = Z.to_nat (c_E c)) (c_sets c);
  inv_young : Forall (λ st, young (lines st)) (c_sets c)
}.

(** The recency invariant of the specification, for the lines of one set:
    the recency values of the valid lines are pairwise different and are
    exactly the numbers below the count of valid lines. *)
Definition valid_recencies (ls : list line) : list Z :=
  lru <$> filter (λ l, valid l ≠ 0) ls.

Definition recency_invariant (ls : list line) : Prop :=
  NoDup (valid_recencies ls) ∧
  ∀ r, r ∈ valid_recencies ls ↔ 0 <= r < Z.of_nat (length (valid_recencies ls)).

(** The outcome of the access and what [access_cache] makes of the lines of
    the target set when all of them have recency 0: nothing on a hit, the
    first free line taken on a miss, line 0 overwritten when the set is
    full. *)
Definition access_lines (tg : Z) (ls : list line) : Outcome * list line :=
  if decide (Exists (is_match tg) ls) then (Hit, ls)
  else match list_find is_free ls with
       | Some (j, lj) => (MissFill, <[j := with_tag (with_valid lj 1) tg]> ls)
       | None =>
           match ls !! 0%nat with
           | Some l0 => (MissEvict, <[0%nat := with_tag l0 tg]> ls)
           | None => (MissEvict, ls)
           end
       end.

Definition bump (on : bool) (x : Z) : Z := if on then wrap_int (x + 1) else x.

Definition outcome_text (o : Outcome) : string :=
  match o with
  | Hit => "hit "
  | MissFill => "miss "
  | MissEvict => "miss eviction "
  end.

Definition is_hit (o : Outcome) : bool := bool_decide (o = Hit).
Definition is_evict (o : Outcome) : bool := bool_decide (o = MissEvict).

(** The result of [access_cache] in terms of [access_lines]. *)
Definition access_model (c : cache) (i : nat) (tg : Z) (ls : list line)
    (hit miss evs verb : Z) : access_result :=
  let '(o, ls') := access_lines tg ls in
  mkresult (with_lines c i ls')
    (bump (is_hit o) hit) (bump (negb (is_hit o)) miss) (bump (is_evict o) evs)
    (print_if verb (outcome_text o)) o.

(** The set index and the tag of the specification:
    [(a >> b) & (S - 1)] and [a >> (s + b)]. *)
Definition spec_set_index (c : cache) (a : Z) : Z :=
  Z.land (Z.shiftr a (c_b c)) (c_S c - 1).

Definition spec_tag (c : cache) (a : Z) : Z := Z.shiftr a (c_s c + c_b c).

Definition target (c : cache) (a : Z) : nat := Z.to_nat (spec_set_index c a).

(** The first free line, said without [list_find]. *)
Definition first_free (ls : list line) (k : nat) (lk : line) : Prop :=
  ls !! k = Some lk ∧ valid lk = 0 ∧
  ∀ j lj, ls !! j = Some lj → (j < k)%nat → valid lj ≠ 0.

(** What an access does to the lines [ls] of its set, all of recency 0. *)
Inductive access_case (tg : Z) (ls : list line) : Outcome → list line → Prop :=
| case_hit :
    Exists (is_match tg) ls →
    access_case tg ls Hit ls
| case_fill k lk :
    ¬ Exists (is_match tg) ls →
    first_free ls k lk →
    access_case tg ls MissFill (<[k := mkline 1 tg 0]> ls)
| case_evict l0 :
    ¬ Exists (is_match tg) ls →
    Forall (λ l, valid l ≠ 0) ls →
    ls !! 0%nat = Some l0 →
    access_case tg ls MissEvict (<[0%nat := mkline (valid l0) tg 0]> ls).

(** A run of [main] past its argument check, with an allocator that never
    fails: the cache is built, the counters start at 0 and [runsim] replays
    the decoded trace. *)
Definition boot (s E b : Z) : option sim :=
  r ← makecache malloc_always s E b; c ← r; Some (mksim c 0 0 0 []).

Definition simulate (s E b verbose : Z) (trace : list event) : option sim :=
  st ← boot s E b; runsim verbose trace st.

Definition load (a : Z) : event := mkevent "L" a 1.
Definition modify (a : Z) : event := mkevent "M" a 1.

(** Two caches of the configuration [s = 1], [E = 2], [b = 1] used as
    concrete inputs: set 0 after the access of address 0 (tag 0), and after
    the accesses of addresses 0 and 4 (tags 0 and 1). *)
Definition cache_A : cache :=
  mkcache [mkset [mkline 1 0 0; fresh_line]; mkset (fresh_lines 2)] 1 2 1 2.

Definition cache_AB : cache :=
  mkcache [mkset [mkline 1 0 0; mkline 1 1 0]; mkset (fresh_lines 2)] 1 2 1 2.

(** [cache_AB] after tag 2 has replaced tag 0 in line 0. *)
Definition cache_CB : cache :=
  mkcache [mkset [mkline 1 2 0; mkline 1 1 0]; mkset (fresh_lines 2)] 1 2 1 2.

(** A state no run reaches, with the recency ranks an LRU stack would have:
    tag 1 in line 1 is the most recent, tag 0 in line 0 the oldest. *)
Definition cache_ranked : cache :=
  mkcache [mkset [mkline 1 0 1; mkline 1 1 0]; mkset (fresh_lines 2)] 1 2 1 2.

(** ** Further predicates: what the sets of a reachable cache look like *)

(** No two valid lines of the set hold the same tag. *)
Definition distinct_tags (ls : list line) : Prop :=
  ∀ i j li lj,
    ls !! i = Some li → ls !! j = Some lj →
    valid li ≠ 0 → valid lj ≠ 0 → tag li = tag lj → i = j.

(** The first [n] lines of the set are valid, with valid bit 1; the others
    are as [makecache] left them. *)
Definition filled_prefix (ls : list line) (n : nat) : Prop :=
  (∀ j l, ls !! j = Some l → (j < n)%nat → valid l = 1) ∧
  (∀ j l, ls !! j = Some l → (n <= j)%nat → l = fresh_line).

(** The result of a call whose counters and verbose flag are [hit], [miss],
    [evs] and [verb], read off the result [r0] of the same call made with
    other counters and another flag. *)
Definition relabel (hit miss evs verb : Z) (r0 : access_result) : access_result :=
  let o := ar_outcome r0 in
  mkresult (ar_cache r0)
    (bump (is_hit o) hit) (bump (negb (is_hit o)) miss) (bump (is_evict o) evs)
    (print_if verb (outcome_text o)) o.

(** What one call of [lru_update] makes of a line other than the touched
    one, whose recency at entry is [old]: a valid line of smaller recency is
    aged by one. *)
Definition aged (old : Z) (l : line) : line :=
  if negb (valid l =? 0) && (lru l <? old)
  then with_lru l (wrap_int (lru l + 1)) else l.

(** The rank a line of rank [r] gets when the line of rank [p] moves to the
    front of a ranking. *)
Definition moved (p r : Z) : Z :=
  if r =? p then 0 else if r <? p then r + 1 else r.

Definition rerank (p : Z) (l : line) : line :=
  if negb (valid l =? 0) then with_lru l (moved p (lru l)) else l.

(** ** Runs, seen through the cache and the counters *)

(** The addresses one record of the trace makes [runsim] access, in the
    order of the calls. *)
Definition accessed (ev : event) : list Z :=
  (if is_op ev "L" || is_op ev "S" then [address ev] else []) ++
  (if is_op ev "M" then [address ev; address ev] else []).

Definition trace_addresses (trace : list event) : list Z :=
  trace ≫= accessed.

(** The state of a simulation without its output: the cache and the hit,
    miss and eviction counters. *)
Definition observable (st : sim) : cache * Z * Z * Z :=
  (sim_cache st, hits st, misses st, evictions st).

(** One call of [access_cache] with the verbose flag off, and a sequence of
    such calls. *)
Definition silent_access (a : Z) (m : cache * Z * Z * Z) : option (cache * Z * Z * Z) :=
  let '(c, hit, miss, evs) := m in
  r ← access_cache c a hit miss evs 0;
  Some (ar_cache r, ar_hit r, ar_miss r, ar_evictions r).

Fixpoint replay (addrs : list Z) (m : cache * Z * Z * Z) : option (cache * Z * Z * Z) :=
  match addrs with
  | [] => Some m
  | a :: addrs' => m' ← silent_access a m; replay addrs' m'
  end.

(** The number of valid lines of a set and of a cache. *)
Definition valid_lines (ls : list line) : nat :=
  sum_list_with (λ l, if decide (valid l ≠ 0) then 1%nat else 0%nat) ls.

Definition valid_count (c : cache) : nat :=
  sum_list_with (λ st, valid_lines (lines st)) (c_sets c).

(** ** The heap: [malloc], [free], [makecache] and [freecache] with their
    blocks *)

(** The heap as the program sees it: how many times [malloc] has been
    called, and the blocks that are allocated and not freed.  A block is
    named by the rank of the call of [malloc] that returned it, which is
    also what the allocator is asked about. *)
Record heap := mkheap {
  calls : nat;
  live : list nat
}.

(** [malloc(n)]: [None] is the null pointer. *)
Definition malloc (malloc_ok : allocator) (n : Z) (h : heap) : option nat * heap :=
  if malloc_ok (calls h) n
  then (Some (calls h), mkheap (S (calls h)) (calls h :: live h))
  else (None, mkheap (S (calls h)) (live h)).

(** [free(p)] for a pointer that is not null: undefined when [p] is not an
    allocated block. *)
Definition free (p : nat) (h : heap) : option heap :=
  if decide (p ∈ live h)
  then Some (mkheap (calls h) (filter (λ q, q ≠ p) (live h)))
  else None.

(** The blocks a cache is made of: the [cache] structure, the array
    [c->sets], and for each set the array [c->sets[i].lines]. *)
Record cache_blocks := mkblocks {
  b_cache : nat;
  b_sets : nat;
  b_lines : list nat
}.

(** The loops [for (j = 0; j < i; j++) free(cachesim->sets[j].lines)] of
    [makecache] and [for (i = 0; i < c->S; i++) free(c->sets[i].lines)] of
    [freecache]: [n] iterations left, from index [i]. *)
Fixpoint free_lines (blocks : list nat) (i n : nat) (h : heap) : option heap :=
  match n with
  | O => Some h
  | S n' => p ← blocks !! i; h' ← free p h; free_lines blocks (S i) n' h'
  end.

(** The loop of [makecache] over the sets, with the heap: [i] sets built so
    far, their lines in the blocks [blocks], [n] iterations left.  The inner
    [None] is the failure path, after its loop of [free]. *)
Fixpoint makecache_lines (malloc_ok : allocator) (E : Z) (i n : nat) (h : heap)
    (sets : list set) (blocks : list nat)
    : option (option (list set * list nat) * heap) :=
  match n with
  | O => Some (Some (sets, blocks), h)
  | S n' =>
      match malloc malloc_ok (wrap_ulong (wrap_ulong E * sizeof_line)) h with
      | (Some p, h') =>
          makecache_lines malloc_ok E (S i) n' h'
            (sets ++ [mkset (fresh_lines E)]) (blocks ++ [p])
      | (None, h') =>
          h'' ← free_lines blocks 0 i h'; Some (None, h'')
      end
  end.

(** [makecache] with the heap and its messages: the cache and its blocks, or
    [None] for [NULL]; the heap it leaves; what it printed. *)
Definition makecache_heap (malloc_ok : allocator) (s E b : Z) (h : heap)
    : option (option (cache * cache_blocks) * heap * list string) :=
  S ← int_shl 1 s;
  match malloc malloc_ok sizeof_cache h with
  | (None, h1) => Some (None, h1, ["Error allocating memory for cache sim"])
  | (Some pc, h1) =>
      match malloc malloc_ok (wrap_ulong (wrap_ulong S * sizeof_set)) h1 with
      | (None, h2) =>
          h3 ← free pc h2;
          Some (None, h3, ["Error allocating memory for cache sets"])
      | (Some ps, h2) =>
          r ← makecache_lines malloc_ok E 0 (Z.to_nat S) h2 [] [];
          match r with
          | (None, h3) =>
              h4 ← free ps h3; h5 ← free pc h4;
              Some (None, h5, ["Error allocating memory for cache lines"])
          | (Some (sets, blocks), h3) =>
              Some (Some (mkcache sets s E b S, mkblocks pc ps blocks), h3, [])
          end
      end
  end.

(** [freecache(c)]. *)
Definition freecache (c : option (cache * cache_blocks)) (h : heap) : option heap :=
  match c with
  | None => Some h
  | Some (c, bl) =>
      h1 ← free_lines (b_lines bl) 0 (Z.to_nat (c_S c)) h;
      h2 ← free (b_sets bl) h1;
      free (b_cache bl) h2
  end.

(** A heap is in order when its live blocks are pairwise different and
    were returned by calls of [malloc] already made. *)
Definition heap_ok (h : heap) : Prop :=
  NoDup (live h) ∧ ∀ p, p ∈ live h → (p < calls h)%nat.

(** An allocator that grants the first [k] calls of [malloc] and refuses the
    others. *)
Definition malloc_first (k : nat) : allocator := λ i _, bool_decide (i < k)%nat.

(** ** [main] *)

(** What [getopt] hands to the loop of [main] at one iteration: the
    character it returned and [optarg]. *)
Record getopt_item := mkopt {
  opt_char : ascii;
  opt_arg : string
}.

(** The variables [h], [v], [s], [E], [b] and [t] of [main]; [None] is the
    null pointer. *)
Record options := mkoptions {
  o_h : Z;
  o_v : Z;
  o_s : Z;
  o_E : Z;
  o_b : Z;
  o_t : option string
}.

Definition no_options : options := mkoptions 0 0 0 0 0 None.

Definition is_char (it : getopt_item) (ch : string) : bool :=
  bool_decide (String (opt_char it) EmptyString = ch).

(** The [switch] of the loop.  [atoi] is a parameter.  [None] is the
    [default] branch: [print_usage], which does not return. *)
Definition main_switch (atoi : string → Z) (o : options) (it : getopt_item)
    : option options :=
  if is_char it "h" then Some (mkoptions 1 (o_v o) (o_s o) (o_E o) (o_b o) (o_t o))
  else if is_char it "v" then Some (mkoptions (o_h o) 1 (o_s o) (o_E o) (o_b o) (o_t o))
  else if is_char it "s"
  then Some (mkoptions (o_h o) (o_v o) (atoi (opt_arg it)) (o_E o) (o_b o) (o_t o))
  else if is_char it "E"
  then Some (mkoptions (o_h o) (o_v o) (o_s o) (atoi (opt_arg it)) (o_b o) (o_t o))
  else if is_char it "b"
  then Some (mkoptions (o_h o) (o_v o) (o_s o) (o_E o) (atoi (opt_arg it)) (o_t o))
  else if is_char it "t"
  then Some (mkoptions (o_h o) (o_v o) (o_s o) (o_E o) (o_b o) (Some (opt_arg it)))
  else None.

(** The loop [while ((input = getopt(...)) != -1)], over the items [getopt]
    returns before it returns -1. *)
Fixpoint main_getopt (atoi : string → Z) (o : options) (items : list getopt_item)
    : option options :=
  match items with
  | [] => Some o
  | it :: items' => o' ← main_switch atoi o it; main_getopt atoi o' items'
  end.

(** What [main] writes: a [printf] of a text that ends a line, one of a text
    that does not, the usage text of [print_usage] for the program name
    [argv[0]], the output of [runsim], and the line of [print_summary]. *)
Inductive main_chunk :=
| Line (text : string)
| Printed (text : string)
| Usage (argv0 : string)
| Trace (out : list chunk)
| Summary (hits misses evictions : Z).

(** How the process ends: its exit status, what it has written and the heap
    it leaves. *)
Record main_exit := mkexit {
  status : Z;
  written : list main_chunk;
  heap_left : heap
}.

(** [main].  The parameters stand for the environment: the allocator,
    [atoi], and [fopen] on the trace file, which gives the records [fscanf]
    will decode or [None] when the file cannot be opened.  [print_usage]
    ends the process with status 0, so the [exit(1)] and the [return 0] that
    follow its two calls are not reached. *)
Definition main (malloc_ok : allocator) (atoi : string → Z)
    (fopen : string → option (list event))
    (argv0 : string) (argv1 : option string) (items : list getopt_item)
    (h : heap) : option main_exit :=
  match main_getopt atoi no_options items with
  | None => Some (mkexit 0 [Usage argv0] h)
  | Some o =>
      if main_rejects (o_h o) argv1 (o_s o) (o_E o) (o_b o) (o_t o)
      then Some (mkexit 0 [Usage argv0] h)
      else
        made ← makecache_heap malloc_ok (o_s o) (o_E o) (o_b o) h;
        let '(r, h1, out) := made in
        let w1 := (Printed <$> out) ++ [Line "Initializing Cache Simulation"] in
        match r with
        | None => Some (mkexit 1 (w1 ++ [Line "Error creating cache"]) h1)
        | Some (c, bl) =>
            let w2 := w1 ++ [Line "Cache created"] in
            t ← o_t o;
            match fopen t with
            | None =>
                Some (mkexit 1
                        (w2 ++ [Line "Error opening trace file. Make sure path and name is correct"])
                        h1)
            | Some trace =>
                st ← runsim (o_v o) trace (mksim c 0 0 0 []);
                h2 ← freecache (Some (sim_cache st, bl)) h1;
                Some (mkexit 0
                        (w2 ++ [Line "Running Cache Simulation"; Trace (stdout st);
                                Line "Results:";
                                Summary (hits st) (misses st) (evictions st)])
                        h2)
            end
        end
  end.

(** The characters the [switch] of [main] has a case for. *)
Definition recognised (it : getopt_item) : bool :=
  is_char it "h" || is_char it "v" || is_char it "s" || is_char it "E"
  || is_char it "b" || is_char it "t".

(** The outcomes of silent calls of [access_cache] at the addresses
    [addrs], in turn. *)
Fixpoint outcomes (addrs : list Z) (c : cache) : option (list Outcome) :=
  match addrs with
  | [] => Some []
  | a :: addrs' =>
      r ← access_cache c a 0 0 0 0;
      os ← outcomes addrs' (ar_cache r);
      Some (ar_outcome r :: os)
  end.

(** What a verbose run prints for one record whose accesses had the
    outcomes [os]: nothing when the record has no access, and otherwise the
    header, the text of each outcome and a newline. *)
Definition report_event (ev : event) (os : list Outcome) : list chunk :=
  match os with
  | [] => []
  | _ => Header (operation ev) (address ev) (size ev)
         :: ((λ o, Text (outcome_text o)) <$> os) ++ [Newline]
  end.

(** What a verbose run prints for the records of a trace, given the
    outcomes of all its accesses in order. *)
Fixpoint report (trace : list event) (os : list Outcome) : list chunk :=
  match trace with
  | [] => []
  | ev :: trace' =>
      let n := length (accessed ev) in
      report_event ev (take n os) ++ report trace' (drop n os)
  end.

(** Every valid line holds the tag of one of the addresses [seen], which
    falls into the set of the line. *)
Definition tags_seen (seen : list Z) (c : cache) : Prop :=
  ∀ i ls k l,
    set_lines c i = Some ls → ls !! k = Some l → valid l ≠ 0 →
    ∃ a, a ∈ seen ∧ target c a = i ∧ spec_tag c a = tag l.

(** ** Machine integers: lemmas *)

Lemma wrap_int_small x : - 2 ^ 31 <= x < 2 ^ 31 → wrap_int x = x.
Proof. intros H. unfold wrap_int. rewrite Z.mod_small; lia. Qed.

Lemma wrap_ulong_small x : 0 <= x < 2 ^ 64 → wrap_ulong x = x.
Proof. intros H. unfold wrap_ulong, ADDRESS_LENGTH. rewrite Z.mod_small; lia. Qed.

Lemma int_shl_1_Some s n : int_shl 1 s = Some n ↔ 0 <= s <= 30 ∧ n = 2 ^ s.
Proof.
  unfold int_shl, INT_BITS. rewrite Z.shiftl_1_l.
  change (0 <=? 1) with true. rewrite andb_true_l.
  destruct (Z.leb_spec 0 s) as [H0|H0]; simpl; [|split; [done | lia]].
  destruct (Z.ltb_spec s 32) as [H1|H1]; simpl; [|split; [done | lia]].
  destruct (Z.ltb_spec (2 ^ s) (2 ^ 31)) as [H2|H2].
  - apply Z.pow_lt_mono_r_iff in H2; [|lia..].
    split; [intros [= <-]; lia | intros [_ ->]; done].
  - split; [done|]. intros [Hs _].
    assert (2 ^ s < 2 ^ 31) by (apply Z.pow_lt_mono_r; lia). lia.
Qed.

Lemma pow2_bounds s : 0 <= s <= 30 → 1 <= 2 ^ s < 2 ^ 31.
Proof.
  intros Hs. split.
  - pose proof (Z.pow_pos_nonneg 2 s). lia.
  - apply Z.pow_lt_mono_r; lia.
Qed.

Lemma ulong_shr_Some x n : 0 <= n < 64 → ulong_shr x n = Some (Z.shiftr x n).
Proof.
  intros H. unfold ulong_shr, ADDRESS_LENGTH.
  destruct (Z.leb_spec 0 n), (Z.ltb_spec n 64); simpl; (done || lia).
Qed.

Lemma ulong_shr_None x n : 64 <= n → ulong_shr x n = None.
Proof.
  intros H. unfold ulong_shr, ADDRESS_LENGTH.
  destruct (Z.ltb_spec n 64); [lia|]. by rewrite andb_false_r.
Qed.

Lemma set_mask s : 0 <= s <= 30 → ulong_shl 1 s = Some (2 ^ s).
Proof.
  intros H. unfold ulong_shl, ADDRESS_LENGTH.
  destruct (Z.leb_spec 0 s), (Z.ltb_spec s 64); simpl; try lia.
  rewrite Z.shiftl_1_l, wrap_ulong_small; [done|].
  pose proof (pow2_bounds s H). lia.
Qed.

Lemma land_mask x s : 0 <= s → Z.land x (2 ^ s - 1) = x mod 2 ^ s.
Proof.
  intros H. rewrite <- Z.land_ones by done. by rewrite Z.ones_equiv, <- Z.sub_1_r.
Qed.

(** ** [makecache]: what it builds *)

Lemma makecache_sets_Some malloc_ok E n : ∀ i acc sets,
  makecache_sets malloc_ok E i n acc = Some sets →
  sets = acc ++ replicate n (mkset (fresh_lines E)).
Proof.
  induction n as [|n IH]; intros i acc sets; simpl.
  - intros [= <-]. by rewrite app_nil_r.
  - destruct (malloc_ok _ _); [|done].
    intros H. apply IH in H. by rewrite H, <- app_assoc.
Qed.

Lemma makecache_sets_always malloc_ok E n : ∀ i acc,
  (∀ k sz, malloc_ok k sz = true) →
  makecache_sets malloc_ok E i n acc
  = Some (acc ++ replicate n (mkset (fresh_lines E))).
Proof.
  induction n as [|n IH]; intros i acc Hok; simpl.
  - by rewrite app_nil_r.
  - rewrite Hok, IH by done. by rewrite <- app_assoc.
Qed.

Lemma makecache_Some malloc_ok s E b c :
  makecache malloc_ok s E b = Some (Some c) →
  0 <= s <= 30 ∧ c = fresh_cache s E b.
Proof.
  unfold makecache. destruct (int_shl 1 s) as [n|] eqn:Hn; simpl; [|done].
  apply int_shl_1_Some in Hn as [Hs ->].
  destruct (malloc_ok 0%nat _); simpl; [|done].
  destruct (malloc_ok 1%nat _); simpl; [|done].
  destruct (makecache_sets _ _ _ _ _) as [sets|] eqn:Hsets; [|done].
  apply makecache_sets_Some in Hsets. simpl in Hsets. subst sets.
  by intros [= <-].
Qed.

Lemma makecache_always malloc_ok s E b :
  (∀ k sz, malloc_ok k sz = true) → 0 <= s <= 30 →
  makecache malloc_ok s E b = Some (Some (fresh_cache s E b)).
Proof.
  intros Hok Hs. unfold makecache.
  destruct (int_shl 1 s) as [n|] eqn:Hn.
  - apply int_shl_1_Some in Hn as [_ ->]. simpl.
    rewrite !Hok. simpl. by rewrite makecache_sets_always.
  - assert (int_shl 1 s = Some (2 ^ s)) as H by by apply int_shl_1_Some.
    congruence.
Qed.

Lemma young_fresh E : young (fresh_lines E).
Proof. by apply Forall_replicate. Qed.

Lemma fresh_cache_inv s E b :
  0 <= s <= 30 → valid_config s E b → cache_inv (fresh_cache s E b).
Proof.
  intros Hs (H0 & HE & Hb & Hsb). split; simpl; try done.
  - by rewrite length_replicate.
  - apply Forall_replicate. simpl. unfold fresh_lines. by rewrite length_replicate.
  - apply Forall_replicate. apply young_fresh.
Qed.

(** ** The loops on a set whose lines all have recency 0 *)

Lemma young_lookup ls i l : young ls → ls !! i = Some l → lru l = 0.
Proof. intros H Hl. by apply (Forall_lookup_1 _ _ _ _ H Hl). Qed.

Lemma with_lru_id l : lru l = 0 → with_lru l 0 = l.
Proof. destruct l. simpl. by intros ->. Qed.

Lemma set_lines_Some c i ls :
  set_lines c i = Some ls ↔ c_sets c !! i = Some (mkset ls).
Proof.
  unfold set_lines. destruct (c_sets c !! i) as [[ls']|]; simpl; naive_solver.
Qed.

Lemma with_lines_id c i ls : set_lines c i = Some ls → with_lines c i ls = c.
Proof.
  intros H%set_lines_Some. unfold with_lines.
  rewrite list_insert_id by done. by destruct c.
Qed.

Lemma set_lines_with_lines c i ls :
  (i < length (c_sets c))%nat → set_lines (with_lines c i ls) i = Some ls.
Proof.
  intros H. apply set_lines_Some. simpl. by apply list_lookup_insert_eq.
Qed.

Lemma with_lines_twice c i ls ls' :
  with_lines (with_lines c i ls) i ls' = with_lines c i ls'.
Proof. unfold with_lines. simpl. by rewrite list_insert_insert_eq. Qed.

(** With every recency at 0 no comparison [lines[i].lru < cache_line->lru]
    succeeds: the loop of [lru_update] leaves the lines as they are. *)
Lemma lru_update_loop_young ls k n : ∀ i,
  young ls → (k < length ls)%nat → (i + n <= length ls)%nat →
  lru_update_loop ls k i n = Some ls.
Proof.
  induction n as [|n IH]; intros i Hy Hk Hin; simpl; [done|].
  destruct (lookup_lt_is_Some_2 ls i) as [li Hli]; [lia|].
  destruct (lookup_lt_is_Some_2 ls k) as [lk Hlk]; [lia|].
  rewrite Hli. simpl. rewrite Hlk. simpl.
  rewrite (young_lookup _ _ _ Hy Hli), (young_lookup _ _ _ Hy Hlk). simpl.
  destruct (negb _); apply IH; (done || lia).
Qed.

Lemma lru_update_young c i k ls :
  set_lines c i = Some ls → young ls →
  length ls = Z.to_nat (c_E c) → (k < length ls)%nat →
  lru_update c i k = Some c.
Proof.
  intros Hls Hy HE Hk. unfold lru_update. rewrite Hls. simpl.
  rewrite lru_update_loop_young by (done || lia). simpl.
  destruct (lookup_lt_is_Some_2 ls k) as [lk Hlk]; [done|].
  rewrite Hlk. simpl.
  rewrite with_lru_id by by eapply young_lookup.
  rewrite list_insert_id by done. by rewrite with_lines_id.
Qed.

(** [find_lru] on such a set answers 0: line 0 matches when [E = 1], no line
    matches otherwise and the initial value of [lru_idx] is returned. *)
Lemma find_lru_loop_none c i ls n : ∀ j,
  set_lines c i = Some ls → young ls → (j + n <= length ls)%nat →
  wrap_int (c_E c - 1) ≠ 0 →
  find_lru_loop c i j n = Some 0%nat.
Proof.
  induction n as [|n IH]; intros j Hls Hy Hjn Hne; simpl; [done|].
  rewrite Hls. simpl.
  destruct (lookup_lt_is_Some_2 ls j) as [lj Hlj]; [lia|].
  rewrite Hlj. simpl. rewrite (young_lookup _ _ _ Hy Hlj).
  destruct (Z.eqb_spec 0 (wrap_int (c_E c - 1))); [congruence|].
  apply IH; (done || lia).
Qed.

Lemma find_lru_young c i ls :
  set_lines c i = Some ls → young ls →
  length ls = Z.to_nat (c_E c) → 1 <= c_E c →
  find_lru c i = Some 0%nat.
Proof.
  intros Hls Hy Hlen HE. unfold find_lru.
  destruct (decide (wrap_int (c_E c - 1) = 0)) as [H0|H0].
  - destruct (Z.to_nat (c_E c)) as [|n] eqn:Hn; [lia|]. simpl.
    rewrite Hls. simpl.
    destruct (lookup_lt_is_Some_2 ls 0) as [l0 Hl0]; [lia|].
    rewrite Hl0. simpl. rewrite (young_lookup _ _ _ Hy Hl0), H0. done.
  - eapply find_lru_loop_none; (done || lia).
Qed.

Lemma match_test tg l :
  negb (valid l =? 0) && (tag l =? tg) = bool_decide (is_match tg l).
Proof.
  unfold is_match. destruct (Z.eqb_spec (valid l) 0), (Z.eqb_spec (tag l) tg);
    simpl; symmetry; (by apply bool_decide_eq_true_2 || apply bool_decide_eq_false_2; tauto).
Qed.

Lemma free_test l : (valid l =? 0) = bool_decide (is_free l).
Proof.
  unfold is_free. destruct (Z.eqb_spec (valid l) 0); symmetry;
    [by apply bool_decide_eq_true_2 | by apply bool_decide_eq_false_2].
Qed.

Section young_set.
Variables (c : cache) (i : nat) (tg : Z) (ls : list line).
Variables (hit miss evs verb : Z).
Hypothesis Hls : set_lines c i = Some ls.
Hypothesis Hyoung : young ls.
Hypothesis Hlen : length ls = Z.to_nat (c_E c).

Lemma target_in_range : (i < length (c_sets c))%nat.
Proof. apply set_lines_Some in Hls. by eapply lookup_lt_Some. Qed.

(** The first loop returns at the first matching line, with the cache as it
    was; it falls through when no line matches. *)
Lemma hit_loop_young n : ∀ j,
  (j + n = length ls)%nat →
  hit_loop c i tg hit miss evs verb j n =
  Some (if decide (Exists (is_match tg) (drop j ls))
        then Some (mkresult c (wrap_int (hit + 1)) miss evs
                     (print_if verb "hit ") Hit)
        else None).
Proof.
  induction n as [|n IH]; intros j Hjn; simpl.
  - rewrite drop_ge by lia. by rewrite decide_False by by intros ?%Exists_nil.
  - rewrite Hls. simpl.
    destruct (lookup_lt_is_Some_2 ls j) as [lj Hlj]; [lia|].
    rewrite Hlj. simpl. rewrite (drop_S _ _ _ Hlj), match_test.
    destruct (decide (is_match tg lj)) as [Hm|Hm].
    + rewrite bool_decide_eq_true_2 by done.
      rewrite (lru_update_young c i j ls) by (done || lia). simpl.
      by rewrite decide_True by by apply Exists_cons_hd.
    + rewrite bool_decide_eq_false_2 by done.
      rewrite IH by lia.
      destruct (decide (Exists _ (drop (S j) ls))) as [He|He].
      * by rewrite decide_True by by apply Exists_cons_tl.
      * rewrite decide_False; [done|]. by intros [?|?]%Exists_cons.
Qed.

(** The second loop takes the first free line. *)
Lemma fill_loop_young n : ∀ j,
  (j + n = length ls)%nat →
  Forall (λ l, ¬ is_free l) (take j ls) →
  fill_loop c i tg hit miss evs verb j n =
  Some (match list_find is_free ls with
        | Some (k, lk) =>
            Some (mkresult
                    (with_lines c i (<[k := with_tag (with_valid lk 1) tg]> ls))
                    hit (wrap_int (miss + 1)) evs (print_if verb "miss ") MissFill)
        | None => None
        end).
Proof.
  induction n as [|n IH]; intros j Hjn Hbefore; simpl.
  - rewrite take_ge in Hbefore by lia.
    apply (list_find_None is_free) in Hbefore. by rewrite Hbefore.
  - rewrite Hls. simpl.
    destruct (lookup_lt_is_Some_2 ls j) as [lj Hlj]; [lia|].
    rewrite Hlj. simpl. rewrite free_test.
    destruct (decide (is_free lj)) as [Hf|Hf].
    + rewrite bool_decide_eq_true_2 by done.
      assert (list_find is_free ls = Some (j, lj)) as ->.
      { apply list_find_Some. split_and!; [done..|].
        intros k y Hk Hkj. eapply (Forall_lookup_1 _ _ k y Hbefore).
        by rewrite lookup_take_lt. }
      pose proof target_in_range as Hi.
      erewrite lru_update_young; [done| |..].
      * by apply set_lines_with_lines.
      * apply Forall_insert; [done|]. simpl. by eapply young_lookup.
      * by rewrite length_insert.
      * rewrite length_insert. lia.
    + rewrite bool_decide_eq_false_2 by done.
      apply IH; [lia|].
      rewrite (take_S_r _ _ _ Hlj). apply Forall_app. split; [done|].
      by apply Forall_singleton.
Qed.

(** The end of the function overwrites line 0. *)
Lemma evict_young l0 :
  1 <= c_E c → ls !! 0%nat = Some l0 →
  evict c i tg hit miss evs verb =
  Some (mkresult (with_lines c i (<[0%nat := with_tag l0 tg]> ls))
          hit (wrap_int (miss + 1)) (wrap_int (evs + 1))
          (print_if verb "miss eviction ") MissEvict).
Proof.
  intros HE Hl0. unfold evict.
  rewrite (find_lru_young c i ls) by done. simpl.
  rewrite Hls. simpl. rewrite Hl0. simpl.
  pose proof target_in_range as Hi.
  erewrite lru_update_young; [done| |..].
  - by apply set_lines_with_lines.
  - apply Forall_insert; [done|]. simpl. by eapply young_lookup.
  - by rewrite length_insert.
  - rewrite length_insert. lia.
Qed.

Lemma access_set_young :
  1 <= c_E c →
  access_set c i tg hit miss evs verb
  = Some (access_model c i tg ls hit miss evs verb).
Proof.
  intros HE. unfold access_set, access_model, access_lines.
  rewrite hit_loop_young by lia. simpl. rewrite drop_0.
  destruct (decide (Exists _ _)) as [Hex|Hex]; simpl.
  { by rewrite with_lines_id. }
  rewrite fill_loop_young by (by rewrite ?take_0; try lia). simpl.
  destruct (list_find is_free ls) as [[k lk]|]; simpl; [done|].
  destruct (lookup_lt_is_Some_2 ls 0) as [l0 Hl0]; [lia|].
  rewrite Hl0. by apply evict_young.
Qed.

Lemma access_lines_length : length (access_lines tg ls).2 = length ls.
Proof.
  unfold access_lines. repeat case_match; simpl; by rewrite ?length_insert.
Qed.

Lemma access_lines_young : young (access_lines tg ls).2.
Proof.
  unfold access_lines. destruct (decide _); [done|].
  destruct (list_find is_free ls) as [[k lk]|] eqn:Hfree; simpl.
  - apply list_find_Some in Hfree as (Hk & _).
    apply Forall_insert; [done|]. simpl. by eapply young_lookup.
  - destruct (ls !! 0%nat) as [l0|] eqn:Hl0; simpl; [|done].
    apply Forall_insert; [done|]. simpl. by eapply young_lookup.
Qed.
End young_set.

(** ** [access_cache] on a cache that satisfies the invariant *)

Section with_inv.
Variable c : cache.
Hypothesis Hinv : cache_inv c.

Lemma set_index_inv a : set_index c a = Some (spec_set_index c a).
Proof.
  destruct Hinv. unfold set_index, spec_set_index, ADDRESS_LENGTH in *.
  rewrite ulong_shr_Some by lia. simpl.
  rewrite set_mask by done. simpl.
  rewrite wrap_ulong_small, inv_S0; [done|].
  pose proof (pow2_bounds _ inv_s0). lia.
Qed.

Lemma block_tag_inv a : block_tag c a = Some (spec_tag c a).
Proof.
  destruct Hinv. unfold block_tag, spec_tag, ADDRESS_LENGTH in *.
  rewrite wrap_int_small by lia. by rewrite ulong_shr_Some by lia.
Qed.

Lemma spec_set_index_range a : 0 <= spec_set_index c a < c_S c.
Proof.
  destruct Hinv. unfold spec_set_index. rewrite inv_S0, land_mask by lia.
  apply Z.mod_pos_bound. pose proof (pow2_bounds _ inv_s0). lia.
Qed.

Lemma target_lt a : (target c a < length (c_sets c))%nat.
Proof.
  pose proof (spec_set_index_range a). rewrite (inv_sets c Hinv).
  unfold target. lia.
Qed.

Lemma inv_set_lines i :
  (i < length (c_sets c))%nat →
  ∃ ls, set_lines c i = Some ls ∧ young ls ∧ length ls = Z.to_nat (c_E c).
Proof.
  intros Hi. destruct (lookup_lt_is_Some_2 _ _ Hi) as [[ls] Hst].
  exists ls. split_and!.
  - by apply set_lines_Some.
  - by apply (Forall_lookup_1 _ _ _ _ (inv_young c Hinv) Hst).
  - by apply (Forall_lookup_1 _ _ _ _ (inv_lines c Hinv) Hst).
Qed.

Lemma access_cache_inv a hit miss evs verb :
  ∃ ls, set_lines c (target c a) = Some ls ∧ young ls ∧
        length ls = Z.to_nat (c_E c) ∧
        access_cache c a hit miss evs verb
        = Some (access_model c (target c a) (spec_tag c a) ls hit miss evs verb).
Proof.
  destruct (inv_set_lines _ (target_lt a)) as (ls & Hls & Hy & Hlen).
  exists ls. split_and!; [done..|].
  unfold access_cache. rewrite set_index_inv, block_tag_inv. simpl.
  apply access_set_young; try done. apply Hinv.
Qed.

Lemma with_lines_inv i ls' :
  length ls' = Z.to_nat (c_E c) → young ls' → cache_inv (with_lines c i ls').
Proof.
  intros Hlen Hy. destruct Hinv. split; simpl; try done.
  - by rewrite length_insert.
  - by apply Forall_insert.
  - by apply Forall_insert.
Qed.

Lemma access_model_inv i tg ls hit miss evs verb :
  young ls → length ls = Z.to_nat (c_E c) →
  cache_inv (ar_cache (access_model c i tg ls hit miss evs verb)).
Proof.
  intros Hy Hlen. unfold access_model.
  pose proof (access_lines_length tg ls) as Hl.
  pose proof (access_lines_young tg ls Hy) as Hy'.
  destruct (access_lines tg ls) as [o ls']. simpl in *.
  apply with_lines_inv; [lia | done].
Qed.

Lemma access_cache_keeps_inv a hit miss evs verb r :
  access_cache c a hit miss evs verb = Some r → cache_inv (ar_cache r).
Proof.
  destruct (access_cache_inv a hit miss evs verb) as (ls & _ & Hy & Hlen & ->).
  intros [= <-]. by apply access_model_inv.
Qed.
End with_inv.

(** Every reachable cache satisfies the invariant; in particular all its
    lines, valid or not, have recency 0. *)
Lemma reachable_inv c : reachable c → cache_inv c.
Proof.
  induction 1 as [malloc_ok s E b c Hcfg Hmk | c a hit miss evs verb r _ IH _ Hacc].
  - apply makecache_Some in Hmk as [Hs ->]. by apply fresh_cache_inv.
  - by eapply access_cache_keeps_inv.
Qed.

(** ** Two runs *)

(** One set of one line, [s = 0], [E = 1], [b = 0]: the addresses 0x10, 0x20,
    0x10 give a miss and two misses with eviction. *)
Example run_direct_mapped :
  simulate 0 1 0 1 [load 16; load 32; load 16]
  = Some (mksim (mkcache [mkset [mkline 1 16 0]] 0 1 0 1) 0 3 2
            [Header "L" 16 1; Text "miss "; Newline;
             Header "L" 32 1; Text "miss eviction "; Newline;
             Header "L" 16 1; Text "miss eviction "; Newline]).
Proof. reflexivity. Qed.

(** Two sets of two lines, [s = 1], [E = 2], [b = 0]: the addresses 0, 4, 0
    fall into set 0 and give two misses and a hit. *)
Example run_two_way :
  simulate 1 2 0 1 [load 0; load 4; load 0]
  = Some (mksim
            (mkcache [mkset [mkline 1 0 0; mkline 1 2 0]; mkset (fresh_lines 2)] 1 2 0 2)
            1 2 0
            [Header "L" 0 1; Text "miss "; Newline;
             Header "L" 4 1; Text "miss "; Newline;
             Header "L" 0 1; Text "hit "; Newline]).
Proof. reflexivity. Qed.

(** A record that is neither a load, a store nor a modify leaves the state
    as it is. *)
Example run_instruction_fetch st :
  runsim_event 1 (mkevent "I" 4195584 3) st = Some st.
Proof. reflexivity. Qed.

(** ** The three cases of an access *)

Lemma first_free_find ls k lk :
  list_find is_free ls = Some (k, lk) ↔ first_free ls k lk.
Proof. unfold first_free. by rewrite (list_find_Some is_free). Qed.

Lemma first_free_unique ls k lk k' lk' :
  first_free ls k lk → first_free ls k' lk' → k = k' ∧ lk = lk'.
Proof.
  intros H%first_free_find H'%first_free_find. split; congruence.
Qed.

Lemma no_free_find ls :
  list_find is_free ls = None ↔ Forall (λ l, valid l ≠ 0) ls.
Proof. apply (list_find_None is_free). Qed.

Lemma access_lines_case tg ls :
  young ls → (0 < length ls)%nat →
  access_case tg ls (access_lines tg ls).1 (access_lines tg ls).2.
Proof.
  intros Hy Hlen. unfold access_lines.
  destruct (decide (Exists (is_match tg) ls)) as [Hex|Hex]; simpl.
  { by constructor. }
  destruct (list_find is_free ls) as [[k lk]|] eqn:Hfree; simpl.
  - apply first_free_find in Hfree.
    assert (with_tag (with_valid lk 1) tg = mkline 1 tg 0) as ->.
    { unfold with_tag, with_valid. simpl. f_equal.
      eapply young_lookup; [done|]. apply Hfree. }
    by econstructor.
  - apply no_free_find in Hfree.
    destruct (lookup_lt_is_Some_2 ls 0 Hlen) as [l0 Hl0]. rewrite Hl0. simpl.
    assert (with_tag l0 tg = mkline (valid l0) tg 0) as ->.
    { unfold with_tag. f_equal. by eapply young_lookup. }
    by constructor.
Qed.

(** After any access some line of the set holds the tag. *)
Lemma access_case_match tg ls o ls' :
  access_case tg ls o ls' → Exists (is_match tg) ls'.
Proof.
  destruct 1 as [Hex | k lk _ (Hk & _) | l0 _ Hfull Hl0]; [done|..].
  - apply Exists_exists. exists (mkline 1 tg 0). split; [|done].
    apply list_elem_of_lookup. exists k.
    apply list_lookup_insert_eq. by eapply lookup_lt_Some.
  - apply Exists_exists. exists (mkline (valid l0) tg 0). split.
    + apply list_elem_of_lookup. exists 0%nat.
      apply list_lookup_insert_eq. by eapply lookup_lt_Some.
    + split; [|done]. simpl. by apply (Forall_lookup_1 _ _ _ _ Hfull Hl0).
Qed.

(** The three cases exclude one another. *)
Lemma access_case_hit tg ls o ls' :
  Exists (is_match tg) ls → access_case tg ls o ls' → o = Hit ∧ ls' = ls.
Proof. intros Hex. by inversion 1. Qed.

Lemma access_case_fill tg ls o ls' k lk :
  ¬ Exists (is_match tg) ls → first_free ls k lk →
  access_case tg ls o ls' → o = MissFill ∧ ls' = <[k := mkline 1 tg 0]> ls.
Proof.
  intros Hno Hk. inversion 1 as [|k' lk' _ Hk'|l0 _ Hfull _]; subst; [done|..].
  - by destruct (first_free_unique _ _ _ _ _ Hk Hk') as [-> ->].
  - destruct Hk as (Hk & Hv & _). by apply (Forall_lookup_1 _ _ _ _ Hfull) in Hk.
Qed.

Lemma access_case_evict tg ls o ls' l0 :
  ¬ Exists (is_match tg) ls → Forall (λ l, valid l ≠ 0) ls →
  ls !! 0%nat = Some l0 →
  access_case tg ls o ls' →
  o = MissEvict ∧ ls' = <[0%nat := mkline (valid l0) tg 0]> ls.
Proof.
  intros Hno Hfull Hl0.
  inversion 1 as [|k lk _ (Hk & Hv & _)|l0' _ _ Hl0']; subst; [done|..].
  - by apply (Forall_lookup_1 _ _ _ _ Hfull) in Hk.
  - by assert (l0' = l0) as -> by congruence.
Qed.

Lemma access_model_cache c i tg ls hit miss evs verb :
  ar_cache (access_model c i tg ls hit miss evs verb)
  = with_lines c i (access_lines tg ls).2.
Proof. unfold access_model. by destruct (access_lines tg ls). Qed.

Lemma access_model_outcome c i tg ls hit miss evs verb :
  ar_outcome (access_model c i tg ls hit miss evs verb) = (access_lines tg ls).1.
Proof. unfold access_model. by destruct (access_lines tg ls). Qed.

Lemma access_model_counters c i tg ls hit miss evs verb :
  let r := access_model c i tg ls hit miss evs verb in
  ar_hit r = bump (is_hit (ar_outcome r)) hit ∧
  ar_miss r = bump (negb (is_hit (ar_outcome r))) miss ∧
  ar_evictions r = bump (is_evict (ar_outcome r)) evs ∧
  ar_printed r = print_if verb (outcome_text (ar_outcome r)).
Proof. unfold access_model. by destruct (access_lines tg ls). Qed.

(** The summary the claims are read from: on a cache that satisfies the
    invariant a call is defined, and what it does is one of the three
    cases. *)
Lemma access_cache_cases c a hit miss evs verb :
  cache_inv c →
  ∃ ls r,
    set_lines c (target c a) = Some ls ∧
    young ls ∧ length ls = Z.to_nat (c_E c) ∧
    access_cache c a hit miss evs verb = Some r ∧
    ∃ ls', access_case (spec_tag c a) ls (ar_outcome r) ls' ∧
           ar_cache r = with_lines c (target c a) ls' ∧
           ar_hit r = bump (is_hit (ar_outcome r)) hit ∧
           ar_miss r = bump (negb (is_hit (ar_outcome r))) miss ∧
           ar_evictions r = bump (is_evict (ar_outcome r)) evs ∧
           ar_printed r = print_if verb (outcome_text (ar_outcome r)).
Proof.
  intros Hinv.
  destruct (access_cache_inv c Hinv a hit miss evs verb)
    as (ls & Hls & Hy & Hlen & Hacc).
  exists ls, (access_model c (target c a) (spec_tag c a) ls hit miss evs verb).
  split_and!; [done..|].
  exists (access_lines (spec_tag c a) ls).2.
  rewrite access_model_cache, access_model_outcome.
  split; [|split; [done|]].
  - apply access_lines_case; [done|]. pose proof (inv_E c Hinv). lia.
  - rewrite <- access_model_outcome with (c := c) (i := target c a)
      (hit := hit) (miss := miss) (evs := evs) (verb := verb).
    apply access_model_counters.
Qed.

(** ** The access algorithm *)

(** C5. On every reachable cache a call of [access_cache] is defined and
    follows the three-way algorithm: it is a [Hit] that leaves the cache as
    it is when a valid line of the target set holds the tag; else a
    [MissFill] that makes the first invalid line valid with the tag; else a
    [MissEvict] that overwrites the tag of the line [find_lru] names.  The
    miss counter moves exactly on [MissFill] and [MissEvict], the eviction
    counter exactly on [MissEvict], the hit counter exactly on [Hit]. *)
Theorem C5_access_algorithm c a hit miss evs verb :
  reachable c →
  ∃ si tg ls r,
    set_index c a = Some si ∧ block_tag c a = Some tg ∧
    set_lines c (Z.to_nat si) = Some ls ∧
    access_cache c a hit miss evs verb = Some r ∧
    (Exists (is_match tg) ls →
       ar_outcome r = Hit ∧ ar_cache r = c) ∧
    (¬ Exists (is_match tg) ls →
       ∀ k lk, first_free ls k lk →
         ar_outcome r = MissFill ∧
         ar_cache r = with_lines c (Z.to_nat si) (<[k := mkline 1 tg 0]> ls)) ∧
    (¬ Exists (is_match tg) ls →
       Forall (λ l, valid l ≠ 0) ls →
         ar_outcome r = MissEvict ∧
         ∃ k lk, find_lru c (Z.to_nat si) = Some k ∧ ls !! k = Some lk ∧
                 ar_cache r = with_lines c (Z.to_nat si)
                                (<[k := mkline (valid lk) tg 0]> ls)) ∧
    ar_hit r = (if decide (ar_outcome r = Hit) then wrap_int (hit + 1) else hit) ∧
    ar_miss r = (if decide (ar_outcome r = Hit) then miss else wrap_int (miss + 1)) ∧
    ar_evictions r
    = (if decide (ar_outcome r = MissEvict) then wrap_int (evs + 1) else evs).
Proof.
  intros Hinv%reachable_inv.
  destruct (access_cache_cases c a hit miss evs verb Hinv)
    as (ls & r & Hls & Hy & Hlen & Hacc & ls' & Hcase & Hc & Hh & Hm & He & _).
  exists (spec_set_index c a), (spec_tag c a), ls, r.
  fold (target c a).
  split_and!; try done.
  - by apply set_index_inv.
  - by apply block_tag_inv.
  - intros Hex. apply (access_case_hit _ _ _ _ Hex) in Hcase as [Hout ->].
    split; [done|]. by rewrite Hc, with_lines_id.
  - intros Hno k lk Hk.
    by apply (access_case_fill _ _ _ _ _ _ Hno Hk) in Hcase as [Hout ->].
  - intros Hno Hfull.
    destruct (lookup_lt_is_Some_2 ls 0) as [l0 Hl0].
    { pose proof (inv_E c Hinv). lia. }
    apply (access_case_evict _ _ _ _ _ Hno Hfull Hl0) in Hcase as [Hout ->].
    split; [done|]. exists 0%nat, l0. split_and!; [|done..].
    eapply find_lru_young; try done. apply Hinv.
  - rewrite Hh. unfold bump, is_hit. by destruct (ar_outcome r).
  - rewrite Hm. unfold bump, is_hit. by destruct (ar_outcome r).
  - rewrite He. unfold bump, is_evict. by destruct (ar_outcome r).
Qed.

Lemma valid_config_121 : valid_config 1 2 1.
Proof. unfold valid_config, ADDRESS_LENGTH. lia. Defined.

Lemma is_ulong_small a : 0 <= a < 2 ^ 32 → is_ulong a.
Proof. unfold is_ulong, ADDRESS_LENGTH. lia. Defined.

Lemma reachable_fresh_121 : reachable (fresh_cache 1 2 1).
Proof.
  apply (reachable_fresh malloc_always 1 2 1); [apply valid_config_121 | reflexivity].
Defined.

Lemma reachable_cache_A : reachable cache_A.
Proof.
  change cache_A with (ar_cache (mkresult cache_A 0 1 0 [] MissFill)).
  apply (reachable_access (fresh_cache 1 2 1) 0 0 0 0 0);
    [apply reachable_fresh_121 | apply is_ulong_small; lia | reflexivity].
Defined.

Lemma reachable_cache_AB : reachable cache_AB.
Proof.
  change cache_AB with (ar_cache (mkresult cache_AB 0 1 0 [] MissFill)).
  apply (reachable_access cache_A 4 0 0 0 0);
    [apply reachable_cache_A | apply is_ulong_small; lia | reflexivity].
Defined.

Lemma C5_access_algorithm_witness :
  reachable cache_A ∧
  ∃ si tg ls r,
    set_index cache_A 4 = Some si ∧ block_tag cache_A 4 = Some tg ∧
    set_lines cache_A (Z.to_nat si) = Some ls ∧
    access_cache cache_A 4 0 0 0 0 = Some r ∧
    ar_miss r = (if decide (ar_outcome r = Hit) then 0 else wrap_int (0 + 1)).
Proof.
  split; [apply reachable_cache_A|].
  destruct (C5_access_algorithm cache_A 4 0 0 0 0 reachable_cache_A)
    as (si & tg & ls & r & Hsi & Htg & Hls & Hacc & _ & _ & _ & _ & Hmiss & _).
  exists si, tg, ls, r.
  split; [exact Hsi | split; [exact Htg | split; [exact Hls | split; [exact Hacc | exact Hmiss]]]].
Defined.

(** ** Accessing the same address again *)

Lemma target_with_lines c i ls a : target (with_lines c i ls) a = target c a.
Proof. done. Qed.

Lemma spec_tag_with_lines c i ls a : spec_tag (with_lines c i ls) a = spec_tag c a.
Proof. done. Qed.

(** Whatever a call did, a second call at the same address finds the tag:
    it is a [Hit], counts as one and leaves the cache as the first call
    left it. *)
Lemma second_access_hits c a hit miss evs verb r hit' miss' evs' verb' :
  cache_inv c →
  access_cache c a hit miss evs verb = Some r →
  ∃ r', access_cache (ar_cache r) a hit' miss' evs' verb' = Some r' ∧
        ar_outcome r' = Hit ∧ ar_cache r' = ar_cache r ∧
        ar_hit r' = wrap_int (hit' + 1) ∧ ar_miss r' = miss' ∧
        ar_evictions r' = evs'.
Proof.
  intros Hinv Hacc.
  pose proof (access_cache_keeps_inv c Hinv _ _ _ _ _ _ Hacc) as Hinv'.
  destruct (access_cache_cases c a hit miss evs verb Hinv)
    as (ls & r0 & Hls & _ & _ & Hacc0 & ls1 & Hcase & Hc & _).
  assert (r0 = r) as -> by congruence.
  destruct (access_cache_cases (ar_cache r) a hit' miss' evs' verb' Hinv')
    as (ls2 & r' & Hls2 & _ & _ & Hacc' & ls3 & Hcase' & Hc' & Hh & Hm & He & _).
  assert (ls2 = ls1) as ->.
  { rewrite Hc, target_with_lines, set_lines_with_lines in Hls2; [congruence|].
    apply set_lines_Some in Hls. by eapply lookup_lt_Some. }
  apply access_case_match in Hcase.
  rewrite Hc, spec_tag_with_lines in Hcase'.
  exists r'. split; [done|].
  destruct Hcase' as [_| |]; [|done..].
  split_and!; try done.
  rewrite Hc', Hc, target_with_lines. apply with_lines_twice.
Qed.

(** C7. A Modify record makes [runsim] call [access_cache] twice at the same
    address, the second call on the state the first one left; on a reachable
    cache both calls are defined and the second returns [Hit].  When the
    first call is a miss, which it is when no valid line of the target set
    holds the tag, the record adds one to the misses and one to the hits. *)
Theorem C7_modify_second_access_hits c a size hit miss evs verb out :
  reachable c →
  ∃ r1 r2 out',
    access_cache c a hit miss evs verb = Some r1 ∧
    access_cache (ar_cache r1) a (ar_hit r1) (ar_miss r1) (ar_evictions r1) verb
    = Some r2 ∧
    runsim_event verb (mkevent "M" a size) (mksim c hit miss evs out)
    = Some (mksim (ar_cache r2) (ar_hit r2) (ar_miss r2) (ar_evictions r2) out') ∧
    ar_outcome r2 = Hit ∧
    (ar_outcome r1 ≠ Hit →
       ar_hit r2 = wrap_int (hit + 1) ∧ ar_miss r2 = wrap_int (miss + 1)) ∧
    (∀ si tg ls,
       set_index c a = Some si → block_tag c a = Some tg →
       set_lines c (Z.to_nat si) = Some ls →
       ¬ Exists (is_match tg) ls → ar_outcome r1 ≠ Hit).
Proof.
  intros Hinv%reachable_inv.
  destruct (access_cache_cases c a hit miss evs verb Hinv)
    as (ls & r1 & Hls & _ & _ & Hacc & ls' & Hcase & _ & Hh & Hm & _).
  destruct (second_access_hits c a hit miss evs verb r1
              (ar_hit r1) (ar_miss r1) (ar_evictions r1) verb Hinv Hacc)
    as (r2 & Hacc2 & Hout2 & _ & Hh2 & Hm2 & _).
  exists r1, r2.
  assert (∃ out', runsim_event verb (mkevent "M" a size) (mksim c hit miss evs out)
    = Some (mksim (ar_cache r2) (ar_hit r2) (ar_miss r2) (ar_evictions r2) out'))
    as [out' Hrun].
  { unfold runsim_event, call_access. simpl.
    destruct (verb =? 1); simpl; rewrite Hacc; simpl; rewrite Hacc2; simpl; eauto. }
  exists out'. split_and!; try done.
  - intros Hmiss. rewrite Hh2, Hm2, Hh, Hm. unfold bump, is_hit.
    by rewrite bool_decide_eq_false_2.
  - intros si tg ls0 Hsi Htg Hls0 Hno Hhit. rewrite Hhit in Hcase.
    rewrite set_index_inv in Hsi by done. rewrite block_tag_inv in Htg by done.
    injection Hsi as <-. injection Htg as <-. fold (target c a) in Hls0.
    assert (ls0 = ls) as -> by congruence.
    apply Hno. inversion Hcase; by subst.
Qed.

Lemma C7_modify_second_access_hits_witness :
  reachable cache_AB ∧
  ∃ r1 r2 out',
    access_cache cache_AB 8 0 0 0 1 = Some r1 ∧
    runsim_event 1 (modify 8) (mksim cache_AB 0 0 0 [])
    = Some (mksim (ar_cache r2) (ar_hit r2) (ar_miss r2) (ar_evictions r2) out') ∧
    ar_outcome r2 = Hit.
Proof.
  split; [apply reachable_cache_AB|].
  destruct (C7_modify_second_access_hits cache_AB 8 1 0 0 0 1 [] reachable_cache_AB)
    as (r1 & r2 & out' & H1 & _ & Hrun & Hhit & _).
  exists r1, r2, out'. split; [exact H1 | split; [exact Hrun | exact Hhit]].
Defined.

(** C8. On a reachable cache, when a call has returned [Hit], the next call
    at the same address returns [Hit] again and leaves the whole cache as it
    was. *)
Theorem C8_hit_is_idempotent c a hit miss evs verb r hit' miss' evs' verb' :
  reachable c →
  access_cache c a hit miss evs verb = Some r →
  ar_outcome r = Hit →
  ∃ r', access_cache (ar_cache r) a hit' miss' evs' verb' = Some r' ∧
        ar_outcome r' = Hit ∧
        ar_cache r' = ar_cache r.
Proof.
  intros Hinv%reachable_inv Hacc _.
  destruct (second_access_hits c a hit miss evs verb r hit' miss' evs' verb' Hinv Hacc)
    as (r' & Hacc' & Hout & Hc & _).
  by exists r'.
Qed.

Lemma C8_hit_is_idempotent_witness :
  reachable cache_AB ∧
  access_cache cache_AB 4 0 2 0 0 = Some (mkresult cache_AB 1 2 0 [] Hit) ∧
  ∃ r', access_cache cache_AB 4 1 2 0 0 = Some r' ∧
        ar_outcome r' = Hit ∧ ar_cache r' = cache_AB.
Proof.
  split; [apply reachable_cache_AB|]. split; [reflexivity|].
  apply (C8_hit_is_idempotent cache_AB 4 0 2 0 0 (mkresult cache_AB 1 2 0 [] Hit)
           1 2 0 0 reachable_cache_AB eq_refl eq_refl).
Defined.

(** ** Address decomposition *)

Lemma spec_tag_block c a a' :
  0 <= c_s c →
  Z.shiftr a' (c_b c) = Z.shiftr a (c_b c) → spec_tag c a' = spec_tag c a.
Proof.
  intros Hs Heq. unfold spec_tag.
  rewrite !(Z.add_comm (c_s c)), <- !Z.shiftr_shiftr by done. by rewrite Heq.
Qed.

(** C6. On a reachable cache, [S = 2^s]; [access_cache] works on the set of
    index [(a >> b) & (S - 1)] with the tag [a >> (s + b)]; and two addresses
    that differ in their block-offset bits only (the same [a >> b]) give the
    same result. *)
Theorem C6_address_decomposition c a hit miss evs verb :
  reachable c →
  c_S c = 2 ^ c_s c ∧
  set_index c a = Some (Z.land (Z.shiftr a (c_b c)) (c_S c - 1)) ∧
  block_tag c a = Some (Z.shiftr a (c_s c + c_b c)) ∧
  access_cache c a hit miss evs verb
  = access_set c (Z.to_nat (Z.land (Z.shiftr a (c_b c)) (c_S c - 1)))
      (Z.shiftr a (c_s c + c_b c)) hit miss evs verb ∧
  ∀ a', Z.shiftr a' (c_b c) = Z.shiftr a (c_b c) →
        access_cache c a' hit miss evs verb = access_cache c a hit miss evs verb.
Proof.
  intros Hinv%reachable_inv.
  pose proof (set_index_inv c Hinv) as Hidx.
  pose proof (block_tag_inv c Hinv) as Htag.
  unfold spec_set_index, spec_tag in *.
  split_and!; [apply Hinv | done | done | |].
  - unfold access_cache. by rewrite Hidx, Htag.
  - intros a' Heq. unfold access_cache. rewrite !Hidx, !Htag. simpl.
    rewrite Heq. f_equal.
    apply (spec_tag_block c a a'); [apply Hinv | done].
Qed.

Lemma C6_address_decomposition_witness :
  reachable cache_AB ∧
  set_index cache_AB 7 = Some (Z.land (Z.shiftr 7 1) (2 - 1)) ∧
  block_tag cache_AB 7 = Some (Z.shiftr 7 (1 + 1)) ∧
  (Z.shiftr 6 1 = Z.shiftr 7 1 →
   access_cache cache_AB 6 0 0 0 0 = access_cache cache_AB 7 0 0 0 0).
Proof.
  split; [apply reachable_cache_AB|].
  destruct (C6_address_decomposition cache_AB 7 0 0 0 0 reachable_cache_AB)
    as (_ & Hidx & Htag & _ & Hoff).
  split; [exact Hidx | split; [exact Htag | exact (Hoff 6)]].
Defined.

(** ** Totality *)

Lemma run_from_reachable c0 c : reachable c0 → run_from c0 c → reachable c.
Proof.
  intros H0. induction 1; [done|]. by eapply reachable_access.
Qed.

Lemma run_from_params c0 c :
  cache_inv c0 → run_from c0 c →
  cache_inv c ∧ c_s c = c_s c0 ∧ c_E c = c_E c0 ∧ c_b c = c_b c0 ∧ c_S c = c_S c0.
Proof.
  intros H0. induction 1 as [|c a hit miss evs verb r _ (Hinv & IH) _ Hacc]; [done|].
  split; [by eapply access_cache_keeps_inv|].
  destruct (access_cache_cases c a hit miss evs verb Hinv)
    as (ls & r' & _ & _ & _ & Hacc' & ls' & _ & Hc & _).
  assert (r' = r) as -> by congruence. by rewrite Hc.
Qed.

(** A cache whose [s + b] reaches the width of an address: the shift that
    computes the tag is undefined, whatever the address and the state. *)
Lemma access_cache_undefined c a hit miss evs verb :
  64 <= c_s c + c_b c < 2 ^ 31 → access_cache c a hit miss evs verb = None.
Proof.
  intros H. unfold access_cache.
  destruct (set_index c a); simpl; [|done].
  unfold block_tag. rewrite wrap_int_small by lia.
  by rewrite ulong_shr_None by lia.
Qed.

(** C9 (as amended). For a cache built by [makecache] from [E >= 1],
    [b >= 0] and [s + b <= 63], in whatever state accesses have brought it,
    and for every 64-bit address, [access_cache] is defined and returns a
    result: the set index it computes is below [S], there are [S] sets of
    [E] lines each, and the index [find_lru] returns for the target set is
    below [E]. *)
Theorem C9_access_is_total malloc_ok s E b c0 c a hit miss evs verb :
  1 <= E → 0 <= b → s + b <= 63 →
  makecache malloc_ok s E b = Some (Some c0) →
  run_from c0 c →
  is_ulong a →
  c_s c = s ∧ c_E c = E ∧ c_b c = b ∧ c_S c = 2 ^ s ∧
  length (c_sets c) = Z.to_nat (c_S c) ∧
  Forall (λ st, length (lines st) = Z.to_nat (c_E c)) (c_sets c) ∧
  ∃ si tg k r,
    set_index c a = Some si ∧ 0 <= si < c_S c ∧
    block_tag c a = Some tg ∧
    find_lru c (Z.to_nat si) = Some k ∧ 0 <= Z.of_nat k < c_E c ∧
    access_cache c a hit miss evs verb = Some r.
Proof.
  intros HE Hb Hsb Hmk Hrun Ha.
  apply makecache_Some in Hmk as [Hs ->].
  assert (cache_inv (fresh_cache s E b)) as Hinv0.
  { apply fresh_cache_inv; [done|]. unfold valid_config, ADDRESS_LENGTH. lia. }
  destruct (run_from_params _ _ Hinv0 Hrun) as (Hinv & Hcs & HcE & Hcb & HcS).
  simpl in Hcs, HcE, Hcb, HcS.
  split_and!; try done; [apply Hinv..|].
  destruct (access_cache_cases c a hit miss evs verb Hinv)
    as (ls & r & Hls & Hy & Hlen & Hacc & _).
  exists (spec_set_index c a), (spec_tag c a), 0%nat, r.
  split_and!; try done.
  - by apply set_index_inv.
  - apply (spec_set_index_range c Hinv a).
  - apply (spec_set_index_range c Hinv a).
  - by apply block_tag_inv.
  - eapply find_lru_young; try done. apply Hinv.
  - pose proof (inv_E c Hinv). lia.
Qed.

Lemma C9_access_is_total_witness :
  (1 <= 2 ∧ 0 <= 1 ∧ 1 + 1 <= 63) ∧
  makecache malloc_always 1 2 1 = Some (Some (fresh_cache 1 2 1)) ∧
  run_from (fresh_cache 1 2 1) cache_A ∧
  is_ulong 4 ∧
  ∃ si tg k r,
    set_index cache_A 4 = Some si ∧ 0 <= si < c_S cache_A ∧
    block_tag cache_A 4 = Some tg ∧
    find_lru cache_A (Z.to_nat si) = Some k ∧ 0 <= Z.of_nat k < c_E cache_A ∧
    access_cache cache_A 4 0 1 0 0 = Some r.
Proof.
  assert (is_ulong 4) as H4 by (apply is_ulong_small; lia).
  assert (run_from (fresh_cache 1 2 1) cache_A) as Hrun.
  { change cache_A with (ar_cache (mkresult cache_A 0 1 0 [] MissFill)).
    apply (run_access _ (fresh_cache 1 2 1) 0 0 0 0 0);
      [apply run_start | apply is_ulong_small; lia | reflexivity]. }
  split; [lia|]. split; [reflexivity|]. split; [exact Hrun|]. split; [exact H4|].
  apply (C9_access_is_total malloc_always 1 2 1 (fresh_cache 1 2 1) cache_A 4 0 1 0 0);
    [lia | lia | lia | reflexivity | exact Hrun | exact H4].
Defined.

(** C9 as the specification words it, with [s + b <= 64] allowed: at
    [s = 1], [E = 1], [b = 63] the cache is built and the first access is
    undefined, for the tag is a shift by 64. *)
Lemma C9_counterexample :
  (0 <= 1 ∧ 0 <= 63 ∧ 1 <= 1 ∧ 1 + 63 <= 64) ∧
  makecache malloc_always 1 1 63 = Some (Some (fresh_cache 1 1 63)) ∧
  is_ulong 0 ∧
  block_tag (fresh_cache 1 1 63) 0 = None ∧
  access_cache (fresh_cache 1 1 63) 0 0 0 0 0 = None.
Proof.
  split; [lia|]. split; [reflexivity|]. split; [unfold is_ulong, ADDRESS_LENGTH; lia|].
  split; reflexivity.
Qed.

(** ** The frame of a hit, on any cache *)

(** The loop of [lru_update] writes recency fields only. *)
Lemma lru_update_loop_content k n : ∀ ls i ls',
  lru_update_loop ls k i n = Some ls' → content <$> ls' = content <$> ls.
Proof.
  induction n as [|n IH]; intros ls i ls'; simpl.
  - by intros [= <-].
  - destruct (ls !! i) as [li|] eqn:Hli; simpl; [|done].
    destruct (negb (valid li =? 0)); [|by apply IH].
    destruct (ls !! k) as [lk|]; simpl; [|done].
    destruct (lru li <? lru lk); [|by apply IH].
    intros H%IH. rewrite H, list_fmap_insert. apply list_insert_id.
    by rewrite list_lookup_fmap, Hli.
Qed.

Lemma lru_update_content c i k c' :
  lru_update c i k = Some c' →
  ∃ ls ls', set_lines c i = Some ls ∧ c' = with_lines c i ls' ∧
            content <$> ls' = content <$> ls.
Proof.
  unfold lru_update. intros H.
  destruct (set_lines c i) as [ls|]; simpl in H; [|done].
  destruct (lru_update_loop ls k 0 _) as [ls1|] eqn:Hloop; simpl in H; [|done].
  destruct (ls1 !! k) as [lk|] eqn:Hk; simpl in H; [|done].
  injection H as <-. apply lru_update_loop_content in Hloop.
  exists ls, (<[k := with_lru lk 0]> ls1). split_and!; [done..|].
  rewrite list_fmap_insert, <- Hloop. apply list_insert_id.
  by rewrite list_lookup_fmap, Hk.
Qed.

(** Which loop a result comes from shows in its outcome. *)
Lemma hit_loop_Some c i tg hit miss evs verb n : ∀ j r,
  hit_loop c i tg hit miss evs verb j n = Some (Some r) →
  ar_outcome r = Hit ∧ ∃ k, lru_update c i k = Some (ar_cache r).
Proof.
  induction n as [|n IH]; intros j r; simpl; [done|].
  destruct (set_lines c i) as [ls|]; simpl; [|done].
  destruct (ls !! j) as [lj|]; simpl; [|done].
  destruct (negb (valid lj =? 0) && (tag lj =? tg)); [|by apply IH].
  destruct (lru_update c i j) as [c'|] eqn:Hupd; simpl; [|done].
  intros [= <-]. simpl. eauto.
Qed.

Lemma fill_loop_Some c i tg hit miss evs verb n : ∀ j r,
  fill_loop c i tg hit miss evs verb j n = Some (Some r) →
  ar_outcome r = MissFill.
Proof.
  induction n as [|n IH]; intros j r; simpl; [done|].
  destruct (set_lines c i) as [ls|]; simpl; [|done].
  destruct (ls !! j) as [lj|]; simpl; [|done].
  destruct (valid lj =? 0); [|by apply IH].
  destruct (lru_update _ i j) as [c'|]; simpl; [|done].
  by intros [= <-].
Qed.

Lemma evict_Some c i tg hit miss evs verb r :
  evict c i tg hit miss evs verb = Some r → ar_outcome r = MissEvict.
Proof.
  unfold evict. intros H.
  destruct (find_lru c i) as [k|]; simpl in H; [|done].
  destruct (set_lines c i) as [ls|]; simpl in H; [|done].
  destruct (ls !! k) as [lk|]; simpl in H; [|done].
  destruct (lru_update _ i k) as [c'|]; simpl in H; [|done].
  by injection H as <-.
Qed.

Lemma access_set_hit c i tg hit miss evs verb r :
  access_set c i tg hit miss evs verb = Some r → ar_outcome r = Hit →
  ∃ k, lru_update c i k = Some (ar_cache r).
Proof.
  unfold access_set. intros H Hout.
  destruct (hit_loop _ _ _ _ _ _ _ _ _) as [[r1|]|] eqn:H1; simpl in H; [| |done].
  { injection H as ->. by apply hit_loop_Some in H1 as [_ ?]. }
  destruct (fill_loop _ _ _ _ _ _ _ _ _) as [[r2|]|] eqn:H2; simpl in H; [| |done].
  { injection H as ->. apply fill_loop_Some in H2. congruence. }
  apply evict_Some in H. congruence.
Qed.

(** C10. On any cache, when [access_cache] returns [Hit], the parameters and
    the number of sets are unchanged, every set keeps the valid bit and the
    tag of each of its lines, and every set other than the target set is
    unchanged altogether: recency fields of the target set are all that can
    differ. *)
Theorem C10_hit_frame c a hit miss evs verb r :
  access_cache c a hit miss evs verb = Some r →
  ar_outcome r = Hit →
  c_s (ar_cache r) = c_s c ∧ c_E (ar_cache r) = c_E c ∧
  c_b (ar_cache r) = c_b c ∧ c_S (ar_cache r) = c_S c ∧
  length (c_sets (ar_cache r)) = length (c_sets c) ∧
  ∃ si, set_index c a = Some si ∧
    ∀ j st, c_sets c !! j = Some st →
      ∃ st', c_sets (ar_cache r) !! j = Some st' ∧
             valid <$> lines st' = valid <$> lines st ∧
             tag <$> lines st' = tag <$> lines st ∧
             (j ≠ Z.to_nat si → st' = st).
Proof.
  unfold access_cache. intros Hacc Hout.
  destruct (set_index c a) as [si|]; simpl in Hacc; [|done].
  destruct (block_tag c a) as [tg|]; simpl in Hacc; [|done].
  destruct (access_set_hit _ _ _ _ _ _ _ _ Hacc Hout) as (k & Hupd).
  apply lru_update_content in Hupd as (ls & ls' & Hls & -> & Hcontent).
  simpl. split_and!; try done.
  { by rewrite length_insert. }
  exists si. split; [done|]. intros j st Hst.
  destruct (decide (j = Z.to_nat si)) as [->|Hne].
  - exists (mkset ls'). apply set_lines_Some in Hls.
    assert (st = mkset ls) as -> by congruence. simpl.
    split_and!; [|..|done].
    + apply list_lookup_insert_eq. by eapply lookup_lt_Some.
    + change valid with (fst ∘ content). by rewrite !list_fmap_compose, Hcontent.
    + change tag with (snd ∘ content). by rewrite !list_fmap_compose, Hcontent.
  - exists st. split_and!; try done. by rewrite list_lookup_insert_ne.
Qed.

Lemma C10_hit_frame_witness :
  access_cache cache_ranked 0 0 2 0 0
  = Some (mkresult
            (mkcache [mkset [mkline 1 0 0; mkline 1 1 1]; mkset (fresh_lines 2)] 1 2 1 2)
            1 2 0 [] Hit) ∧
  ∃ si, set_index cache_ranked 0 = Some si ∧
    ∀ j st, c_sets cache_ranked !! j = Some st →
      ∃ st', [mkset [mkline 1 0 0; mkline 1 1 1]; mkset (fresh_lines 2)] !! j = Some st' ∧
             valid <$> lines st' = valid <$> lines st ∧
             tag <$> lines st' = tag <$> lines st ∧
             (j ≠ Z.to_nat si → st' = st).
Proof.
  split; [reflexivity|].
  apply (C10_hit_frame cache_ranked 0 0 2 0 0 _ eq_refl eq_refl).
Defined.

(** ** Recency ranks and the LRU law *)

(** On a reachable cache every line has recency 0. *)
Lemma reachable_young c i ls l :
  reachable c → set_lines c i = Some ls → l ∈ ls → lru l = 0.
Proof.
  intros Hinv%reachable_inv Hls%set_lines_Some Hl.
  pose proof (Forall_lookup_1 _ _ _ _ (inv_young c Hinv) Hls) as Hy.
  simpl in Hy. by apply (proj1 (Forall_forall _ _) Hy).
Qed.

Lemma recency_invariant_two_zeros t1 t2 :
  ¬ recency_invariant [mkline 1 t1 0; mkline 1 t2 0].
Proof.
  intros [Hnodup _]. unfold valid_recencies in Hnodup. simpl in Hnodup.
  apply NoDup_cons in Hnodup as [Hnotin _]. apply Hnotin. by left.
Qed.

(** On a reachable cache the recency invariant of the specification holds
    for a set exactly when the set has at most one valid line. *)
Lemma recency_invariant_reachable c i ls :
  reachable c → set_lines c i = Some ls →
  recency_invariant ls ↔ (length (valid_recencies ls) <= 1)%nat.
Proof.
  intros Hreach Hls.
  assert (∀ r, r ∈ valid_recencies ls → r = 0) as Hzero.
  { intros r (l & -> & Hl)%list_elem_of_fmap.
    apply list_elem_of_filter in Hl as [_ Hl]. by eapply reachable_young. }
  split.
  - intros [_ Hran].
    destruct (decide (length (valid_recencies ls) <= 1)%nat) as [|Hlen]; [done|].
    assert (1 ∈ valid_recencies ls) as H1 by (apply Hran; lia).
    apply Hzero in H1. lia.
  - intros Hlen. unfold recency_invariant.
    destruct (valid_recencies ls) as [|r0 [|r1 rs]].
    + split; [constructor|]. intros r. simpl. split; [by intros ?%elem_of_nil | lia].
    + assert (r0 = 0) as -> by (apply Hzero; by left).
      split; [apply NoDup_singleton|]. intros r. simpl.
      rewrite list_elem_of_singleton. lia.
    + simpl in Hlen. lia.
Qed.




(** C1 fails on the code.  With [s = 1], [E = 2], [b = 1] the loads of
    addresses 0 and 4 fill the two lines of set 0, and both valid lines have
    recency 0: the recency values are not pairwise different. *)
Theorem C1_fills_share_recency :
  simulate 1 2 1 0 [load 0; load 4] = Some (mksim cache_AB 0 2 0 []) ∧
  reachable cache_AB ∧
  set_lines cache_AB 0 = Some [mkline 1 0 0; mkline 1 1 0] ∧
  ¬ recency_invariant [mkline 1 0 0; mkline 1 1 0].
Proof.
  split; [reflexivity|]. split; [apply reachable_cache_AB|].
  split; [reflexivity|]. apply recency_invariant_two_zeros.
Qed.

(** C2 fails on the code.  With [s = 1], [E = 2], [b = 1] the addresses
    0, 4, 0, 8 fall into set 0 with the tags 0, 1, 0, 2.  After the first
    three (miss, miss, hit) the set holds tag 0 in line 0 and tag 1 in
    line 1; the access of tag 2 is an eviction that overwrites line 0, so it
    is tag 0, the one touched last, that leaves the cache, and tag 1
    stays. *)
Theorem C2_eviction_takes_A :
  simulate 1 2 1 0 [load 0; load 4; load 0] = Some (mksim cache_AB 1 2 0 []) ∧
  find_lru cache_AB 0 = Some 0%nat ∧
  access_cache cache_AB 8 1 2 0 0 = Some (mkresult cache_CB 1 3 1 [] MissEvict) ∧
  set_lines cache_CB 0 = Some [mkline 1 2 0; mkline 1 1 0] ∧
  simulate 1 2 1 1 [load 0; load 4; load 0; load 8; load 0]
  = Some (mksim
            (mkcache [mkset [mkline 1 0 0; mkline 1 1 0]; mkset (fresh_lines 2)] 1 2 1 2)
            1 4 2
            [Header "L" 0 1; Text "miss "; Newline;
             Header "L" 4 1; Text "miss "; Newline;
             Header "L" 0 1; Text "hit "; Newline;
             Header "L" 8 1; Text "miss eviction "; Newline;
             Header "L" 0 1; Text "miss eviction "; Newline]).
Proof. repeat split; reflexivity. Qed.

(** ** The argument check of [main] *)

Lemma main_rejects_iff h argv1 s E b t :
  main_rejects h argv1 s E b t = true
  ↔ h = 1 ∨ argv1 = None ∨ s = 0 ∨ E = 0 ∨ b = 0 ∨ t = None.
Proof.
  unfold main_rejects. rewrite !orb_true_iff, !bool_decide_eq_true, !Z.eqb_eq.
  tauto.
Qed.

(** Once the options are read, [main] sends a run to the usage text exactly
    when the help flag is set, there is no argument, no trace file is named,
    or one of [s], [E], [b] is 0; with [1 <= s <= 30], [E >= 1] and [b] not 0
    the cache is built whenever the allocations succeed. *)
Lemma main_startup_check malloc_ok h argv1 s E b t :
  (main_startup malloc_ok h argv1 s E b t = Some PrintUsage
   ↔ h = 1 ∨ argv1 = None ∨ s = 0 ∨ E = 0 ∨ b = 0 ∨ t = None) ∧
  (h ≠ 1 → argv1 ≠ None → t ≠ None →
   1 <= s <= 30 → 1 <= E → b ≠ 0 →
   (∀ k n, malloc_ok k n = true) →
   main_startup malloc_ok h argv1 s E b t
   = Some (CacheCreated (fresh_cache s E b))).
Proof.
  split.
  - rewrite <- main_rejects_iff. unfold main_startup.
    destruct (main_rejects h argv1 s E b t); [done|].
    split; [|done]. destruct (makecache malloc_ok s E b) as [[c|]|]; done.
  - intros Hh Hargv Ht Hs HE Hb Hok. unfold main_startup.
    destruct (main_rejects h argv1 s E b t) eqn:Hrej.
    + apply main_rejects_iff in Hrej.
      destruct Hrej as [?|[?|[?|[?|[?|?]]]]]; (done || lia).
    + by rewrite makecache_always by (done || lia).
Qed.

(** C4 as the specification words it: [s = 1], [E = 1], [b = 64] has
    [s + b > 64] and is built all the same; [s = 0], [E = 1], [b = 0] is
    within the stated bounds and is sent to the usage text. *)
Lemma C4_counterexample :
  (1 + 64 > 64 ∧
   main_startup malloc_always 0 (Some "-s") 1 1 64 (Some "yi.trace")
   = Some (CacheCreated (fresh_cache 1 1 64))) ∧
  ((0 <= 0 ∧ 0 <= 0 ∧ 1 <= 1 ∧ 0 + 0 <= 64) ∧
   main_startup malloc_always 0 (Some "-s") 0 1 0 (Some "yi.trace")
   = Some PrintUsage).
Proof. split; (split; [lia | reflexivity]). Qed.

(** * Further properties of the code *)

(** ** The sets of a reachable cache *)

Lemma set_lines_with_lines_ne c i j ls :
  i ≠ j → set_lines (with_lines c i ls) j = set_lines c j.
Proof.
  intros Hne. unfold set_lines, with_lines. simpl.
  by rewrite list_lookup_insert_ne.
Qed.

Lemma set_lines_fresh s E b i ls :
  set_lines (fresh_cache s E b) i = Some ls → ls = fresh_lines E.
Proof.
  intros H%set_lines_Some. simpl in H.
  apply lookup_replicate in H as [H _]. by injection H.
Qed.

(** To show that the lines of every set of every reachable cache satisfy
    [P], show it for the lines [makecache] builds and show that each of the
    three cases of an access keeps it. *)
Lemma reachable_sets_ind (P : list line → Prop) :
  (∀ E, P (fresh_lines E)) →
  (∀ tg ls o ls', young ls → P ls → access_case tg ls o ls' → P ls') →
  ∀ c, reachable c → ∀ i ls, set_lines c i = Some ls → P ls.
Proof.
  intros Hfresh Hstep c Hreach.
  induction Hreach as [malloc_ok s E b c Hcfg Hmk | c a hit miss evs verb r Hreach IH _ Hacc];
    intros i ls Hls.
  - apply makecache_Some in Hmk as [_ ->].
    apply set_lines_fresh in Hls as ->. apply Hfresh.
  - pose proof (reachable_inv c Hreach) as Hinv.
    destruct (access_cache_cases c a hit miss evs verb Hinv)
      as (ls0 & r' & Hls0 & Hy & _ & Hacc' & ls' & Hcase & Hc & _).
    assert (r' = r) as -> by congruence.
    rewrite Hc in Hls.
    destruct (decide (target c a = i)) as [<-|Hne].
    + rewrite set_lines_with_lines in Hls by by apply target_lt.
      injection Hls as <-. eapply Hstep; [done | by eapply IH | done].
    + rewrite set_lines_with_lines_ne in Hls by done. by eapply IH.
Qed.

Lemma access_case_distinct_tags tg ls o ls' :
  distinct_tags ls → access_case tg ls o ls' → distinct_tags ls'.
Proof.
  intros Hd. destruct 1 as [Hex | k lk Hno (Hk & _) | l0 Hno Hfull Hl0]; [done|..].
  - intros i j li lj Hi Hj Hvi Hvj Htag.
    apply list_lookup_insert_Some in Hi as [(-> & <- & _)|[Hik Hi]];
      apply list_lookup_insert_Some in Hj as [(-> & <- & _)|[Hjk Hj]];
      simpl in *; [done|..].
    + destruct Hno. apply Exists_exists. exists lj.
      split; [by eapply list_elem_of_lookup_2 | done].
    + destruct Hno. apply Exists_exists. exists li.
      split; [by eapply list_elem_of_lookup_2 | done].
    + by eapply Hd.
  - intros i j li lj Hi Hj Hvi Hvj Htag.
    apply list_lookup_insert_Some in Hi as [(<- & <- & _)|[Hik Hi]];
      apply list_lookup_insert_Some in Hj as [(<- & <- & _)|[Hjk Hj]];
      simpl in *; [done|..].
    + destruct Hno. apply Exists_exists. exists lj.
      split; [by eapply list_elem_of_lookup_2 | done].
    + destruct Hno. apply Exists_exists. exists li.
      split; [by eapply list_elem_of_lookup_2 | done].
    + by eapply Hd.
Qed.

(** X1. In every set of every reachable cache the valid lines hold pairwise
    different tags: no block is cached twice. *)
Theorem X1_no_block_cached_twice c i ls :
  reachable c → set_lines c i = Some ls → distinct_tags ls.
Proof.
  intros Hreach Hls.
  apply (reachable_sets_ind distinct_tags) with (c := c) (i := i); try done.
  - intros E j k lj lk Hj _ Hv. apply lookup_replicate in Hj as [-> _]. done.
  - intros tg ls0 o ls' _. apply access_case_distinct_tags.
Qed.

Lemma X1_no_block_cached_twice_witness :
  reachable cache_AB ∧ set_lines cache_AB 0 = Some [mkline 1 0 0; mkline 1 1 0] ∧
  distinct_tags [mkline 1 0 0; mkline 1 1 0].
Proof.
  split; [apply reachable_cache_AB|]. split; [reflexivity|].
  apply (X1_no_block_cached_twice cache_AB 0 _ reachable_cache_AB eq_refl).
Defined.

Lemma access_case_filled_prefix tg ls o ls' n :
  filled_prefix ls n → access_case tg ls o ls' →
  ∃ n', filled_prefix ls' n' ∧ (n <= n')%nat.
Proof.
  intros [Hbefore Hafter].
  destruct 1 as [Hex | k lk Hno (Hk & Hv & Hfirst) | l0 Hno Hfull Hl0].
  - by exists n.
  - assert (k = n) as ->.
    { destruct (decide (k < n)%nat) as [Hlt|Hge].
      { pose proof (Hbefore _ _ Hk Hlt). lia. }
      destruct (decide (n < k)%nat) as [Hlt|?]; [|lia].
      destruct (lookup_lt_is_Some_2 ls n) as [ln Hn].
      { apply lookup_lt_Some in Hk. lia. }
      pose proof (Hafter _ _ Hn (le_n _)) as ->.
      by destruct (Hfirst _ _ Hn Hlt). }
    exists (S n). split; [|lia]. split; intros j l Hj Hjn.
    + apply list_lookup_insert_Some in Hj as [(<- & <- & _)|[Hne Hj]]; [done|].
      apply (Hbefore _ _ Hj). lia.
    + apply list_lookup_insert_Some in Hj as [(<- & _)|[Hne Hj]]; [lia|].
      apply (Hafter _ _ Hj). lia.
  - exists n. split; [|lia].
    assert (0 < n)%nat as Hn.
    { destruct (decide (0 < n)%nat) as [|Hn]; [done|].
      pose proof (Hafter _ _ Hl0 ltac:(lia)) as ->.
      by apply (Forall_lookup_1 _ _ _ _ Hfull) in Hl0. }
    split; intros j l Hj Hjn.
    + apply list_lookup_insert_Some in Hj as [(<- & <- & _)|[Hne Hj]].
      * simpl. by apply (Hbefore _ _ Hl0).
      * by apply (Hbefore _ _ Hj).
    + apply list_lookup_insert_Some in Hj as [(<- & _)|[Hne Hj]]; [lia|].
      by apply (Hafter _ _ Hj).
Qed.

(** X2. In every set of every reachable cache the valid lines are a prefix
    of the set: for some [n], the lines before index [n] have valid bit 1
    and the lines from index [n] on are untouched since [makecache] (valid
    bit 0, tag 0, recency 0). *)
Theorem X2_valid_lines_are_a_prefix c i ls :
  reachable c → set_lines c i = Some ls → ∃ n, filled_prefix ls n.
Proof.
  intros Hreach Hls.
  apply (reachable_sets_ind (λ ls, ∃ n, filled_prefix ls n)) with (c := c) (i := i);
    try done.
  - intros E. exists 0%nat. split; intros j l Hj Hjn; [lia|].
    by apply lookup_replicate in Hj as [-> _].
  - intros tg ls0 o ls' _ [n Hn] Hcase.
    destruct (access_case_filled_prefix _ _ _ _ _ Hn Hcase) as (n' & Hn' & _).
    by exists n'.
Qed.

Lemma X2_valid_lines_are_a_prefix_witness :
  reachable cache_A ∧ set_lines cache_A 0 = Some [mkline 1 0 0; fresh_line] ∧
  ∃ n, filled_prefix [mkline 1 0 0; fresh_line] n.
Proof.
  split; [apply reachable_cache_A|]. split; [reflexivity|].
  apply (X2_valid_lines_are_a_prefix cache_A 0 _ reachable_cache_A eq_refl).
Defined.

Lemma access_case_keeps tg ls o ls' k l :
  access_case tg ls o ls' → ls !! k = Some l → valid l ≠ 0 →
  ∃ l', ls' !! k = Some l' ∧ valid l' = valid l ∧
        (k ≠ 0%nat → tag l' = tag l).
Proof.
  destruct 1 as [Hex | k0 lk Hno (Hk0 & Hv & _) | l0 Hno Hfull Hl0]; intros Hk Hvalid.
  - by exists l.
  - exists l. split; [|done]. rewrite list_lookup_insert_ne; [done|].
    intros ->. congruence.
  - destruct (decide (k = 0%nat)) as [->|Hne].
    + exists (mkline (valid l0) tg 0). split_and!; [|simpl; congruence|done].
      apply list_lookup_insert_eq. by eapply lookup_lt_Some.
    + exists l. split; [|done]. by rewrite list_lookup_insert_ne.
Qed.

(** X3. Along a run from a reachable cache a valid line stays valid, and a
    valid line other than line 0 of its set keeps its tag for good: the only
    line of a set that is ever evicted is line 0. *)
Theorem X3_only_line_0_is_evicted c0 c i ls k l :
  reachable c0 → run_from c0 c →
  set_lines c0 i = Some ls → ls !! k = Some l → valid l ≠ 0 →
  ∃ ls' l', set_lines c i = Some ls' ∧ ls' !! k = Some l' ∧
            valid l' = valid l ∧ (k ≠ 0%nat → tag l' = tag l).
Proof.
  intros Hreach Hrun Hls Hk Hv.
  induction Hrun as [|c a hit miss evs verb r Hrun (ls1 & l1 & Hls1 & Hk1 & Hv1 & Ht1) _ Hacc].
  { by exists ls, l. }
  pose proof (reachable_inv _ Hreach) as Hinv0.
  destruct (run_from_params _ _ Hinv0 Hrun) as (Hinv & _).
  destruct (access_cache_cases c a hit miss evs verb Hinv)
    as (ls0 & r' & Hls0 & _ & _ & Hacc' & ls' & Hcase & Hc & _).
  assert (r' = r) as -> by congruence. rewrite Hc.
  destruct (decide (target c a = i)) as [<-|Hne].
  - assert (ls0 = ls1) as -> by congruence.
    destruct (access_case_keeps _ _ _ _ _ _ Hcase Hk1) as (l' & Hk' & Hv' & Ht');
      [congruence|].
    exists ls', l'. rewrite set_lines_with_lines by by apply target_lt.
    split_and!; [done | done | congruence |]. intros Hk0. rewrite Ht' by done. auto.
  - exists ls1, l1. by rewrite set_lines_with_lines_ne.
Qed.

Lemma X3_only_line_0_is_evicted_witness :
  reachable cache_AB ∧ run_from cache_AB cache_CB ∧
  set_lines cache_AB 0 = Some [mkline 1 0 0; mkline 1 1 0] ∧
  [mkline 1 0 0; mkline 1 1 0] !! 1%nat = Some (mkline 1 1 0) ∧
  ∃ ls' l', set_lines cache_CB 0 = Some ls' ∧ ls' !! 1%nat = Some l' ∧
            valid l' = 1 ∧ (1%nat ≠ 0%nat → tag l' = 1).
Proof.
  assert (run_from cache_AB cache_CB) as Hrun.
  { change cache_CB with (ar_cache (mkresult cache_CB 0 1 1 [] MissEvict)).
    apply (run_access _ cache_AB 8 0 0 0 0);
      [apply run_start | apply is_ulong_small; lia | reflexivity]. }
  split; [apply reachable_cache_AB|]. split; [exact Hrun|].
  split; [reflexivity|]. split; [reflexivity|].
  apply (X3_only_line_0_is_evicted cache_AB cache_CB 0 _ 1 (mkline 1 1 0)
           reachable_cache_AB Hrun eq_refl eq_refl).
  simpl. lia.
Defined.

(** ** Properties of [access_cache] on any cache *)

Lemma fill_loop_inv c i tg hit miss evs verb n : ∀ j r,
  fill_loop c i tg hit miss evs verb j n = Some (Some r) →
  ∃ ls k lk, set_lines c i = Some ls ∧ ls !! k = Some lk ∧
    lru_update (with_lines c i (<[k := with_tag (with_valid lk 1) tg]> ls)) i k
    = Some (ar_cache r).
Proof.
  induction n as [|n IH]; intros j r; simpl; [done|].
  destruct (set_lines c i) as [ls|] eqn:Hls; simpl; [|done].
  destruct (ls !! j) as [lj|] eqn:Hj; simpl; [|done].
  destruct (valid lj =? 0); [|by apply IH].
  destruct (lru_update _ i j) as [c'|] eqn:Hupd; simpl; [|done].
  intros [= <-]. simpl. by exists ls, j, lj.
Qed.

Lemma evict_inv c i tg hit miss evs verb r :
  evict c i tg hit miss evs verb = Some r →
  ∃ ls k lk, set_lines c i = Some ls ∧ ls !! k = Some lk ∧
    lru_update (with_lines c i (<[k := with_tag lk tg]> ls)) i k = Some (ar_cache r).
Proof.
  unfold evict. intros H.
  destruct (find_lru c i) as [k|]; simpl in H; [|done].
  destruct (set_lines c i) as [ls|]; simpl in H; [|done].
  destruct (ls !! k) as [lk|] eqn:Hk; simpl in H; [|done].
  destruct (lru_update _ i k) as [c'|] eqn:Hupd; simpl in H; [|done].
  injection H as <-. simpl. by exists ls, k, lk.
Qed.

(** A line written, then [lru_update]: the lines of the set keep their
    number, and only line [k] can differ in valid bit or tag. *)
Lemma write_then_update c i ls k new c' :
  set_lines c i = Some ls →
  lru_update (with_lines c i (<[k := new]> ls)) i k = Some c' →
  ∃ ls', c' = with_lines c i ls' ∧ length ls' = length ls ∧
         ∀ j, j ≠ k → (content <$> ls') !! j = (content <$> ls) !! j.
Proof.
  intros Hls Hupd.
  apply lru_update_content in Hupd as (ls1 & ls' & Hls1 & -> & Hcontent).
  rewrite set_lines_with_lines in Hls1.
  2:{ apply set_lines_Some in Hls. by eapply lookup_lt_Some. }
  injection Hls1 as <-. exists ls'. rewrite with_lines_twice.
  split_and!; [done|..].
  - by rewrite <- (length_fmap content ls'), Hcontent, length_fmap, length_insert.
  - intros j Hj. by rewrite Hcontent, list_fmap_insert, list_lookup_insert_ne.
Qed.

(** X4. Whatever the state of the cache, a call of [access_cache] that is
    defined changes nothing but the lines of the target set: the parameters
    and every other set are as before, the target set keeps its number of
    lines, and at most one of its lines gets another valid bit or tag. *)
Theorem X4_access_touches_one_line c a hit miss evs verb r :
  access_cache c a hit miss evs verb = Some r →
  ∃ si ls ls' k,
    set_index c a = Some si ∧
    set_lines c (Z.to_nat si) = Some ls ∧
    ar_cache r = with_lines c (Z.to_nat si) ls' ∧
    length ls' = length ls ∧
    ∀ j, j ≠ k → (content <$> ls') !! j = (content <$> ls) !! j.
Proof.
  unfold access_cache. intros Hacc.
  destruct (set_index c a) as [si|]; simpl in Hacc; [|done].
  destruct (block_tag c a) as [tg|]; simpl in Hacc; [|done].
  exists si. unfold access_set in Hacc.
  destruct (hit_loop _ _ _ _ _ _ _ _ _) as [[r1|]|] eqn:H1; simpl in Hacc; [| |done].
  { injection Hacc as ->. apply hit_loop_Some in H1 as [_ [k Hupd]].
    apply lru_update_content in Hupd as (ls & ls' & Hls & Hc & Hcontent).
    exists ls, ls', k. split_and!; try done.
    - by rewrite <- (length_fmap content ls'), Hcontent, length_fmap.
    - intros j _. by rewrite Hcontent. }
  destruct (fill_loop _ _ _ _ _ _ _ _ _) as [[r2|]|] eqn:H2; simpl in Hacc; [| |done].
  { injection Hacc as ->. apply fill_loop_inv in H2 as (ls & k & lk & Hls & Hk & Hupd).
    destruct (write_then_update _ _ _ _ _ _ Hls Hupd) as (ls' & Hc & Hlen & Hother).
    by exists ls, ls', k. }
  apply evict_inv in Hacc as (ls & k & lk & Hls & Hk & Hupd).
  destruct (write_then_update _ _ _ _ _ _ Hls Hupd) as (ls' & Hc & Hlen & Hother).
  by exists ls, ls', k.
Qed.

Lemma X4_access_touches_one_line_witness :
  access_cache cache_ranked 8 0 0 0 0
  = Some (mkresult
            (mkcache [mkset [mkline 1 2 0; mkline 1 1 1]; mkset (fresh_lines 2)] 1 2 1 2)
            0 1 1 [] MissEvict) ∧
  ∃ si ls ls' k,
    set_index cache_ranked 8 = Some si ∧
    set_lines cache_ranked (Z.to_nat si) = Some ls ∧
    mkcache [mkset [mkline 1 2 0; mkline 1 1 1]; mkset (fresh_lines 2)] 1 2 1 2
    = with_lines cache_ranked (Z.to_nat si) ls' ∧
    length ls' = length ls ∧
    ∀ j, j ≠ k → (content <$> ls') !! j = (content <$> ls) !! j.
Proof.
  split; [reflexivity|].
  apply (X4_access_touches_one_line cache_ranked 8 0 0 0 0 _ eq_refl).
Defined.

Lemma hit_loop_relabel c i tg hit miss evs verb hit0 miss0 evs0 verb0 n : ∀ j,
  hit_loop c i tg hit miss evs verb j n
  = (λ o : option access_result, relabel hit miss evs verb <$> o)
    <$> hit_loop c i tg hit0 miss0 evs0 verb0 j n.
Proof.
  induction n as [|n IH]; intros j; simpl; [done|].
  destruct (set_lines c i) as [ls|]; simpl; [|done].
  destruct (ls !! j) as [lj|]; simpl; [|done].
  destruct (negb (valid lj =? 0) && (tag lj =? tg)); [|by apply IH].
  by destruct (lru_update c i j).
Qed.

Lemma fill_loop_relabel c i tg hit miss evs verb hit0 miss0 evs0 verb0 n : ∀ j,
  fill_loop c i tg hit miss evs verb j n
  = (λ o : option access_result, relabel hit miss evs verb <$> o)
    <$> fill_loop c i tg hit0 miss0 evs0 verb0 j n.
Proof.
  induction n as [|n IH]; intros j; simpl; [done|].
  destruct (set_lines c i) as [ls|]; simpl; [|done].
  destruct (ls !! j) as [lj|]; simpl; [|done].
  destruct (valid lj =? 0); [|by apply IH].
  by destruct (lru_update _ i j).
Qed.

Lemma evict_relabel c i tg hit miss evs verb hit0 miss0 evs0 verb0 :
  evict c i tg hit miss evs verb
  = relabel hit miss evs verb <$> evict c i tg hit0 miss0 evs0 verb0.
Proof.
  unfold evict.
  destruct (find_lru c i) as [k|]; simpl; [|done].
  destruct (set_lines c i) as [ls|]; simpl; [|done].
  destruct (ls !! k) as [lk|]; simpl; [|done].
  by destruct (lru_update _ i k).
Qed.

Lemma access_cache_relabel c a hit miss evs verb hit0 miss0 evs0 verb0 :
  access_cache c a hit miss evs verb
  = relabel hit miss evs verb <$> access_cache c a hit0 miss0 evs0 verb0.
Proof.
  unfold access_cache.
  destruct (set_index c a) as [si|]; simpl; [|done].
  destruct (block_tag c a) as [tg|]; simpl; [|done].
  unfold access_set.
  rewrite (hit_loop_relabel c _ tg hit miss evs verb hit0 miss0 evs0 verb0).
  destruct (hit_loop c _ tg hit0 miss0 evs0 verb0 _ _) as [[r1|]|]; simpl; [done| |done].
  rewrite (fill_loop_relabel c _ tg hit miss evs verb hit0 miss0 evs0 verb0).
  destruct (fill_loop c _ tg hit0 miss0 evs0 verb0 _ _) as [[r2|]|]; simpl; [done| |done].
  apply evict_relabel.
Qed.

(** X5. Whatever the state of the cache, the counters and the verbose flag
    passed to [access_cache] decide neither whether the call is defined, nor
    the cache it leaves, nor its outcome.  The hit counter is incremented
    exactly when the outcome is [Hit], the miss counter exactly when it is
    not, the eviction counter exactly when it is [MissEvict], and the text
    printed is that of the outcome when the flag is 1 and nothing
    otherwise. *)
Theorem X5_counters_follow_the_outcome c a hit miss evs verb hit0 miss0 evs0 verb0 r0 :
  access_cache c a hit0 miss0 evs0 verb0 = Some r0 →
  ∃ r, access_cache c a hit miss evs verb = Some r ∧
       ar_cache r = ar_cache r0 ∧ ar_outcome r = ar_outcome r0 ∧
       ar_hit r = (if decide (ar_outcome r = Hit) then wrap_int (hit + 1) else hit) ∧
       ar_miss r = (if decide (ar_outcome r = Hit) then miss else wrap_int (miss + 1)) ∧
       ar_evictions r
       = (if decide (ar_outcome r = MissEvict) then wrap_int (evs + 1) else evs) ∧
       ar_printed r
       = (if decide (verb = 1) then [outcome_text (ar_outcome r)] else []).
Proof.
  intros H0.
  rewrite (access_cache_relabel c a hit miss evs verb hit0 miss0 evs0 verb0), H0.
  simpl. eexists. split; [done|]. simpl. split_and!; try done.
  - unfold bump, is_hit. by destruct (ar_outcome r0).
  - unfold bump, is_hit. by destruct (ar_outcome r0).
  - unfold bump, is_evict. by destruct (ar_outcome r0).
  - unfold print_if. destruct (Z.eqb_spec verb 1).
    + by rewrite decide_True.
    + by rewrite decide_False.
Qed.

Lemma X5_counters_follow_the_outcome_witness :
  access_cache cache_ranked 8 0 0 0 0
  = Some (mkresult
            (mkcache [mkset [mkline 1 2 0; mkline 1 1 1]; mkset (fresh_lines 2)] 1 2 1 2)
            0 1 1 [] MissEvict) ∧
  ∃ r, access_cache cache_ranked 8 5 7 3 1 = Some r ∧
       ar_outcome r = MissEvict ∧
       ar_hit r = (if decide (ar_outcome r = Hit) then wrap_int (5 + 1) else 5) ∧
       ar_miss r = (if decide (ar_outcome r = Hit) then 7 else wrap_int (7 + 1)).
Proof.
  split; [reflexivity|].
  destruct (X5_counters_follow_the_outcome cache_ranked 8 5 7 3 1 0 0 0 0 _ eq_refl)
    as (r & Hacc & _ & Hout & Hhit & Hmiss & _).
  exists r. split; [exact Hacc | split; [exact Hout | split; [exact Hhit | exact Hmiss]]].
Defined.

(** ** The first access, and accesses to different sets *)

Lemma no_match_fresh tg E : ¬ Exists (is_match tg) (fresh_lines E).
Proof.
  intros (l & Hl & Hv & _)%Exists_exists.
  apply list_elem_of_lookup in Hl as [j Hj].
  by apply lookup_replicate in Hj as [-> _].
Qed.

(** X6. On a cache as [makecache] returns it, built from valid parameters,
    the first access misses whatever the address: its outcome is [MissFill],
    it takes line 0 of the set of the address and changes nothing else. *)
Theorem X6_first_access_fills_line_0 malloc_ok s E b c a hit miss evs verb :
  valid_config s E b →
  makecache malloc_ok s E b = Some (Some c) →
  ∃ si tg r,
    set_index c a = Some si ∧ block_tag c a = Some tg ∧
    access_cache c a hit miss evs verb = Some r ∧
    ar_outcome r = MissFill ∧
    ar_cache r = with_lines c (Z.to_nat si) (<[0%nat := mkline 1 tg 0]> (fresh_lines E)).
Proof.
  intros Hcfg Hmk.
  pose proof (reachable_inv _ (reachable_fresh _ _ _ _ _ Hcfg Hmk)) as Hinv.
  apply makecache_Some in Hmk as [Hs ->].
  destruct (access_cache_cases _ a hit miss evs verb Hinv)
    as (ls & r & Hls & _ & _ & Hacc & ls' & Hcase & Hc & _).
  apply set_lines_fresh in Hls as ->.
  exists (spec_set_index (fresh_cache s E b) a), (spec_tag (fresh_cache s E b) a), r.
  fold (target (fresh_cache s E b) a).
  assert (first_free (fresh_lines E) 0 fresh_line) as Hfree.
  { split_and!; [|done|intros; lia].
    apply lookup_replicate_2. destruct Hcfg as (_ & HE & _). lia. }
  apply (access_case_fill _ _ _ _ _ _ (no_match_fresh _ _) Hfree) in Hcase as [Hout ->].
  split_and!; try done.
  - by apply set_index_inv.
  - by apply block_tag_inv.
Qed.

Lemma X6_first_access_fills_line_0_witness :
  valid_config 1 2 1 ∧
  makecache malloc_always 1 2 1 = Some (Some (fresh_cache 1 2 1)) ∧
  ∃ si tg r,
    set_index (fresh_cache 1 2 1) 6 = Some si ∧
    block_tag (fresh_cache 1 2 1) 6 = Some tg ∧
    access_cache (fresh_cache 1 2 1) 6 0 0 0 0 = Some r ∧
    ar_outcome r = MissFill ∧
    ar_cache r = with_lines (fresh_cache 1 2 1) (Z.to_nat si)
                   (<[0%nat := mkline 1 tg 0]> (fresh_lines 2)).
Proof.
  split; [apply valid_config_121|]. split; [reflexivity|].
  apply (X6_first_access_fills_line_0 malloc_always 1 2 1 _ 6 0 0 0 0
           valid_config_121 eq_refl).
Defined.

Lemma with_lines_commute c i j ls ls' :
  i ≠ j →
  with_lines (with_lines c i ls) j ls' = with_lines (with_lines c j ls') i ls.
Proof.
  intros Hne. unfold with_lines. simpl. f_equal. by apply list_insert_insert_ne.
Qed.

(** One access, then another one to a different set, on a cache that
    satisfies the invariant. *)
Lemma access_then_other_set c a a' hit miss evs verb hit' miss' evs' verb' :
  cache_inv c → target c a ≠ target c a' →
  ∃ ls ls' r1 r2,
    set_lines c (target c a) = Some ls ∧ set_lines c (target c a') = Some ls' ∧
    access_cache c a hit miss evs verb = Some r1 ∧
    access_cache (ar_cache r1) a' hit' miss' evs' verb' = Some r2 ∧
    ar_outcome r1 = (access_lines (spec_tag c a) ls).1 ∧
    ar_outcome r2 = (access_lines (spec_tag c a') ls').1 ∧
    ar_cache r2 = with_lines
                    (with_lines c (target c a) (access_lines (spec_tag c a) ls).2)
                    (target c a') (access_lines (spec_tag c a') ls').2.
Proof.
  intros Hinv Hne.
  destruct (access_cache_inv c Hinv a hit miss evs verb) as (ls & Hls & Hy & Hlen & Hacc).
  destruct (inv_set_lines c Hinv _ (target_lt c Hinv a')) as (ls' & Hls' & _).
  set (r1 := access_model c (target c a) (spec_tag c a) ls hit miss evs verb) in *.
  assert (cache_inv (ar_cache r1)) as Hinv1 by by apply access_model_inv.
  destruct (access_cache_inv _ Hinv1 a' hit' miss' evs' verb')
    as (ls1 & Hls1 & _ & _ & Hacc1).
  assert (ar_cache r1 = with_lines c (target c a) (access_lines (spec_tag c a) ls).2)
    as Hc1 by apply access_model_cache.
  rewrite Hc1, target_with_lines in Hls1.
  rewrite set_lines_with_lines_ne in Hls1 by done.
  rewrite Hc1, target_with_lines, spec_tag_with_lines in Hacc1.
  assert (ls1 = ls') as -> by congruence.
  eexists ls, ls', r1, _. split_and!; [done | done | done | | | |].
  - by rewrite Hc1.
  - apply access_model_outcome.
  - apply access_model_outcome.
  - apply access_model_cache.
Qed.

(** X7. Accesses to different sets commute: on a reachable cache, two
    addresses that fall into different sets can be accessed in either order
    with the same two outcomes and the same final cache. *)
Theorem X7_accesses_to_different_sets_commute c a a' si si'
    hit miss evs verb hit' miss' evs' verb' :
  reachable c →
  set_index c a = Some si → set_index c a' = Some si' → si ≠ si' →
  ∃ r1 r2 r1' r2',
    access_cache c a hit miss evs verb = Some r1 ∧
    access_cache (ar_cache r1) a' hit' miss' evs' verb' = Some r2 ∧
    access_cache c a' hit' miss' evs' verb' = Some r1' ∧
    access_cache (ar_cache r1') a hit miss evs verb = Some r2' ∧
    ar_outcome r2' = ar_outcome r1 ∧
    ar_outcome r1' = ar_outcome r2 ∧
    ar_cache r2' = ar_cache r2.
Proof.
  intros Hinv%reachable_inv Hsi Hsi' Hne.
  rewrite set_index_inv in Hsi, Hsi' by done.
  injection Hsi as <-. injection Hsi' as <-.
  assert (target c a ≠ target c a') as Hne1.
  { unfold target. pose proof (spec_set_index_range c Hinv a).
    pose proof (spec_set_index_range c Hinv a'). lia. }
  destruct (access_then_other_set c a a' hit miss evs verb hit' miss' evs' verb' Hinv Hne1)
    as (ls & ls' & r1 & r2 & Hls & Hls' & H1 & H2 & Ho1 & Ho2 & Hc2).
  destruct (access_then_other_set c a' a hit' miss' evs' verb' hit miss evs verb Hinv
              (not_eq_sym Hne1))
    as (ls0' & ls0 & r1' & r2' & Hls0' & Hls0 & H1' & H2' & Ho1' & Ho2' & Hc2').
  assert (ls0 = ls) as -> by congruence. assert (ls0' = ls') as -> by congruence.
  exists r1, r2, r1', r2'. split_and!; try done; try congruence.
  rewrite Hc2, Hc2'. by apply with_lines_commute.
Qed.

Lemma X7_accesses_to_different_sets_commute_witness :
  reachable cache_AB ∧
  set_index cache_AB 8 = Some 0 ∧ set_index cache_AB 6 = Some 1 ∧ 0 ≠ 1 ∧
  ∃ r1 r2 r1' r2',
    access_cache cache_AB 8 0 0 0 0 = Some r1 ∧
    access_cache (ar_cache r1) 6 0 0 0 0 = Some r2 ∧
    access_cache cache_AB 6 0 0 0 0 = Some r1' ∧
    access_cache (ar_cache r1') 8 0 0 0 0 = Some r2' ∧
    ar_outcome r2' = ar_outcome r1 ∧
    ar_outcome r1' = ar_outcome r2 ∧
    ar_cache r2' = ar_cache r2.
Proof.
  split; [apply reachable_cache_AB|]. split; [reflexivity|]. split; [reflexivity|].
  split; [lia|].
  apply (X7_accesses_to_different_sets_commute cache_AB 8 6 0 1 0 0 0 0 0 0 0 0
           reachable_cache_AB eq_refl eq_refl).
  lia.
Defined.

(** ** [lru_update] and [find_lru] on any set *)

Lemma aged_self l : aged (lru l) l = l.
Proof. unfold aged. by rewrite Z.ltb_irrefl, andb_false_r. Qed.

(** The loop of [lru_update], iterations [i] to [i + n - 1]: each of these
    lines is aged against the recency of line [k], which the loop never
    changes. *)
Lemma lru_update_loop_spec k lk n : ∀ i cur,
  cur !! k = Some lk → (i + n <= length cur)%nat →
  lru_update_loop cur k i n
  = Some (take i cur ++ (aged (lru lk) <$> take n (drop i cur)) ++ drop (i + n) cur).
Proof.
  induction n as [|n IH]; intros i cur Hk Hin.
  - simpl. by rewrite Nat.add_0_r, take_drop.
  - destruct (lookup_lt_is_Some_2 cur i) as [li Hi]; [lia|].
    assert (lru_update_loop cur k i (S n)
            = lru_update_loop (<[i := aged (lru lk) li]> cur) k (S i) n) as ->.
    { simpl. rewrite Hi. simpl. unfold aged.
      destruct (negb (valid li =? 0)); simpl.
      - rewrite Hk. simpl. destruct (lru li <? lru lk); [done|].
        by rewrite list_insert_id.
      - by rewrite list_insert_id. }
    assert (<[i := aged (lru lk) li]> cur !! k = Some lk) as Hk'.
    { destruct (decide (i = k)) as [->|Hne].
      - assert (li = lk) as -> by congruence.
        by rewrite aged_self, list_insert_id.
      - by rewrite list_lookup_insert_ne. }
    rewrite (IH _ _ Hk') by (rewrite length_insert; lia).
    f_equal.
    rewrite (take_S_r _ i (aged (lru lk) li))
      by (apply list_lookup_insert_eq; lia).
    rewrite take_insert_ge, !drop_insert_lt by lia.
    rewrite (drop_S cur li i Hi). simpl.
    rewrite <- app_assoc. simpl. by rewrite Nat.add_succ_r.
Qed.

Lemma lru_update_closed_form c i k ls lk :
  set_lines c i = Some ls →
  length ls = Z.to_nat (c_E c) →
  ls !! k = Some lk →
  lru_update c i k
  = Some (with_lines c i (<[k := with_lru lk 0]> (aged (lru lk) <$> ls))).
Proof.
  intros Hls Hlen Hk. unfold lru_update. rewrite Hls. simpl.
  rewrite (lru_update_loop_spec k lk) by (done || lia). simpl.
  rewrite drop_0, <- Hlen, take_ge, drop_all, app_nil_r by done.
  rewrite list_lookup_fmap, Hk. simpl. by rewrite aged_self.
Qed.

(** X8. [lru_update] on any set of [E] lines, for a touched line that
    exists: the call is defined; the touched line gets recency 0; every
    other line that is valid and whose recency is below the recency the
    touched line had at entry gets its recency incremented; nothing else
    changes.  The loop reads [cache_line->lru] again at every step, and it
    is always the value at entry that it reads. *)
Theorem X8_lru_update_ages_the_younger_lines c i k ls lk :
  set_lines c i = Some ls →
  length ls = Z.to_nat (c_E c) →
  ls !! k = Some lk →
  ∃ ls',
    lru_update c i k = Some (with_lines c i ls') ∧
    length ls' = length ls ∧
    ls' !! k = Some (with_lru lk 0) ∧
    ∀ j lj, j ≠ k → ls !! j = Some lj →
      ls' !! j = Some (if negb (valid lj =? 0) && (lru lj <? lru lk)
                       then with_lru lj (wrap_int (lru lj + 1)) else lj).
Proof.
  intros Hls Hlen Hk.
  exists (<[k := with_lru lk 0]> (aged (lru lk) <$> ls)). split_and!.
  - by apply lru_update_closed_form.
  - by rewrite length_insert, length_fmap.
  - apply list_lookup_insert_eq. rewrite length_fmap. by eapply lookup_lt_Some.
  - intros j lj Hne Hj.
    by rewrite list_lookup_insert_ne, list_lookup_fmap, Hj by done.
Qed.

Lemma X8_lru_update_ages_the_younger_lines_witness :
  set_lines cache_ranked 0 = Some [mkline 1 0 1; mkline 1 1 0] ∧
  length [mkline 1 0 1; mkline 1 1 0] = Z.to_nat (c_E cache_ranked) ∧
  [mkline 1 0 1; mkline 1 1 0] !! 0%nat = Some (mkline 1 0 1) ∧
  lru_update cache_ranked 0 0
  = Some (with_lines cache_ranked 0 [mkline 1 0 0; mkline 1 1 1]) ∧
  ∃ ls',
    lru_update cache_ranked 0 0 = Some (with_lines cache_ranked 0 ls') ∧
    length ls' = 2%nat ∧
    ls' !! 0%nat = Some (mkline 1 0 0).
Proof.
  split; [reflexivity|]. split; [reflexivity|]. split; [reflexivity|].
  split; [reflexivity|].
  destruct (X8_lru_update_ages_the_younger_lines cache_ranked 0 0
              [mkline 1 0 1; mkline 1 1 0] (mkline 1 0 1) eq_refl eq_refl eq_refl)
    as (ls' & Hupd & Hlen & Hk & _).
  exists ls'. split; [exact Hupd | split; [exact Hlen | exact Hk]].
Defined.

(** *** Rankings *)

Lemma valid_recencies_cons l ls :
  valid_recencies (l :: ls)
  = if decide (valid l ≠ 0) then lru l :: valid_recencies ls else valid_recencies ls.
Proof. unfold valid_recencies. rewrite filter_cons. by destruct (decide _). Qed.

Lemma valid_recencies_elem ls i li :
  ls !! i = Some li → valid li ≠ 0 → lru li ∈ valid_recencies ls.
Proof.
  intros Hi Hv. apply list_elem_of_fmap_2, list_elem_of_filter.
  split; [done|]. by eapply list_elem_of_lookup_2.
Qed.

Lemma valid_recencies_length ls : (length (valid_recencies ls) <= length ls)%nat.
Proof. unfold valid_recencies. rewrite length_fmap. apply length_filter. Qed.

Lemma valid_recencies_full ls :
  Forall (λ l, valid l ≠ 0) ls → valid_recencies ls = lru <$> ls.
Proof.
  induction 1 as [|l ls Hl _ IH]; [done|].
  rewrite valid_recencies_cons, decide_True by done. simpl. by rewrite IH.
Qed.

(** Where recencies are pairwise different, two valid lines of the same
    recency are the same line. *)
Lemma NoDup_valid_recencies_lookup ls : ∀ i j li lj,
  NoDup (valid_recencies ls) →
  ls !! i = Some li → ls !! j = Some lj →
  valid li ≠ 0 → valid lj ≠ 0 → lru li = lru lj → i = j.
Proof.
  induction ls as [|x xs IH]; intros i j li lj Hnd Hi Hj Hvi Hvj Heq; [done|].
  rewrite valid_recencies_cons in Hnd.
  destruct (decide (valid x ≠ 0)) as [Hx|Hx].
  - apply NoDup_cons in Hnd as [Hnotin Hnd].
    destruct i as [|i], j as [|j]; simpl in *; [done|..].
    + injection Hi as ->. destruct Hnotin. rewrite Heq.
      by eapply valid_recencies_elem.
    + injection Hj as ->. destruct Hnotin. rewrite <- Heq.
      by eapply valid_recencies_elem.
    + f_equal. by eapply IH.
  - destruct i as [|i], j as [|j]; simpl in *.
    + injection Hi as ->. done.
    + injection Hi as ->. done.
    + injection Hj as ->. done.
    + f_equal. by eapply IH.
Qed.

Lemma recency_range ls i li :
  recency_invariant ls → ls !! i = Some li → valid li ≠ 0 →
  0 <= lru li < Z.of_nat (length ls).
Proof.
  intros [_ Hran] Hi Hv.
  pose proof (proj1 (Hran _) (valid_recencies_elem _ _ _ Hi Hv)).
  pose proof (valid_recencies_length ls). lia.
Qed.

Lemma with_lru_same l : with_lru l (lru l) = l.
Proof. by destruct l. Qed.

(** On a ranked set the update is the move to the front of the ranking. *)
Lemma update_is_rerank ls k lk :
  recency_invariant ls → Z.of_nat (length ls) < 2 ^ 31 →
  ls !! k = Some lk → valid lk ≠ 0 →
  <[k := with_lru lk 0]> (aged (lru lk) <$> ls) = rerank (lru lk) <$> ls.
Proof.
  intros Hinv Hlen Hk Hv. apply list_eq. intros j.
  destruct (decide (j = k)) as [->|Hne].
  - rewrite list_lookup_insert_eq
      by (rewrite length_fmap; by eapply lookup_lt_Some).
    rewrite list_lookup_fmap, Hk. simpl. unfold rerank, moved.
    destruct (Z.eqb_spec (valid lk) 0); [done|]. simpl. by rewrite Z.eqb_refl.
  - rewrite list_lookup_insert_ne, !list_lookup_fmap by done.
    destruct (ls !! j) as [lj|] eqn:Hj; simpl; [|done]. f_equal.
    unfold aged, rerank, moved.
    destruct (Z.eqb_spec (valid lj) 0) as [|Hvj]; simpl; [done|].
    destruct (Z.eqb_spec (lru lj) (lru lk)) as [Heq|_].
    { destruct Hne. destruct Hinv as [Hnd _].
      by eapply (NoDup_valid_recencies_lookup ls j k lj lk). }
    destruct (Z.ltb_spec (lru lj) (lru lk)).
    + pose proof (recency_range _ _ _ Hinv Hk Hv).
      pose proof (recency_range _ _ _ Hinv Hj Hvj).
      by rewrite wrap_int_small by lia.
    + by rewrite with_lru_same.
Qed.

Lemma valid_recencies_rerank p ls :
  valid_recencies (rerank p <$> ls) = moved p <$> valid_recencies ls.
Proof.
  induction ls as [|l ls IH]; [done|].
  rewrite fmap_cons, !valid_recencies_cons, IH.
  assert (valid (rerank p l) = valid l) as Hv
    by (unfold rerank; by destruct (negb _)).
  destruct (Z.eqb_spec (valid l) 0) as [Hl|Hl].
  - by rewrite !decide_False by (rewrite ?Hv; intros H; by apply H).
  - rewrite !decide_True by (by rewrite ?Hv). simpl. f_equal.
    unfold rerank. by destruct (Z.eqb_spec (valid l) 0).
Qed.

(** Moving rank [p] to the front of the ranks [0 .. n-1] gives the ranks
    [0 .. n-1] again. *)
Lemma moved_ranking p (vr : list Z) :
  NoDup vr → (∀ r, r ∈ vr ↔ 0 <= r < Z.of_nat (length vr)) → p ∈ vr →
  NoDup (moved p <$> vr) ∧
  ∀ r, r ∈ moved p <$> vr ↔ 0 <= r < Z.of_nat (length (moved p <$> vr)).
Proof.
  intros Hnd Hran Hp. apply Hran in Hp. split.
  - apply NoDup_fmap_2_strong; [|done].
    intros x y Hx%Hran Hy%Hran. unfold moved.
    destruct (Z.eqb_spec x p), (Z.eqb_spec y p),
      (Z.ltb_spec x p), (Z.ltb_spec y p); lia.
  - intros r. rewrite length_fmap. split.
    + intros (x & -> & Hx%Hran)%list_elem_of_fmap. unfold moved.
      destruct (Z.eqb_spec x p), (Z.ltb_spec x p); lia.
    + intros Hr. apply list_elem_of_fmap.
      exists (if r =? 0 then p else if r <=? p then r - 1 else r).
      unfold moved. split.
      * destruct (Z.eqb_spec r 0), (Z.leb_spec r p); simpl;
          repeat match goal with
                 | |- context [?a =? ?b] => destruct (Z.eqb_spec a b)
                 | |- context [?a <? ?b] => destruct (Z.ltb_spec a b)
                 end; lia.
      * apply Hran. destruct (Z.eqb_spec r 0), (Z.leb_spec r p); lia.
Qed.

Lemma moved_monotone p r r' :
  r ≠ p → r' ≠ p → r < r' → moved p r < moved p r'.
Proof.
  intros. unfold moved.
  destruct (Z.eqb_spec r p), (Z.eqb_spec r' p), (Z.ltb_spec r p), (Z.ltb_spec r' p); lia.
Qed.

(** X9. [lru_update] keeps a ranking a ranking.  On a set of [E] lines whose
    valid lines carry the ranks [0 .. n-1], each once, touching a valid line
    of rank [p] moves it to the front: it gets rank 0, the valid lines of
    rank below [p] move back by one, the others keep their rank, no valid
    bit or tag changes, and the valid lines again carry the ranks
    [0 .. n-1], each once.  The order of the other lines among themselves is
    kept. *)
Theorem X9_lru_update_moves_to_front c i k ls lk :
  set_lines c i = Some ls →
  length ls = Z.to_nat (c_E c) → c_E c < 2 ^ 31 →
  ls !! k = Some lk → valid lk ≠ 0 →
  recency_invariant ls →
  lru_update c i k = Some (with_lines c i (rerank (lru lk) <$> ls)) ∧
  recency_invariant (rerank (lru lk) <$> ls) ∧
  moved (lru lk) (lru lk) = 0 ∧
  (∀ r, r < lru lk → moved (lru lk) r = r + 1) ∧
  (∀ r, lru lk < r → moved (lru lk) r = r) ∧
  (∀ r r', r ≠ lru lk → r' ≠ lru lk → r < r' → moved (lru lk) r < moved (lru lk) r').
Proof.
  intros Hls Hlen HE Hk Hv Hinv. split_and!.
  - rewrite (lru_update_closed_form c i k ls lk) by done.
    rewrite update_is_rerank; (done || lia).
  - unfold recency_invariant. rewrite valid_recencies_rerank.
    destruct Hinv as [Hnd Hran]. apply moved_ranking; [done..|].
    by eapply valid_recencies_elem.
  - unfold moved. by rewrite Z.eqb_refl.
  - intros r Hr. unfold moved.
    destruct (Z.eqb_spec r (lru lk)), (Z.ltb_spec r (lru lk)); lia.
  - intros r Hr. unfold moved.
    destruct (Z.eqb_spec r (lru lk)), (Z.ltb_spec r (lru lk)); lia.
  - apply moved_monotone.
Qed.

Lemma ranked_lines_10 : recency_invariant [mkline 1 0 1; mkline 1 1 0].
Proof.
  unfold recency_invariant.
  change (valid_recencies [mkline 1 0 1; mkline 1 1 0]) with [1; 0].
  split.
  - apply NoDup_cons. split; [|apply NoDup_singleton].
    intros H%list_elem_of_singleton. lia.
  - intros r. rewrite !elem_of_cons, elem_of_nil. simpl. lia.
Defined.

Lemma X9_lru_update_moves_to_front_witness :
  set_lines cache_ranked 0 = Some [mkline 1 0 1; mkline 1 1 0] ∧
  [mkline 1 0 1; mkline 1 1 0] !! 0%nat = Some (mkline 1 0 1) ∧
  recency_invariant [mkline 1 0 1; mkline 1 1 0] ∧
  lru_update cache_ranked 0 0
  = Some (with_lines cache_ranked 0 (rerank 1 <$> [mkline 1 0 1; mkline 1 1 0])) ∧
  rerank 1 <$> [mkline 1 0 1; mkline 1 1 0] = [mkline 1 0 0; mkline 1 1 1] ∧
  recency_invariant (rerank 1 <$> [mkline 1 0 1; mkline 1 1 0]).
Proof.
  split; [reflexivity|]. split; [reflexivity|]. split; [apply ranked_lines_10|].
  destruct (X9_lru_update_moves_to_front cache_ranked 0 0
              [mkline 1 0 1; mkline 1 1 0] (mkline 1 0 1)
              eq_refl eq_refl eq_refl eq_refl ltac:(simpl; lia) ranked_lines_10)
    as (Hupd & Hinv & _).
  split; [exact Hupd|]. split; [reflexivity | exact Hinv].
Defined.

(** The loop of [find_lru], iterations [j] to [j + n - 1]: the first line
    among them whose recency is [E - 1], and 0 when there is none. *)
Lemma find_lru_loop_spec c i ls n : ∀ j,
  set_lines c i = Some ls → (j + n <= length ls)%nat →
  find_lru_loop c i j n
  = Some (match list_find (λ l, lru l = wrap_int (c_E c - 1)) (take n (drop j ls)) with
          | Some (m, _) => (j + m)%nat
          | None => 0%nat
          end).
Proof.
  induction n as [|n IH]; intros j Hls Hjn; [done|].
  destruct (lookup_lt_is_Some_2 ls j) as [lj Hj]; [lia|].
  simpl. rewrite Hls. simpl. rewrite Hj, (drop_S _ _ _ Hj). simpl.
  destruct (Z.eqb_spec (lru lj) (wrap_int (c_E c - 1))) as [Heq|Hne].
  - rewrite decide_True by done. f_equal. lia.
  - rewrite decide_False by done. rewrite IH by (done || lia).
    destruct (list_find _ _) as [[m x]|]; simpl; [|done]. f_equal. lia.
Qed.

(** X10. [find_lru] on a ranked full set.  When the [E] lines of the set are
    all valid and carry the ranks [0 .. E-1], each once, [find_lru] returns
    the index of the line of rank [E - 1]: every other line of the set has a
    smaller recency. *)
Theorem X10_find_lru_on_a_ranked_set c i ls :
  set_lines c i = Some ls →
  length ls = Z.to_nat (c_E c) → 1 <= c_E c < 2 ^ 31 →
  Forall (λ l, valid l ≠ 0) ls →
  recency_invariant ls →
  ∃ k lk,
    find_lru c i = Some k ∧ ls !! k = Some lk ∧
    lru lk = c_E c - 1 ∧
    ∀ j lj, ls !! j = Some lj → j ≠ k → lru lj < lru lk.
Proof.
  intros Hls Hlen HE Hfull [Hnd Hran].
  assert (length (valid_recencies ls) = length ls) as Hn
    by by rewrite valid_recencies_full, length_fmap.
  assert (c_E c - 1 ∈ valid_recencies ls) as Hmax by (apply Hran; lia).
  rewrite valid_recencies_full in Hmax by done.
  apply list_elem_of_fmap in Hmax as (l & Hl & Hin).
  assert (is_Some (list_find (λ l, lru l = wrap_int (c_E c - 1)) ls)) as [[k lk] Hfind].
  { eapply list_find_elem_of; [done|]. simpl. rewrite wrap_int_small; lia. }
  pose proof Hfind as (Hk & Hlk & _)%list_find_Some.
  rewrite wrap_int_small in Hlk by lia.
  exists k, lk. split_and!; [|done..|].
  - unfold find_lru. rewrite (find_lru_loop_spec c i ls) by (done || lia).
    by rewrite drop_0, <- Hlen, take_ge, Hfind by done.
  - intros j lj Hj Hne.
    pose proof (Forall_lookup_1 _ _ _ _ Hfull Hj) as Hvj.
    pose proof (Forall_lookup_1 _ _ _ _ Hfull Hk) as Hvk.
    pose proof (proj1 (Hran _) (valid_recencies_elem _ _ _ Hj Hvj)).
    destruct (decide (lru lj = lru lk)) as [Heq|?]; [|lia].
    destruct Hne. by eapply (NoDup_valid_recencies_lookup ls j k lj lk).
Qed.

Lemma X10_find_lru_on_a_ranked_set_witness :
  set_lines cache_ranked 0 = Some [mkline 1 0 1; mkline 1 1 0] ∧
  1 <= c_E cache_ranked < 2 ^ 31 ∧
  Forall (λ l, valid l ≠ 0) [mkline 1 0 1; mkline 1 1 0] ∧
  recency_invariant [mkline 1 0 1; mkline 1 1 0] ∧
  find_lru cache_ranked 0 = Some 0%nat ∧
  ∃ k lk,
    find_lru cache_ranked 0 = Some k ∧
    [mkline 1 0 1; mkline 1 1 0] !! k = Some lk ∧
    lru lk = c_E cache_ranked - 1.
Proof.
  assert (Forall (λ l, valid l ≠ 0) [mkline 1 0 1; mkline 1 1 0]) as Hfull.
  { repeat constructor; simpl; lia. }
  split; [reflexivity|]. split; [simpl; lia|]. split; [exact Hfull|].
  split; [apply ranked_lines_10|]. split; [reflexivity|].
  destruct (X10_find_lru_on_a_ranked_set cache_ranked 0 _ eq_refl eq_refl
              ltac:(simpl; lia) Hfull ranked_lines_10)
    as (k & lk & Hfind & Hk & Hmax & _).
  exists k, lk. split; [exact Hfind | split; [exact Hk | exact Hmax]].
Defined.

(** [find_lru] is a search for the rank [E - 1], not for a maximum: on a
    set none of whose lines has recency [E - 1] it answers 0, whatever the
    recencies are. *)
Lemma find_lru_default c i ls :
  set_lines c i = Some ls → length ls = Z.to_nat (c_E c) →
  Forall (λ l, lru l ≠ wrap_int (c_E c - 1)) ls →
  find_lru c i = Some 0%nat.
Proof.
  intros Hls Hlen Hno. unfold find_lru.
  rewrite (find_lru_loop_spec c i ls) by (done || lia).
  rewrite drop_0, <- Hlen, take_ge by lia.
  destruct (list_find _ ls) as [[m x]|] eqn:Hfind; [|done].
  apply list_find_Some in Hfind as (Hm & Hx & _).
  by destruct (Forall_lookup_1 _ _ _ _ Hno Hm).
Qed.

(** ** [runsim] *)

Lemma call_access_observable verbose a st :
  observable <$> call_access verbose a st = silent_access a (observable st).
Proof.
  unfold call_access, silent_access, observable.
  rewrite (access_cache_relabel _ a (hits st) (misses st) (evictions st) verbose 0 0 0 0).
  rewrite (access_cache_relabel _ a (hits st) (misses st) (evictions st) 0 0 0 0 0).
  by destruct (access_cache (sim_cache st) a 0 0 0 0).
Qed.

Lemma call_access_printf verbose a x st :
  observable <$> call_access verbose a (printf x st)
  = observable <$> call_access verbose a st.
Proof. by rewrite !call_access_observable. Qed.

Lemma replay_app addrs addrs' m :
  replay (addrs ++ addrs') m = replay addrs m ≫= replay addrs'.
Proof.
  revert m. induction addrs as [|a addrs IH]; intros m; simpl; [done|].
  destruct (silent_access a m) as [m'|]; simpl; [apply IH | done].
Qed.

(** One or two calls in a row, whatever is printed around them. *)
Lemma calls_observable verbose a st (k : sim → option sim) addrs :
  (∀ st', observable <$> k st' = replay addrs (observable st')) →
  observable <$> (call_access verbose a st ≫= k)
  = replay (a :: addrs) (observable st).
Proof.
  intros Hk.
  change (replay (a :: addrs) (observable st))
    with (silent_access a (observable st) ≫= replay addrs).
  rewrite <- (call_access_observable verbose).
  destruct (call_access verbose a st) as [st'|]; [apply Hk | done].
Qed.

Lemma call_observable verbose a st :
  observable <$> call_access verbose a st = replay [a] (observable st).
Proof.
  change (replay [a] (observable st))
    with (silent_access a (observable st) ≫= Some).
  rewrite <- (call_access_observable verbose).
  by destruct (call_access verbose a st).
Qed.

Lemma bind_observable (x : option sim) (k : sim → option sim)
    (y : option (cache * Z * Z * Z)) g :
  observable <$> x = y →
  (∀ st, observable <$> k st = g (observable st)) →
  observable <$> (x ≫= k) = y ≫= g.
Proof. intros <- Hk. destruct x as [st|]; simpl; [apply Hk | done]. Qed.

Lemma runsim_event_observable verbose ev st :
  observable <$> runsim_event verbose ev st = replay (accessed ev) (observable st).
Proof.
  unfold runsim_event, accessed. rewrite replay_app.
  set (header := Header (operation ev) (address ev) (size ev)).
  apply bind_observable.
  - destruct (is_op ev "L" || is_op ev "S"); [|done].
    destruct (verbose =? 1).
    + change (observable st) with (observable (printf header st)).
      by apply (calls_observable _ _ _ (λ st', Some (printf Newline st')) []).
    + apply call_observable.
  - intros st1. destruct (is_op ev "M"); [|done].
    destruct (verbose =? 1).
    + change (observable st1) with (observable (printf header st1)).
      apply calls_observable. intros st'.
      by apply (calls_observable _ _ _ (λ st'', Some (printf Newline st'')) []).
    + apply calls_observable. intros st'. apply call_observable.
Qed.

Lemma runsim_observable verbose trace st :
  observable <$> runsim verbose trace st
  = replay (trace_addresses trace) (observable st).
Proof.
  revert st. induction trace as [|ev trace IH]; intros st; [done|].
  unfold trace_addresses. simpl. fold (trace_addresses trace).
  rewrite replay_app, <- (runsim_event_observable verbose).
  destruct (runsim_event verbose ev st) as [st'|]; simpl; [apply IH | done].
Qed.

(** X11. What [runsim] leaves in the cache and in the three counters is what
    silent calls of [access_cache] at the addresses of the trace leave, one
    call for a load or a store, two for a modify, none for any other record.
    So the verbose flag, the size field of a record and the difference
    between a load and a store have no effect on the cache and the counters,
    and the run is defined exactly when these calls are. *)
Theorem X11_runsim_replays_the_addresses verbose trace st :
  observable <$> runsim verbose trace st
  = replay (trace_addresses trace) (observable st).
Proof. apply runsim_observable. Qed.

Lemma runsim_app verbose trace trace' st :
  runsim verbose (trace ++ trace') st
  = runsim verbose trace st ≫= runsim verbose trace'.
Proof.
  revert st. induction trace as [|ev trace IH]; intros st; simpl; [done|].
  destruct (runsim_event verbose ev st) as [st'|]; simpl; [apply IH | done].
Qed.

(** *** What a run prints *)

(** A record is a load or a store, or a modify, or neither. *)
Lemma is_op_exclusive ev :
  is_op ev "L" || is_op ev "S" = true → is_op ev "M" = false.
Proof.
  unfold is_op. intros H. apply bool_decide_eq_false.
  apply orb_true_iff in H as [H|H]; apply bool_decide_eq_true in H;
    rewrite H; discriminate.
Qed.

(** A call of [access_cache] from [runsim] prints the text of the outcome
    the silent call has, when the flag is 1, and nothing otherwise. *)
Lemma call_access_output verbose a st st1 :
  call_access verbose a st = Some st1 →
  ∃ r0, access_cache (sim_cache st) a 0 0 0 0 = Some r0 ∧
        sim_cache st1 = ar_cache r0 ∧
        stdout st1
        = stdout st ++ (if verbose =? 1 then [Text (outcome_text (ar_outcome r0))]
                        else []).
Proof.
  unfold call_access.
  rewrite (access_cache_relabel (sim_cache st) a (hits st) (misses st)
             (evictions st) verbose 0 0 0 0).
  destruct (access_cache (sim_cache st) a 0 0 0 0) as [r0|]; [|done].
  simpl. intros [= <-]. exists r0. simpl.
  split; [done|]. split; [done|]. unfold print_if. by destruct (verbose =? 1).
Qed.

Lemma outcomes_cons a rest c r0 osr :
  access_cache c a 0 0 0 0 = Some r0 →
  outcomes rest (ar_cache r0) = Some osr →
  outcomes (a :: rest) c = Some (ar_outcome r0 :: osr).
Proof. intros Hr0 Hrest. simpl. rewrite Hr0. simpl. by rewrite Hrest. Qed.

Lemma runsim_event_output verbose ev st st1 :
  runsim_event verbose ev st = Some st1 →
  ∃ os1, length os1 = length (accessed ev) ∧
    (∀ rest osr, outcomes rest (sim_cache st1) = Some osr →
       outcomes (accessed ev ++ rest) (sim_cache st) = Some (os1 ++ osr)) ∧
    stdout st1 = stdout st ++ (if verbose =? 1 then report_event ev os1 else []).
Proof.
  unfold runsim_event, accessed.
  destruct (is_op ev "L" || is_op ev "S") eqn:Hls.
  - rewrite (is_op_exclusive ev Hls).
    destruct (verbose =? 1) eqn:Hv.
    + destruct (call_access verbose (address ev) (printf _ st)) as [st'|] eqn:Hc;
        simpl; [|done].
      intros [= <-].
      apply call_access_output in Hc as (r0 & Hr0 & Hcache & Hout).
      exists [ar_outcome r0]. split; [done|]. split.
      * intros rest osr Hrest. simpl in Hrest. rewrite Hcache in Hrest.
        by apply outcomes_cons.
      * simpl. rewrite Hout, Hv. simpl. by rewrite <- !app_assoc.
    + destruct (call_access verbose (address ev) st) as [st'|] eqn:Hc; simpl; [|done].
      intros [= <-].
      apply call_access_output in Hc as (r0 & Hr0 & Hcache & Hout).
      exists [ar_outcome r0]. split; [done|]. split.
      * intros rest osr Hrest. rewrite Hcache in Hrest. by apply outcomes_cons.
      * by rewrite Hout, Hv.
  - simpl. destruct (is_op ev "M").
    + destruct (verbose =? 1) eqn:Hv.
      * destruct (call_access verbose (address ev) (printf _ st)) as [st'|] eqn:Hc;
          simpl; [|done].
        destruct (call_access verbose (address ev) st') as [st''|] eqn:Hc';
          simpl; [|done].
        intros [= <-].
        apply call_access_output in Hc as (r0 & Hr0 & Hcache & Hout).
        apply call_access_output in Hc' as (r0' & Hr0' & Hcache' & Hout').
        exists [ar_outcome r0; ar_outcome r0']. split; [done|]. split.
        -- intros rest osr Hrest. simpl in Hrest. rewrite Hcache' in Hrest.
           rewrite Hcache in Hr0'. simpl in Hr0.
           change (outcomes (address ev :: address ev :: rest) (sim_cache st)
                   = Some (ar_outcome r0 :: ar_outcome r0' :: osr)).
           apply outcomes_cons; [done|]. by apply outcomes_cons.
        -- simpl. rewrite Hout', Hout, Hv. simpl. by rewrite <- !app_assoc.
      * destruct (call_access verbose (address ev) st) as [st'|] eqn:Hc; simpl; [|done].
        intros Hc'.
        apply call_access_output in Hc as (r0 & Hr0 & Hcache & Hout).
        apply call_access_output in Hc' as (r0' & Hr0' & Hcache' & Hout').
        exists [ar_outcome r0; ar_outcome r0']. split; [done|]. split.
        -- intros rest osr Hrest. rewrite Hcache' in Hrest. rewrite Hcache in Hr0'.
           change (outcomes (address ev :: address ev :: rest) (sim_cache st)
                   = Some (ar_outcome r0 :: ar_outcome r0' :: osr)).
           apply outcomes_cons; [done|]. by apply outcomes_cons.
        -- rewrite Hout', Hout, Hv. by rewrite !app_nil_r.
    + intros [= <-]. exists []. split; [done|]. split; [done|].
      simpl. destruct (verbose =? 1); by rewrite app_nil_r.
Qed.

Lemma runsim_output verbose trace : ∀ st st',
  runsim verbose trace st = Some st' →
  ∃ os, outcomes (trace_addresses trace) (sim_cache st) = Some os ∧
        length os = length (trace_addresses trace) ∧
        stdout st' = stdout st ++ (if verbose =? 1 then report trace os else []).
Proof.
  induction trace as [|ev trace IH]; intros st st'.
  - intros [= <-]. exists []. split; [done|]. split; [done|].
    simpl. destruct (verbose =? 1); by rewrite app_nil_r.
  - simpl. destruct (runsim_event verbose ev st) as [st1|] eqn:Hev; simpl; [|done].
    intros Hrun.
    apply runsim_event_output in Hev as (os1 & Hlen1 & Hos1 & Hout1).
    apply IH in Hrun as (os & Hos & Hlen & Hout).
    exists (os1 ++ os).
    change (trace_addresses (ev :: trace)) with (accessed ev ++ trace_addresses trace).
    split; [by apply Hos1|]. split; [rewrite !length_app; lia|].
    rewrite Hout, Hout1, <- Hlen1, take_app_length, drop_app_length.
    destruct (verbose =? 1); by rewrite <- ?app_assoc, ?app_nil_r.
Qed.

(** X12. What a run prints.  When the verbose flag is not 1, [runsim] prints
    nothing.  When it is 1, [runsim] prints, for each load, store or modify
    record of the trace in turn, the header of the record, the text of the
    outcome of each of its accesses (one for a load or a store, two for a
    modify) and a newline, and nothing for any other record; the outcomes
    are those the silent calls of [access_cache] at the addresses of the
    trace have, in the same order. *)
Theorem X12_runsim_prints_the_outcomes verbose trace st st' :
  runsim verbose trace st = Some st' →
  ∃ os, outcomes (trace_addresses trace) (sim_cache st) = Some os ∧
        length os = length (trace_addresses trace) ∧
        stdout st' = stdout st ++ (if verbose =? 1 then report trace os else []).
Proof. apply runsim_output. Qed.

Lemma X12_runsim_prints_the_outcomes_witness :
  runsim 1 [load 0; mkevent "I" 16 4; modify 4; mkevent "S" 0 8]
    (mksim (fresh_cache 1 1 1) 0 0 0 [])
  = Some (mksim (mkcache [mkset [mkline 1 0 0]; mkset (fresh_lines 1)] 1 1 1 2) 1 3 2
            [Header "L" 0 1; Text "miss "; Newline;
             Header "M" 4 1; Text "miss eviction "; Text "hit "; Newline;
             Header "S" 0 8; Text "miss eviction "; Newline]) ∧
  ∃ os,
    outcomes (trace_addresses [load 0; mkevent "I" 16 4; modify 4; mkevent "S" 0 8])
      (fresh_cache 1 1 1) = Some os ∧
    [Header "L" 0 1; Text "miss "; Newline;
     Header "M" 4 1; Text "miss eviction "; Text "hit "; Newline;
     Header "S" 0 8; Text "miss eviction "; Newline]
    = [] ++ report [load 0; mkevent "I" 16 4; modify 4; mkevent "S" 0 8] os.
Proof.
  split; [reflexivity|].
  destruct (X12_runsim_prints_the_outcomes 1
              [load 0; mkevent "I" 16 4; modify 4; mkevent "S" 0 8]
              (mksim (fresh_cache 1 1 1) 0 0 0 [])
              (mksim (mkcache [mkset [mkline 1 0 0]; mkset (fresh_lines 1)] 1 1 1 2)
                 1 3 2
                 [Header "L" 0 1; Text "miss "; Newline;
                  Header "M" 4 1; Text "miss eviction "; Text "hit "; Newline;
                  Header "S" 0 8; Text "miss eviction "; Newline])
              ltac:(reflexivity))
    as (os & Hos & _ & Hout).
  exists os. split; [exact Hos | exact Hout].
Defined.

(** *** Counting *)

Lemma sum_list_with_insert {A} (f : A → nat) (l : list A) : ∀ i x y,
  l !! i = Some x →
  (sum_list_with f (<[i := y]> l) + f x = sum_list_with f l + f y)%nat.
Proof.
  induction l as [|z l IH]; intros [|i] x y Hi; simpl in *; try done.
  - injection Hi as ->. lia.
  - pose proof (IH i x y Hi). lia.
Qed.

Lemma sum_list_with_bound {A} (f : A → nat) (l : list A) n :
  Forall (λ x, f x <= n)%nat l → (sum_list_with f l <= length l * n)%nat.
Proof. induction 1; simpl; lia. Qed.

Lemma sum_list_with_zero {A} (f : A → nat) (l : list A) :
  Forall (λ x, f x = 0%nat) l → sum_list_with f l = 0%nat.
Proof. induction 1; simpl; lia. Qed.

Lemma valid_lines_bound ls : (valid_lines ls <= length ls)%nat.
Proof.
  unfold valid_lines.
  pose proof (sum_list_with_bound
                (λ l, if decide (valid l ≠ 0) then 1%nat else 0%nat) ls 1) as H.
  rewrite Nat.mul_1_r in H. apply H.
  apply Forall_forall. intros l _. destruct (decide _); lia.
Qed.

Lemma valid_count_fresh s E b : valid_count (fresh_cache s E b) = 0%nat.
Proof.
  unfold valid_count. simpl. apply sum_list_with_zero, Forall_replicate. simpl.
  by apply sum_list_with_zero, Forall_replicate.
Qed.

Lemma valid_count_bound c :
  cache_inv c → Z.of_nat (valid_count c) <= c_S c * c_E c.
Proof.
  intros Hinv. unfold valid_count.
  assert (sum_list_with (λ st, valid_lines (lines st)) (c_sets c)
          <= length (c_sets c) * Z.to_nat (c_E c))%nat as Hsum.
  { apply sum_list_with_bound.
    eapply Forall_impl; [apply (inv_lines c Hinv)|].
    intros st Hlen. simpl in *. rewrite <- Hlen. apply valid_lines_bound. }
  rewrite (inv_sets c Hinv) in Hsum.
  pose proof (inv_E c Hinv). pose proof (inv_s c Hinv) as Hs.
  pose proof (pow2_bounds _ Hs) as Hp. rewrite <- (inv_S c Hinv) in Hp.
  apply Nat2Z.inj_le in Hsum. rewrite Nat2Z.inj_mul, !Z2Nat.id in Hsum by lia.
  done.
Qed.

Lemma valid_count_with_lines c i ls ls' :
  set_lines c i = Some ls →
  (valid_count (with_lines c i ls') + valid_lines ls
   = valid_count c + valid_lines ls')%nat.
Proof.
  intros Hls%set_lines_Some. unfold valid_count. simpl.
  apply (sum_list_with_insert (λ st, valid_lines (lines st)) _ _ _ (mkset ls') Hls).
Qed.

(** The number of valid lines of the set grows by one on a fill and stays
    as it is on a hit and on an eviction. *)
Lemma access_case_valid_lines tg ls o ls' :
  access_case tg ls o ls' →
  valid_lines ls' = (valid_lines ls + (if decide (o = MissFill) then 1 else 0))%nat.
Proof.
  destruct 1 as [Hex | k lk Hno (Hk & Hv & _) | l0 Hno Hfull Hl0].
  - rewrite decide_False by done. lia.
  - rewrite decide_True by done.
    pose proof (sum_list_with_insert
                  (λ l, if decide (valid l ≠ 0) then 1%nat else 0%nat)
                  ls k lk (mkline 1 tg 0) Hk) as H.
    simpl in H.
    rewrite (decide_False (P := valid lk ≠ 0)) in H by (intros H'; by apply H').
    unfold valid_lines. lia.
  - rewrite decide_False by done.
    pose proof (sum_list_with_insert
                  (λ l, if decide (valid l ≠ 0) then 1%nat else 0%nat)
                  ls 0 l0 (mkline (valid l0) tg 0) Hl0) as H.
    simpl in H. unfold valid_lines.
    destruct (decide (valid l0 ≠ 0)); lia.
Qed.

(** What one call does to the counters and to the number of valid lines. *)
Lemma access_counts c a hit miss evs verb :
  cache_inv c →
  ∃ r, access_cache c a hit miss evs verb = Some r ∧
       cache_inv (ar_cache r) ∧
       ar_hit r = bump (is_hit (ar_outcome r)) hit ∧
       ar_miss r = bump (negb (is_hit (ar_outcome r))) miss ∧
       ar_evictions r = bump (is_evict (ar_outcome r)) evs ∧
       c_S (ar_cache r) = c_S c ∧ c_E (ar_cache r) = c_E c ∧
       valid_count (ar_cache r)
       = (valid_count c + (if decide (ar_outcome r = MissFill) then 1 else 0))%nat.
Proof.
  intros Hinv.
  destruct (access_cache_cases c a hit miss evs verb Hinv)
    as (ls & r & Hls & _ & _ & Hacc & ls' & Hcase & Hc & Hh & Hm & He & _).
  exists r. split_and!; try done.
  - by eapply access_cache_keeps_inv.
  - by rewrite Hc.
  - by rewrite Hc.
  - rewrite Hc. pose proof (valid_count_with_lines c _ ls ls' Hls).
    pose proof (access_case_valid_lines _ _ _ _ Hcase). lia.
Qed.

Lemma replay_counts addrs : ∀ c hit miss evs,
  cache_inv c →
  0 <= hit → 0 <= evs <= miss →
  hit + miss + Z.of_nat (length addrs) < 2 ^ 31 →
  ∃ c' hit' miss' evs',
    replay addrs (c, hit, miss, evs) = Some (c', hit', miss', evs') ∧
    cache_inv c' ∧
    hit' + miss' = hit + miss + Z.of_nat (length addrs) ∧
    hit <= hit' ∧ miss <= miss' ∧ evs <= evs' ∧
    evs' - evs <= miss' - miss ∧
    c_S c' = c_S c ∧ c_E c' = c_E c ∧
    (miss' - miss) - (evs' - evs)
    = Z.of_nat (valid_count c') - Z.of_nat (valid_count c).
Proof.
  induction addrs as [|a addrs IH]; intros c hit miss evs Hinv Hh He Hsum.
  { exists c, hit, miss, evs. simpl. split_and!; (done || lia). }
  destruct (access_counts c a hit miss evs 0 Hinv)
    as (r & Hacc & Hinv' & Hhit & Hmiss & Hevs & HS & HE & Hcount).
  simpl in Hsum.
  assert (0 <= ar_hit r ∧ 0 <= ar_evictions r <= ar_miss r ∧
          ar_hit r + ar_miss r = hit + miss + 1 ∧
          hit <= ar_hit r ∧ miss <= ar_miss r ∧ evs <= ar_evictions r ∧
          ar_evictions r - evs <= ar_miss r - miss ∧
          (ar_miss r - miss) - (ar_evictions r - evs)
          = Z.of_nat (valid_count (ar_cache r)) - Z.of_nat (valid_count c)) as Hstep.
  { rewrite Hhit, Hmiss, Hevs, Hcount. unfold bump, is_hit, is_evict.
    destruct (ar_outcome r); simpl;
      rewrite ?wrap_int_small by lia; rewrite ?Nat.add_0_r; lia. }
  destruct Hstep as (Hh' & He' & Hsum' & ? & ? & ? & ? & ?).
  destruct (IH (ar_cache r) (ar_hit r) (ar_miss r) (ar_evictions r) Hinv' Hh' He')
    as (c' & hit' & miss' & evs' & Hrep & Hinv'' & ? & ? & ? & ? & ? & ? & ? & ?);
    [lia|].
  exists c', hit', miss', evs'. simpl. rewrite Hacc. simpl.
  split_and!; try done; (congruence || lia).
Qed.

Lemma run_from_first c a hit miss evs verb r c' :
  is_ulong a → access_cache c a hit miss evs verb = Some r →
  run_from (ar_cache r) c' → run_from c c'.
Proof.
  intros Ha Hacc. induction 1 as [|c1 a1 h1 m1 e1 v1 r1 _ IH1 Ha1 Hacc1].
  - eapply run_access; [constructor | done | done].
  - eapply run_access; [apply IH1 | done | done].
Qed.

Lemma replay_run addrs : ∀ c hit miss evs,
  cache_inv c → Forall is_ulong addrs →
  ∃ c' hit' miss' evs',
    replay addrs (c, hit, miss, evs) = Some (c', hit', miss', evs') ∧ run_from c c'.
Proof.
  induction addrs as [|a addrs IH]; intros c hit miss evs Hinv Hul.
  { exists c, hit, miss, evs. split; [done | constructor]. }
  apply Forall_cons in Hul as [Ha Hul].
  destruct (access_counts c a hit miss evs 0 Hinv) as (r & Hacc & Hinv' & _).
  destruct (IH (ar_cache r) (ar_hit r) (ar_miss r) (ar_evictions r) Hinv' Hul)
    as (c' & hit' & miss' & evs' & Hrep & Hrun).
  exists c', hit', miss', evs'. simpl. rewrite Hacc. simpl. split; [done|].
  by eapply run_from_first.
Qed.

Lemma runsim_from_replay verbose trace st c' hit' miss' evs' :
  replay (trace_addresses trace) (observable st) = Some (c', hit', miss', evs') →
  ∃ st', runsim verbose trace st = Some st' ∧
         sim_cache st' = c' ∧ hits st' = hit' ∧ misses st' = miss' ∧
         evictions st' = evs'.
Proof.
  rewrite <- (runsim_observable verbose).
  destruct (runsim verbose trace st) as [st'|]; simpl; [|done].
  intros [= <- <- <- <-]. by exists st'.
Qed.

(** X13. A run never leaves the defined behaviour: from a reachable cache,
    on a trace whose addresses are 64-bit values, [runsim] returns a state,
    and its cache is one that accesses lead to from the cache at the
    start. *)
Theorem X13_runsim_is_defined verbose trace st :
  reachable (sim_cache st) →
  Forall is_ulong (trace_addresses trace) →
  ∃ st', runsim verbose trace st = Some st' ∧
         run_from (sim_cache st) (sim_cache st') ∧
         reachable (sim_cache st').
Proof.
  intros Hreach Hul.
  destruct (replay_run _ (sim_cache st) (hits st) (misses st) (evictions st)
              (reachable_inv _ Hreach) Hul)
    as (c' & hit' & miss' & evs' & Hrep & Hrun).
  destruct (runsim_from_replay verbose trace st _ _ _ _ Hrep)
    as (st' & Hsim & <- & _).
  exists st'. split_and!; [done..|]. by eapply run_from_reachable.
Qed.

Lemma X13_runsim_is_defined_witness :
  reachable cache_AB ∧
  Forall is_ulong (trace_addresses [load 0; modify 8]) ∧
  ∃ st', runsim 1 [load 0; modify 8] (mksim cache_AB 0 2 0 []) = Some st' ∧
         reachable (sim_cache st').
Proof.
  assert (Forall is_ulong (trace_addresses [load 0; modify 8])) as Hul.
  { change (trace_addresses [load 0; modify 8]) with [0; 8; 8].
    repeat (apply Forall_cons_2; [apply is_ulong_small; lia|]). apply Forall_nil_2. }
  split; [apply reachable_cache_AB|]. split; [exact Hul|].
  destruct (X13_runsim_is_defined 1 [load 0; modify 8] (mksim cache_AB 0 2 0 [])
              reachable_cache_AB Hul)
    as (st' & Hrun & _ & Hreach).
  exists st'. split; [exact Hrun | exact Hreach].
Defined.

(** X14. Hits plus misses count the accesses.  From a reachable cache and
    counters that will not overflow, after [runsim] the sum of the hit and
    miss counters has grown by the number of accesses of the trace (one per
    load or store, two per modify), no counter has gone down, and the
    evictions counted are at most the misses counted. *)
Theorem X14_hits_plus_misses_count_the_accesses verbose trace st :
  reachable (sim_cache st) →
  0 <= hits st → 0 <= evictions st <= misses st →
  hits st + misses st + Z.of_nat (length (trace_addresses trace)) < 2 ^ 31 →
  ∃ st', runsim verbose trace st = Some st' ∧
         hits st' + misses st'
         = hits st + misses st + Z.of_nat (length (trace_addresses trace)) ∧
         hits st <= hits st' ∧ misses st <= misses st' ∧
         evictions st <= evictions st' ∧
         evictions st' - evictions st <= misses st' - misses st.
Proof.
  intros Hreach Hh He Hsum.
  destruct (replay_counts _ (sim_cache st) (hits st) (misses st) (evictions st)
              (reachable_inv _ Hreach) Hh He Hsum)
    as (c' & hit' & miss' & evs' & Hrep & _ & ? & ? & ? & ? & ? & _).
  destruct (runsim_from_replay verbose trace st _ _ _ _ Hrep)
    as (st' & Hsim & <- & <- & <- & <-).
  by exists st'.
Qed.

Lemma X14_hits_plus_misses_count_the_accesses_witness :
  reachable cache_AB ∧ 0 <= 0 ∧ 0 <= 0 <= 2 ∧
  0 + 2 + Z.of_nat (length (trace_addresses [load 0; modify 8; mkevent "I" 0 4])) < 2 ^ 31 ∧
  trace_addresses [load 0; modify 8; mkevent "I" 0 4] = [0; 8; 8] ∧
  ∃ st', runsim 0 [load 0; modify 8; mkevent "I" 0 4] (mksim cache_AB 0 2 0 []) = Some st' ∧
         hits st' + misses st' = 0 + 2 + 3.
Proof.
  split; [apply reachable_cache_AB|]. split; [lia|]. split; [lia|].
  split; [simpl; lia|]. split; [reflexivity|].
  destruct (X14_hits_plus_misses_count_the_accesses 0
              [load 0; modify 8; mkevent "I" 0 4] (mksim cache_AB 0 2 0 [])
              reachable_cache_AB ltac:(simpl; lia) ltac:(simpl; lia) ltac:(simpl; lia))
    as (st' & Hrun & Hsum & _).
  exists st'. split; [exact Hrun | exact Hsum].
Defined.

(** X15. Misses minus evictions is the number of valid lines.  On a cache
    as [makecache] returns it, with the counters at 0 as in [main], after
    [runsim] the miss counter less the eviction counter is the number of
    valid lines of the cache, which is at most [S * E]. *)
Theorem X15_misses_less_evictions_are_the_valid_lines
    malloc_ok s E b c verbose trace out :
  valid_config s E b →
  makecache malloc_ok s E b = Some (Some c) →
  Z.of_nat (length (trace_addresses trace)) < 2 ^ 31 →
  ∃ st', runsim verbose trace (mksim c 0 0 0 out) = Some st' ∧
         misses st' - evictions st' = Z.of_nat (valid_count (sim_cache st')) ∧
         Z.of_nat (valid_count (sim_cache st')) <= 2 ^ s * E.
Proof.
  intros Hcfg Hmk Hlen.
  pose proof (reachable_inv _ (reachable_fresh _ _ _ _ _ Hcfg Hmk)) as Hinv.
  apply makecache_Some in Hmk as [Hs ->].
  destruct (replay_counts (trace_addresses trace) (fresh_cache s E b) 0 0 0 Hinv)
    as (c' & hit' & miss' & evs' & Hrep & Hinv' & _ & _ & _ & _ & _ & HS & HE & Hvalid);
    [lia..|].
  destruct (runsim_from_replay verbose trace (mksim (fresh_cache s E b) 0 0 0 out)
              _ _ _ _ Hrep)
    as (st' & Hsim & <- & _ & <- & <-).
  exists st'. rewrite valid_count_fresh in Hvalid. split_and!; [done | lia |].
  pose proof (valid_count_bound _ Hinv') as Hbound.
  by rewrite HS, HE in Hbound.
Qed.

Lemma X15_misses_less_evictions_are_the_valid_lines_witness :
  valid_config 1 2 1 ∧
  makecache malloc_always 1 2 1 = Some (Some (fresh_cache 1 2 1)) ∧
  Z.of_nat (length (trace_addresses [load 0; load 4; load 0; load 8])) < 2 ^ 31 ∧
  runsim 0 [load 0; load 4; load 0; load 8] (mksim (fresh_cache 1 2 1) 0 0 0 [])
  = Some (mksim cache_CB 1 3 1 []) ∧
  ∃ st', runsim 0 [load 0; load 4; load 0; load 8] (mksim (fresh_cache 1 2 1) 0 0 0 [])
         = Some st' ∧
         misses st' - evictions st' = Z.of_nat (valid_count (sim_cache st')) ∧
         Z.of_nat (valid_count (sim_cache st')) <= 2 ^ 1 * 2.
Proof.
  split; [apply valid_config_121|]. split; [reflexivity|]. split; [simpl; lia|].
  split; [reflexivity|].
  apply (X15_misses_less_evictions_are_the_valid_lines malloc_always 1 2 1 _ 0
           [load 0; load 4; load 0; load 8] [] valid_config_121 eq_refl).
  simpl. lia.
Defined.

(** ** [makecache] and [freecache] on the heap *)

Lemma filter_ext_in {A} (P Q : A → Prop) `{∀ x, Decision (P x)} `{∀ x, Decision (Q x)}
    (l : list A) :
  (∀ x, x ∈ l → P x ↔ Q x) → filter P l = filter Q l.
Proof.
  induction l as [|x l IH]; intros Hext; [done|].
  rewrite !filter_cons.
  rewrite IH by (intros y Hy; apply Hext; by right).
  destruct (decide (P x)) as [HP|HP], (decide (Q x)) as [HQ|HQ]; try done.
  - destruct HQ. apply Hext; [by left | done].
  - destruct HP. apply Hext; [by left | done].
Qed.

Lemma filter_all {A} (P : A → Prop) `{∀ x, Decision (P x)} (l : list A) :
  (∀ x, x ∈ l → P x) → filter P l = l.
Proof.
  induction l as [|x l IH]; intros Hall; [done|].
  rewrite filter_cons_True by (apply Hall; by left).
  f_equal. apply IH. intros y Hy. apply Hall. by right.
Qed.

Lemma in_take {A} (x : A) n l : x ∈ take n l → x ∈ l.
Proof. intros (i & Hi & _)%elem_of_take. by eapply list_elem_of_lookup_2. Qed.

Lemma free_live p h :
  p ∈ live h → free p h = Some (mkheap (calls h) (filter (λ q, q ≠ p) (live h))).
Proof. intros Hp. unfold free. by rewrite decide_True. Qed.

Lemma heap_ok_filter (P : nat → Prop) `{∀ x, Decision (P x)} h :
  heap_ok h → heap_ok (mkheap (calls h) (filter P (live h))).
Proof.
  intros [Hnd Hlt]. split; simpl.
  - by apply NoDup_filter.
  - intros p [_ Hp]%list_elem_of_filter. by apply Hlt.
Qed.

(** The loop of [free] over the blocks [i .. i + n - 1] of the table: they
    are taken off the heap, and nothing else is. *)
Lemma free_lines_spec blocks n : ∀ i h,
  (i + n <= length blocks)%nat → NoDup blocks →
  (∀ q, q ∈ take n (drop i blocks) → q ∈ live h) →
  ∃ h', free_lines blocks i n h = Some h' ∧ calls h' = calls h ∧
        live h' = filter (λ q, q ∉ take n (drop i blocks)) (live h).
Proof.
  induction n as [|n IH]; intros i h Hin Hnd Hlive.
  { exists h. split_and!; [done..|]. symmetry. apply filter_all.
    intros q _. apply not_elem_of_nil. }
  destruct (lookup_lt_is_Some_2 blocks i) as [p Hp]; [lia|].
  rewrite (drop_S _ _ _ Hp) in Hlive |- *. simpl in Hlive |- *.
  rewrite Hp. simpl. rewrite free_live by (apply Hlive; by left). simpl.
  assert (p ∉ drop (S i) blocks) as Hfresh.
  { rewrite <- (take_drop i blocks), (drop_S _ _ _ Hp) in Hnd.
    apply NoDup_app in Hnd as (_ & _ & Hnd). by apply NoDup_cons in Hnd as [? _]. }
  destruct (IH (S i) (mkheap (calls h) (filter (λ q, q ≠ p) (live h))))
    as (h' & Hfree & Hcalls & Hl); [lia | done | |].
  { intros q Hq. simpl. apply list_elem_of_filter. split.
    - intros ->. apply Hfresh. by eapply in_take.
    - apply Hlive. by right. }
  exists h'. split_and!; [done..|]. rewrite Hl. simpl.
  rewrite list_filter_filter. apply filter_ext_in.
  intros q _. rewrite not_elem_of_cons. tauto.
Qed.

Lemma malloc_heap_ok malloc_ok n h p h' :
  heap_ok h → malloc malloc_ok n h = (p, h') →
  heap_ok h' ∧ calls h' = S (calls h) ∧
  match p with
  | Some q => q = calls h ∧ live h' = q :: live h ∧ q ∉ live h
  | None => live h' = live h
  end.
Proof.
  intros [Hnd Hlt]. unfold malloc.
  assert (calls h ∉ live h) as Hfresh by (intros H%Hlt; lia).
  destruct (malloc_ok (calls h) n); intros [= <- <-]; simpl.
  - split_and!; try done. split; simpl.
    + by apply NoDup_cons.
    + intros q [->|Hq%Hlt]%elem_of_cons; lia.
  - split_and!; try done. split; simpl; [done|].
    intros q Hq%Hlt. lia.
Qed.

(** The loop of [makecache] over the sets: it ends with the sets built and
    their blocks on the heap, or with every block of lines freed again. *)
Lemma makecache_lines_spec malloc_ok E n : ∀ i h sets blocks,
  heap_ok h → length blocks = i → NoDup blocks →
  (∀ q, q ∈ blocks → q ∈ live h) →
  ∃ r h', makecache_lines malloc_ok E i n h sets blocks = Some (r, h') ∧
    heap_ok h' ∧
    match r with
    | None => live h' = filter (λ q, q ∉ blocks) (live h)
    | Some (sets', blocks') =>
        sets' = sets ++ replicate n (mkset (fresh_lines E)) ∧
        ∃ new, blocks' = blocks ++ new ∧ length new = n ∧
               live h' = reverse new ++ live h ∧
               NoDup blocks' ∧ (∀ q, q ∈ blocks' → q ∈ live h')
    end.
Proof.
  induction n as [|n IH]; intros i h sets blocks Hok Hlen Hnd Hlive.
  { exists (Some (sets, blocks)), h. simpl. split_and!; try done.
    - by rewrite app_nil_r.
    - exists []. by rewrite app_nil_r. }
  simpl.
  destruct (malloc malloc_ok _ h) as [[p|] h1] eqn:Hm;
    apply (malloc_heap_ok _ _ _ _ _ Hok) in Hm as (Hok1 & Hcalls & Hm).
  - destruct Hm as (-> & Hl1 & Hfresh).
    destruct (IH (S i) h1 (sets ++ [mkset (fresh_lines E)]) (blocks ++ [calls h]))
      as (r & h' & Hrun & Hok' & Hr); [done | | | |].
    { rewrite length_app. simpl. lia. }
    { apply NoDup_app. split_and!; [done | | apply NoDup_singleton].
      intros q Hq ->%list_elem_of_singleton. by apply Hfresh, Hlive. }
    { intros q [Hq| ->%list_elem_of_singleton]%elem_of_app; rewrite Hl1.
      - right. by apply Hlive.
      - by left. }
    exists r, h'. split_and!; [done..|]. destruct r as [[sets' blocks']|].
    + destruct Hr as (-> & new & -> & Hnew & Hl' & Hnd' & Hlive').
      split; [by rewrite <- app_assoc|].
      exists (calls h :: new). split_and!; try done.
      * by rewrite <- app_assoc.
      * simpl. lia.
      * by rewrite Hl', Hl1, reverse_cons, <- app_assoc.
    + rewrite Hr, Hl1.
      rewrite filter_cons_False.
      2:{ intros H. apply H. apply elem_of_app. right. by left. }
      apply filter_ext_in. intros q Hq. rewrite elem_of_app, list_elem_of_singleton.
      split; [tauto|]. intros Hnb [?| ->]; [done|by apply Hfresh].
  - destruct (free_lines_spec blocks i 0 h1) as (h' & Hfree & Hc' & Hl');
      [lia | done | |].
    { rewrite drop_0. intros q Hq%in_take. rewrite Hm. by apply Hlive. }
    rewrite Hfree. simpl. exists None, h'. split_and!; [done | |].
    + destruct Hok1 as [Hnd1 Hlt1]. split; rewrite ?Hl', ?Hc'.
      * by apply NoDup_filter.
      * intros q [_ Hq]%list_elem_of_filter. by apply Hlt1.
    + rewrite Hl', Hm, drop_0, take_ge by lia. done.
Qed.

Lemma filter_none {A} (P : A → Prop) `{∀ x, Decision (P x)} (l : list A) :
  (∀ x, x ∈ l → ¬ P x) → filter P l = [].
Proof.
  induction l as [|x l IH]; intros Hnone; [done|].
  rewrite filter_cons_False by (apply Hnone; by left).
  apply IH. intros y Hy. apply Hnone. by right.
Qed.

Lemma free_head p rest h :
  live h = p :: rest → p ∉ rest →
  free p h = Some (mkheap (calls h) rest).
Proof.
  intros Hl Hp. rewrite free_live by (rewrite Hl; by left).
  rewrite Hl, filter_cons_False by (intros H; by apply H).
  rewrite filter_all; [done|]. by intros q Hq ->.
Qed.

(** What [makecache] does to a heap in order, for a defined shift. *)
Lemma makecache_heap_spec malloc_ok s E b h :
  heap_ok h → 0 <= s <= 30 →
  ∃ r h' out,
    makecache_heap malloc_ok s E b h = Some (r, h', out) ∧
    match r with
    | None => live h' = live h ∧ out ≠ []
    | Some (c, bl) =>
        c = fresh_cache s E b ∧ out = [] ∧
        length (b_lines bl) = Z.to_nat (2 ^ s) ∧
        live h' = reverse (b_lines bl) ++ b_sets bl :: b_cache bl :: live h ∧
        NoDup (live h') ∧
        ∃ h'', freecache (Some (c, bl)) h' = Some h'' ∧ live h'' = live h
    end.
Proof.
  intros Hok Hs. unfold makecache_heap.
  assert (int_shl 1 s = Some (2 ^ s)) as -> by by apply int_shl_1_Some.
  simpl.
  destruct (malloc malloc_ok sizeof_cache h) as [[pc|] h1] eqn:Hm1;
    apply (malloc_heap_ok _ _ _ _ _ Hok) in Hm1 as (Hok1 & Hc1 & Hm1).
  2:{ by exists None, h1, ["Error allocating memory for cache sim"]. }
  destruct Hm1 as (-> & Hl1 & Hfresh1).
  destruct (malloc malloc_ok _ h1) as [[ps|] h2] eqn:Hm2;
    apply (malloc_heap_ok _ _ _ _ _ Hok1) in Hm2 as (Hok2 & Hc2 & Hm2).
  2:{ rewrite (free_head (calls h) (live h)) by (done || congruence). simpl.
      by eexists None, _, _. }
  destruct Hm2 as (-> & Hl2 & Hfresh2). rewrite Hl1 in Hl2, Hfresh2.
  destruct (makecache_lines_spec malloc_ok E (Z.to_nat (2 ^ s)) 0 h2 [] [])
    as (r & h3 & Hrun & Hok3 & Hr); [done | done | constructor | |].
  { by intros q ?%elem_of_nil. }
  rewrite Hrun. simpl. destruct r as [[sets blocks]|].
  - destruct Hr as (-> & new & -> & Hlen & Hl3 & Hnd & Hlive). simpl in *.
    rewrite Hl2 in Hl3.
    eexists (Some (_, _)), h3, []. split; [done|]. simpl.
    destruct Hok3 as [Hnd3 _].
    split_and!; try done.
    assert (∀ q, q ∈ new → q ∉ calls h1 :: calls h :: live h) as Hdisj.
    { rewrite Hl3 in Hnd3. apply NoDup_app in Hnd3 as (_ & Hd & _).
      intros q Hq. apply Hd. by apply elem_of_reverse. }
    destruct (free_lines_spec new (Z.to_nat (2 ^ s)) 0 h3)
      as (h4 & Hfree & Hc4 & Hl4); [lia | done | |].
    { intros q Hq%in_take. by apply Hlive. }
    rewrite Hfree. simpl.
    rewrite drop_0, take_ge, Hl3, filter_app in Hl4 by lia.
    rewrite filter_none in Hl4.
    2:{ intros q Hq Hn. apply Hn. by apply elem_of_reverse. }
    rewrite filter_all in Hl4 by (intros q Hq Hn; by apply (Hdisj q)).
    simpl in Hl4.
    rewrite (free_head (calls h1) (calls h :: live h)) by done. simpl.
    rewrite (free_head (calls h) (live h)) by done.
    by eexists.
  - rewrite filter_all in Hr by (intros q _; apply not_elem_of_nil).
    rewrite Hl2 in Hr.
    rewrite (free_head (calls h1) (calls h :: live h)) by done. simpl.
    rewrite (free_head (calls h) (live h)) by done. simpl.
    by eexists None, _, _.
Qed.

(** X16. [makecache] does not leak: on a heap in order, when it returns
    [NULL] because an allocation failed, every block it had allocated has
    been freed, and the heap holds the blocks it held before the call. *)
Theorem X16_makecache_frees_what_it_took malloc_ok s E b h h' out :
  heap_ok h →
  makecache_heap malloc_ok s E b h = Some (None, h', out) →
  live h' = live h.
Proof.
  intros Hok Hmk.
  assert (0 <= s <= 30) as Hs.
  { unfold makecache_heap in Hmk.
    destruct (int_shl 1 s) as [n|] eqn:Hn; [|done].
    by apply int_shl_1_Some in Hn as [? _]. }
  destruct (makecache_heap_spec malloc_ok s E b h Hok Hs) as (r & h1 & out1 & Hrun & Hr).
  rewrite Hrun in Hmk. injection Hmk as -> -> ->. by destruct Hr.
Qed.

(** X17. [makecache] then [freecache]: on a heap in order, when [makecache]
    returns a cache it has allocated [2 + 2^s] blocks, namely the structure,
    the array of sets and one array of lines per set; [freecache] on that
    cache is defined, frees each of them once and leaves the heap with the
    blocks it held before [makecache]. *)
Theorem X17_freecache_frees_the_cache malloc_ok s E b h c bl h' out :
  heap_ok h →
  makecache_heap malloc_ok s E b h = Some (Some (c, bl), h', out) →
  c = fresh_cache s E b ∧
  live h' = reverse (b_lines bl) ++ b_sets bl :: b_cache bl :: live h ∧
  length (b_lines bl) = Z.to_nat (2 ^ s) ∧
  NoDup (live h') ∧
  ∃ h'', freecache (Some (c, bl)) h' = Some h'' ∧ live h'' = live h.
Proof.
  intros Hok Hmk.
  assert (0 <= s <= 30) as Hs.
  { unfold makecache_heap in Hmk.
    destruct (int_shl 1 s) as [n|] eqn:Hn; [|done].
    by apply int_shl_1_Some in Hn as [? _]. }
  destruct (makecache_heap_spec malloc_ok s E b h Hok Hs) as (r & h1 & out1 & Hrun & Hr).
  rewrite Hrun in Hmk. injection Hmk as -> -> ->.
  destruct Hr as (? & ? & ? & ? & ? & ?). done.
Qed.

Lemma heap_ok_empty : heap_ok (mkheap 0 []).
Proof.
  split; simpl; [constructor|]. intros p Hp. by apply elem_of_nil in Hp.
Defined.

Lemma X16_makecache_frees_what_it_took_witness :
  heap_ok (mkheap 0 []) ∧
  makecache_heap (malloc_first 3) 1 2 1 (mkheap 0 [])
  = Some (None, mkheap 4 [], ["Error allocating memory for cache lines"]) ∧
  live (mkheap 4 []) = live (mkheap 0 []).
Proof.
  split; [apply heap_ok_empty|]. split; [reflexivity|].
  apply (X16_makecache_frees_what_it_took (malloc_first 3) 1 2 1 (mkheap 0 [])
           (mkheap 4 []) ["Error allocating memory for cache lines"]
           heap_ok_empty eq_refl).
Defined.

Lemma X17_freecache_frees_the_cache_witness :
  heap_ok (mkheap 0 []) ∧
  makecache_heap malloc_always 1 2 1 (mkheap 0 [])
  = Some (Some (fresh_cache 1 2 1, mkblocks 0 1 [2; 3]%nat),
          mkheap 4 [3; 2; 1; 0]%nat, []) ∧
  ∃ h'', freecache (Some (fresh_cache 1 2 1, mkblocks 0 1 [2; 3]%nat))
           (mkheap 4 [3; 2; 1; 0]%nat) = Some h'' ∧
         live h'' = [].
Proof.
  split; [apply heap_ok_empty|]. split; [reflexivity|].
  destruct (X17_freecache_frees_the_cache malloc_always 1 2 1 (mkheap 0 [])
              (fresh_cache 1 2 1) (mkblocks 0 1 [2; 3]%nat)
              (mkheap 4 [3; 2; 1; 0]%nat) [] heap_ok_empty eq_refl)
    as (_ & _ & _ & _ & Hfree).
  exact Hfree.
Defined.

(** ** [makecache]: when it returns [NULL] *)

Lemma makecache_sets_None malloc_ok E n : ∀ i acc,
  makecache_sets malloc_ok E i n acc = None →
  ∃ j, (j < n)%nat ∧
       malloc_ok (2 + i + j)%nat (wrap_ulong (wrap_ulong E * sizeof_line)) = false.
Proof.
  induction n as [|n IH]; intros i acc; simpl; [done|].
  destruct (malloc_ok (S (S i)) _) eqn:Hi.
  - intros (j & Hj & Hfail)%IH. exists (S j). split; [lia|].
    rewrite <- Hfail. f_equal. lia.
  - intros _. exists 0%nat. split; [lia|].
    rewrite <- Hi. f_equal. lia.
Qed.

Lemma makecache_sets_granted malloc_ok E n : ∀ i acc sets,
  makecache_sets malloc_ok E i n acc = Some sets →
  ∀ j, (j < n)%nat →
       malloc_ok (2 + i + j)%nat (wrap_ulong (wrap_ulong E * sizeof_line)) = true.
Proof.
  induction n as [|n IH]; intros i acc sets; simpl; [intros; lia|].
  destruct (malloc_ok (S (S i)) _) eqn:Hi; [|done].
  intros Hrest [|j] Hj.
  - rewrite <- Hi. f_equal. lia.
  - rewrite <- (IH _ _ _ Hrest j) by lia. f_equal. lia.
Qed.

(** X18. When [makecache] fails.  [makecache] is undefined exactly when [s]
    is outside [0 .. 30], where [1 << s] is.  Otherwise it asks [malloc] for
    the structure, then for the array of [2^s] sets, then for [E] lines once
    per set; it returns the cache with [2^s] sets of [E] invalid lines when
    all these requests are granted, and [NULL] as soon as one is refused.
    It checks nothing else: not [E], not [b]. *)
Theorem X18_makecache_fails_only_for_memory malloc_ok s E b :
  (makecache malloc_ok s E b = None ↔ ¬ (0 <= s <= 30)) ∧
  (makecache malloc_ok s E b = Some (Some (fresh_cache s E b))
   ↔ 0 <= s <= 30 ∧
     malloc_ok 0%nat sizeof_cache = true ∧
     malloc_ok 1%nat (wrap_ulong (wrap_ulong (2 ^ s) * sizeof_set)) = true ∧
     ∀ i, (i < Z.to_nat (2 ^ s))%nat →
          malloc_ok (2 + i)%nat (wrap_ulong (wrap_ulong E * sizeof_line)) = true) ∧
  (∀ c, makecache malloc_ok s E b = Some (Some c) → c = fresh_cache s E b).
Proof.
  split_and!.
  - unfold makecache. destruct (int_shl 1 s) as [n|] eqn:Hn; simpl.
    + apply int_shl_1_Some in Hn as [Hs _]. split; [|tauto].
      destruct (malloc_ok 0%nat _); simpl; [|done].
      destruct (malloc_ok 1%nat _); simpl; [|done].
      by destruct (makecache_sets _ _ _ _ _).
    + split; [|done]. intros _ Hs.
      assert (int_shl 1 s = Some (2 ^ s)) by by apply int_shl_1_Some.
      congruence.
  - split.
    + intros Hmk. pose proof (makecache_Some _ _ _ _ _ Hmk) as [Hs _].
      unfold makecache in Hmk.
      assert (int_shl 1 s = Some (2 ^ s)) as Hn by by apply int_shl_1_Some.
      rewrite Hn in Hmk. simpl in Hmk.
      destruct (malloc_ok 0%nat sizeof_cache) eqn:H0; simpl in Hmk; [|done].
      destruct (malloc_ok 1%nat _) eqn:H1; simpl in Hmk; [|done].
      destruct (makecache_sets _ _ _ _ _) as [sets|] eqn:Hsets; [|done].
      split; [done|]. split; [done|]. split; [done|].
      intros i Hi. by apply (makecache_sets_granted _ _ _ _ _ _ Hsets i).
    + intros (Hs & H0 & H1 & Hlines). unfold makecache.
      assert (int_shl 1 s = Some (2 ^ s)) as -> by by apply int_shl_1_Some.
      simpl. rewrite H0, H1. simpl.
      destruct (makecache_sets _ _ _ _ _) as [sets|] eqn:Hsets.
      * apply makecache_sets_Some in Hsets. by subst.
      * apply makecache_sets_None in Hsets as (j & Hj & Hfail).
        rewrite Hlines in Hfail by done. done.
  - intros c Hmk. by apply makecache_Some in Hmk as [_ ->].
Qed.

(** ** [main] *)

Lemma main_switch_None atoi o it :
  main_switch atoi o it = None ↔ recognised it = false.
Proof.
  unfold main_switch, recognised.
  destruct (is_char it "h"); [by split|].
  destruct (is_char it "v"); [by split|].
  destruct (is_char it "s"); [by split|].
  destruct (is_char it "E"); [by split|].
  destruct (is_char it "b"); [by split|].
  destruct (is_char it "t"); by split.
Qed.

Lemma main_getopt_None atoi items : ∀ o,
  main_getopt atoi o items = None ↔ ∃ it, it ∈ items ∧ recognised it = false.
Proof.
  induction items as [|it items IH]; intros o; simpl.
  - split; [done|]. by intros (it & Hin%elem_of_nil & _).
  - destruct (main_switch atoi o it) as [o'|] eqn:Hsw; simpl.
    + rewrite IH. split.
      * intros (it' & Hin & Hrec). exists it'. split; [by right | done].
      * intros (it' & [->|Hin]%elem_of_cons & Hrec); [|by exists it'].
        apply main_switch_None with (atoi := atoi) (o := o) in Hrec. congruence.
    + split; [|done]. intros _. exists it. split; [by left|].
      by apply main_switch_None in Hsw.
Qed.

(** X19. An option [main] has no case for ends the run at once: whatever
    the other options, the allocator and the trace file, [main] writes the
    usage text and exits with status 0 (the [exit(1)] after [print_usage] is
    not reached), and no block is allocated. *)
Theorem X19_unknown_option_exits_with_0 malloc_ok atoi fopen argv0 argv1 items h :
  (∃ it, it ∈ items ∧ recognised it = false) →
  main malloc_ok atoi fopen argv0 argv1 items h = Some (mkexit 0 [Usage argv0] h).
Proof.
  intros Hbad. unfold main.
  by rewrite (proj2 (main_getopt_None atoi items no_options) Hbad).
Qed.

Lemma X19_unknown_option_exits_with_0_witness :
  (∃ it, it ∈ [mkopt "s" "4"; mkopt "?" ""; mkopt "E" "1"] ∧ recognised it = false) ∧
  main malloc_always (λ _, 4) (λ _, None) "csim" (Some "-s")
    [mkopt "s" "4"; mkopt "?" ""; mkopt "E" "1"] (mkheap 0 [])
  = Some (mkexit 0 [Usage "csim"] (mkheap 0 [])).
Proof.
  assert (∃ it, it ∈ [mkopt "s" "4"; mkopt "?" ""; mkopt "E" "1"] ∧ recognised it = false)
    as Hbad.
  { exists (mkopt "?" ""). split; [|reflexivity].
    apply elem_of_cons. right. apply elem_of_cons. by left. }
  split; [exact Hbad|].
  apply (X19_unknown_option_exits_with_0 malloc_always (λ _, 4) (λ _, None)
           "csim" (Some "-s") _ (mkheap 0 []) Hbad).
Defined.

Lemma X18_makecache_fails_only_for_memory_witness :
  (0 <= 1 <= 30 ∧
   malloc_always 0%nat sizeof_cache = true ∧
   malloc_always 1%nat (wrap_ulong (wrap_ulong (2 ^ 1) * sizeof_set)) = true ∧
   ∀ i, (i < Z.to_nat (2 ^ 1))%nat →
        malloc_always (2 + i)%nat (wrap_ulong (wrap_ulong 2 * sizeof_line)) = true) ∧
  makecache malloc_always 1 2 1 = Some (Some (fresh_cache 1 2 1)) ∧
  makecache (malloc_first 3) 1 2 1 = Some None.
Proof.
  assert (0 <= 1 <= 30 ∧
   malloc_always 0%nat sizeof_cache = true ∧
   malloc_always 1%nat (wrap_ulong (wrap_ulong (2 ^ 1) * sizeof_set)) = true ∧
   ∀ i, (i < Z.to_nat (2 ^ 1))%nat →
        malloc_always (2 + i)%nat (wrap_ulong (wrap_ulong 2 * sizeof_line)) = true)
    as Hgranted.
  { split; [lia|]. split; [reflexivity|]. split; [reflexivity|]. intros i _. reflexivity. }
  split; [exact Hgranted|]. split; [|reflexivity].
  destruct (X18_makecache_fails_only_for_memory malloc_always 1 2 1) as (_ & Hiff & _).
  exact (proj2 Hiff Hgranted).
Defined.

Lemma makecache_lines_granted malloc_ok E n : ∀ i h sets blocks h',
  (∀ k sz, malloc_ok k sz = true) →
  makecache_lines malloc_ok E i n h sets blocks ≠ Some (None, h').
Proof.
  induction n as [|n IH]; intros i h sets blocks h' Hok; simpl; [done|].
  unfold malloc. rewrite Hok. by apply IH.
Qed.

Lemma makecache_heap_granted malloc_ok s E b h h' out :
  (∀ k sz, malloc_ok k sz = true) →
  makecache_heap malloc_ok s E b h ≠ Some (None, h', out).
Proof.
  intros Hok. unfold makecache_heap, malloc.
  destruct (int_shl 1 s) as [n|]; simpl; [|done].
  rewrite !Hok.
  destruct (makecache_lines _ _ _ _ _ _ _) as [[[[sets blocks]|] h3]|] eqn:Hlines;
    simpl; [done| |done].
  by apply makecache_lines_granted in Hlines.
Qed.

Lemma freecache_same_S c c' bl h :
  c_S c' = c_S c → freecache (Some (c', bl)) h = freecache (Some (c, bl)) h.
Proof. intros HS. unfold freecache. by rewrite HS. Qed.

(** X20. A whole run.  With every option recognised, the help flag off, a
    trace file that opens, [1 <= s <= 30], [E >= 1], [b >= 1],
    [s + b <= 63], an allocator that grants every request and a trace of
    fewer than [2^31] accesses, [main] is defined and exits with status 0;
    it writes its four lines around the output of [runsim] and ends with the
    summary; in the summary hits plus misses is the number of accesses of
    the trace and the evictions are at most the misses; and [freecache] has
    given back every block [makecache] took. *)
Theorem X20_a_whole_run malloc_ok atoi fopen argv0 argv1 items h o t trace :
  main_getopt atoi no_options items = Some o →
  o_h o ≠ 1 → argv1 ≠ None →
  o_t o = Some t → fopen t = Some trace →
  1 <= o_s o <= 30 → 1 <= o_E o → 1 <= o_b o → o_s o + o_b o <= 63 →
  (∀ k sz, malloc_ok k sz = true) →
  heap_ok h →
  Z.of_nat (length (trace_addresses trace)) < 2 ^ 31 →
  ∃ st h',
    runsim (o_v o) trace (mksim (fresh_cache (o_s o) (o_E o) (o_b o)) 0 0 0 [])
    = Some st ∧
    main malloc_ok atoi fopen argv0 argv1 items h
    = Some (mkexit 0
              [Line "Initializing Cache Simulation"; Line "Cache created";
               Line "Running Cache Simulation"; Trace (stdout st);
               Line "Results:"; Summary (hits st) (misses st) (evictions st)]
              h') ∧
    live h' = live h ∧
    hits st + misses st = Z.of_nat (length (trace_addresses trace)) ∧
    0 <= evictions st <= misses st.
Proof.
  intros Hparse Hh Hargv Ht Hopen Hs HE Hb Hsb Hok Hheap Hlen.
  assert (cache_inv (fresh_cache (o_s o) (o_E o) (o_b o))) as Hinv.
  { apply fresh_cache_inv; [lia|]. unfold valid_config, ADDRESS_LENGTH. lia. }
  destruct (replay_counts (trace_addresses trace) _ 0 0 0 Hinv)
    as (c' & hit' & miss' & evs' & Hrep & _ & Hsum & _ & _ & ? & ? & HS & _); [lia..|].
  destruct (runsim_from_replay (o_v o) trace
              (mksim (fresh_cache (o_s o) (o_E o) (o_b o)) 0 0 0 []) _ _ _ _ Hrep)
    as (st & Hrun & <- & <- & <- & <-).
  destruct (makecache_heap_spec malloc_ok (o_s o) (o_E o) (o_b o) h Hheap)
    as (r & h1 & out & Hmk & Hr); [lia|].
  destruct r as [[c bl]|].
  2:{ by apply makecache_heap_granted in Hmk. }
  destruct Hr as (-> & -> & _ & _ & _ & h2 & Hfree & Hlive).
  exists st, h2. split; [done|]. split; [|split_and!; (done || lia)].
  unfold main. rewrite Hparse.
  assert (main_rejects (o_h o) argv1 (o_s o) (o_E o) (o_b o) (o_t o) = false) as ->.
  { destruct (main_rejects _ _ _ _ _ _) eqn:Hrej; [|done].
    apply main_rejects_iff in Hrej.
    destruct Hrej as [?|[?|[?|[?|[?|?]]]]]; (done || lia || congruence). }
  rewrite Hmk. cbn -[freecache runsim]. rewrite Ht. cbn -[freecache runsim].
  rewrite Hopen, Hrun. cbn -[freecache].
  rewrite (freecache_same_S (fresh_cache (o_s o) (o_E o) (o_b o))) by done.
  by rewrite Hfree.
Qed.

Lemma X20_a_whole_run_witness :
  main_getopt (λ _, 1) no_options
    [mkopt "s" "1"; mkopt "E" "1"; mkopt "b" "1"; mkopt "t" "yi.trace"]
  = Some (mkoptions 0 0 1 1 1 (Some "yi.trace")) ∧
  heap_ok (mkheap 0 []) ∧
  main malloc_always (λ _, 1) (λ _, Some [load 0; modify 4; load 0]) "csim" (Some "-s")
    [mkopt "s" "1"; mkopt "E" "1"; mkopt "b" "1"; mkopt "t" "yi.trace"] (mkheap 0 [])
  = Some (mkexit 0
            [Line "Initializing Cache Simulation"; Line "Cache created";
             Line "Running Cache Simulation"; Trace [];
             Line "Results:"; Summary 1 3 2]
            (mkheap 4 [])) ∧
  ∃ st h',
    runsim 0 [load 0; modify 4; load 0] (mksim (fresh_cache 1 1 1) 0 0 0 []) = Some st ∧
    live h' = [] ∧
    hits st + misses st = Z.of_nat (length (trace_addresses [load 0; modify 4; load 0])).
Proof.
  split; [reflexivity|]. split; [apply heap_ok_empty|]. split; [reflexivity|].
  destruct (X20_a_whole_run malloc_always (λ _, 1)
              (λ _, Some [load 0; modify 4; load 0]) "csim" (Some "-s")
              [mkopt "s" "1"; mkopt "E" "1"; mkopt "b" "1"; mkopt "t" "yi.trace"]
              (mkheap 0 []) (mkoptions 0 0 1 1 1 (Some "yi.trace")) "yi.trace"
              [load 0; modify 4; load 0]
              eq_refl ltac:(simpl; lia) ltac:(discriminate) eq_refl eq_refl
              ltac:(simpl; lia) ltac:(simpl; lia) ltac:(simpl; lia) ltac:(simpl; lia)
              ltac:(reflexivity) heap_ok_empty ltac:(simpl; lia))
    as (st & h' & Hrun & _ & Hlive & Hsum & _).
  exists st, h'. split; [exact Hrun | split; [exact Hlive | exact Hsum]].
Defined.

(** X21. [main] when memory runs out.  With every option recognised and the
    arguments accepted, when [makecache] returns [NULL], [main] writes the
    message of [makecache], "Initializing Cache Simulation" and "Error
    creating cache", exits with status 1, and leaves the heap with the
    blocks it held at the start. *)
Theorem X21_main_without_memory malloc_ok atoi fopen argv0 argv1 items h o h1 out :
  main_getopt atoi no_options items = Some o →
  main_rejects (o_h o) argv1 (o_s o) (o_E o) (o_b o) (o_t o) = false →
  heap_ok h →
  makecache_heap malloc_ok (o_s o) (o_E o) (o_b o) h = Some (None, h1, out) →
  main malloc_ok atoi fopen argv0 argv1 items h
  = Some (mkexit 1
            ((Printed <$> out) ++
             [Line "Initializing Cache Simulation"; Line "Error creating cache"])
            h1) ∧
  live h1 = live h ∧ out ≠ [].
Proof.
  intros Hparse Hrej Hheap Hmk.
  assert (0 <= o_s o <= 30) as Hs.
  { unfold makecache_heap in Hmk.
    destruct (int_shl 1 (o_s o)) as [n|] eqn:Hn; [|done].
    by apply int_shl_1_Some in Hn as [? _]. }
  destruct (makecache_heap_spec malloc_ok (o_s o) (o_E o) (o_b o) h Hheap Hs)
    as (r & h2 & out2 & Hmk' & Hr).
  rewrite Hmk in Hmk'. injection Hmk' as <- <- <-. destruct Hr as [Hlive Hout].
  split_and!; [|done..].
  unfold main. rewrite Hparse, Hrej, Hmk. simpl. by rewrite <- app_assoc.
Qed.

Lemma X21_main_without_memory_witness :
  heap_ok (mkheap 0 []) ∧
  main (malloc_first 2) (λ _, 1) (λ _, None) "csim" (Some "-s")
    [mkopt "s" "1"; mkopt "E" "1"; mkopt "b" "1"; mkopt "t" "yi.trace"] (mkheap 0 [])
  = Some (mkexit 1
            [Printed "Error allocating memory for cache lines";
             Line "Initializing Cache Simulation"; Line "Error creating cache"]
            (mkheap 3 [])) ∧
  live (mkheap 3 []) = live (mkheap 0 []).
Proof.
  split; [apply heap_ok_empty|].
  destruct (X21_main_without_memory (malloc_first 2) (λ _, 1) (λ _, None) "csim"
              (Some "-s")
              [mkopt "s" "1"; mkopt "E" "1"; mkopt "b" "1"; mkopt "t" "yi.trace"]
              (mkheap 0 []) (mkoptions 0 0 1 1 1 (Some "yi.trace")) (mkheap 3 [])
              ["Error allocating memory for cache lines"]
              eq_refl eq_refl heap_ok_empty eq_refl)
    as (Hmain & Hlive & _).
  split; [exact Hmain | exact Hlive].
Defined.

(** X22. [main] when the trace file cannot be opened.  With the arguments
    accepted and the cache built, when [fopen] fails [main] writes "Error
    opening trace file. Make sure path and name is correct" and exits with
    status 1 without calling [freecache]: the [2 + 2^s] blocks of the cache
    are still allocated when the process ends. *)
Theorem X22_main_without_trace_file malloc_ok atoi fopen argv0 argv1 items h o t :
  main_getopt atoi no_options items = Some o →
  main_rejects (o_h o) argv1 (o_s o) (o_E o) (o_b o) (o_t o) = false →
  (∀ k sz, malloc_ok k sz = true) →
  heap_ok h → 0 <= o_s o <= 30 →
  o_t o = Some t → fopen t = None →
  ∃ h1,
    main malloc_ok atoi fopen argv0 argv1 items h
    = Some (mkexit 1
              [Line "Initializing Cache Simulation"; Line "Cache created";
               Line "Error opening trace file. Make sure path and name is correct"]
              h1) ∧
    Z.of_nat (length (live h1)) = Z.of_nat (length (live h)) + 2 + 2 ^ o_s o.
Proof.
  intros Hparse Hrej Hok Hheap Hs Ht Hopen.
  destruct (makecache_heap_spec malloc_ok (o_s o) (o_E o) (o_b o) h Hheap Hs)
    as (r & h1 & out & Hmk & Hr).
  destruct r as [[c bl]|].
  2:{ by apply makecache_heap_granted in Hmk. }
  destruct Hr as (-> & -> & Hlen & Hlive & _).
  exists h1. split.
  - unfold main. rewrite Hparse, Hrej, Hmk. simpl. rewrite Ht. simpl.
    by rewrite Hopen.
  - rewrite Hlive, length_app, length_reverse, Hlen. simpl.
    pose proof (pow2_bounds _ Hs). lia.
Qed.

Lemma X22_main_without_trace_file_witness :
  heap_ok (mkheap 0 []) ∧
  main malloc_always (λ _, 1) (λ _, None) "csim" (Some "-s")
    [mkopt "s" "1"; mkopt "E" "1"; mkopt "b" "1"; mkopt "t" "yi.trace"] (mkheap 0 [])
  = Some (mkexit 1
            [Line "Initializing Cache Simulation"; Line "Cache created";
             Line "Error opening trace file. Make sure path and name is correct"]
            (mkheap 4 [3; 2; 1; 0]%nat)) ∧
  ∃ h1, Z.of_nat (length (live h1)) = Z.of_nat (length (live (mkheap 0 []))) + 2 + 2 ^ 1.
Proof.
  split; [apply heap_ok_empty|]. split; [reflexivity|].
  destruct (X22_main_without_trace_file malloc_always (λ _, 1) (λ _, None) "csim"
              (Some "-s")
              [mkopt "s" "1"; mkopt "E" "1"; mkopt "b" "1"; mkopt "t" "yi.trace"]
              (mkheap 0 []) (mkoptions 0 0 1 1 1 (Some "yi.trace")) "yi.trace"
              eq_refl eq_refl ltac:(reflexivity) heap_ok_empty ltac:(simpl; lia)
              eq_refl eq_refl)
    as (h1 & _ & Hlen).
  exists h1. exact Hlen.
Defined.

(** ** The argument check of [main], with the option loop *)

Lemma main_usage_exit malloc_ok atoi fopen argv0 argv1 items h :
  main malloc_ok atoi fopen argv0 argv1 items h = Some (mkexit 0 [Usage argv0] h)
  ↔ main_getopt atoi no_options items = None
    ∨ ∃ o, main_getopt atoi no_options items = Some o ∧
           main_rejects (o_h o) argv1 (o_s o) (o_E o) (o_b o) (o_t o) = true.
Proof.
  unfold main. destruct (main_getopt atoi no_options items) as [o|]; [|naive_solver].
  destruct (main_rejects _ _ _ _ _ _) eqn:Hrej; [naive_solver|].
  split; [|intros [?|(o' & [= <-] & ?)]; congruence].
  intros H. exfalso.
  destruct (makecache_heap _ _ _ _ _) as [[[r h1] out]|]; [|done].
  cbn -[freecache runsim] in H. destruct r as [[c bl]|]; [|by destruct out].
  destruct (o_t o) as [t|]; [|done]. cbn -[freecache runsim] in H.
  destruct (fopen t) as [trace|]; [|by destruct out].
  destruct (runsim _ _ _) as [st|]; [|done]. cbn -[freecache runsim] in H.
  destruct (freecache _ _) as [h2|]; [|done]. cbn -[freecache runsim] in H.
  by destruct out.
Qed.

(** The check as [main_startup] has it is the check of [main] on the
    options the loop has read. *)
Lemma main_usage_iff_startup malloc_ok atoi fopen argv0 argv1 items h o :
  main_getopt atoi no_options items = Some o →
  main malloc_ok atoi fopen argv0 argv1 items h = Some (mkexit 0 [Usage argv0] h)
  ↔ main_startup malloc_ok (o_h o) argv1 (o_s o) (o_E o) (o_b o) (o_t o)
    = Some PrintUsage.
Proof.
  intros Ho. rewrite main_usage_exit, Ho. unfold main_startup.
  destruct (main_rejects _ _ _ _ _ _) eqn:Hrej.
  - split; [done|]. intros _. right. by exists o.
  - split.
    + intros [?|(o' & [= <-] & ?)]; congruence.
    + destruct (makecache malloc_ok _ _ _) as [[c|]|]; done.
Qed.

(** C4 (as amended). [main] ends the run with the usage text, before
    anything is allocated, exactly when [getopt] returns an option the
    [switch] has no case for or, the options read, the help flag is set,
    there is no argument, no trace file is named, or one of [s], [E], [b] is
    0.  Nothing else about the triple is checked: with recognised options,
    no help flag, a trace file name, [1 <= s <= 30], [E >= 1] and [b] not 0,
    [makecache] returns the cache of [2^s] sets of [E] lines whenever the
    allocations succeed, whatever [s + b] is, and [main] goes on with it: to
    the message that the trace file cannot be opened, or to [runsim]. *)
Theorem C4_configuration_check malloc_ok atoi fopen argv0 argv1 items h :
  (main malloc_ok atoi fopen argv0 argv1 items h = Some (mkexit 0 [Usage argv0] h)
   ↔ (∃ it, it ∈ items ∧ recognised it = false)
     ∨ ∃ o, main_getopt atoi no_options items = Some o ∧
            (o_h o = 1 ∨ argv1 = None ∨ o_s o = 0 ∨ o_E o = 0 ∨ o_b o = 0
             ∨ o_t o = None)) ∧
  (∀ o t,
     main_getopt atoi no_options items = Some o →
     o_h o ≠ 1 → argv1 ≠ None → o_t o = Some t →
     1 <= o_s o <= 30 → 1 <= o_E o → o_b o ≠ 0 →
     (∀ k n, malloc_ok k n = true) → heap_ok h →
     ∃ bl h1,
       makecache_heap malloc_ok (o_s o) (o_E o) (o_b o) h
       = Some (Some (fresh_cache (o_s o) (o_E o) (o_b o), bl), h1, []) ∧
       main malloc_ok atoi fopen argv0 argv1 items h
       = match fopen t with
         | None =>
             Some (mkexit 1
                     [Line "Initializing Cache Simulation"; Line "Cache created";
                      Line "Error opening trace file. Make sure path and name is correct"]
                     h1)
         | Some trace =>
             st ← runsim (o_v o) trace
                    (mksim (fresh_cache (o_s o) (o_E o) (o_b o)) 0 0 0 []);
             h2 ← freecache (Some (sim_cache st, bl)) h1;
             Some (mkexit 0
                     [Line "Initializing Cache Simulation"; Line "Cache created";
                      Line "Running Cache Simulation"; Trace (stdout st);
                      Line "Results:";
                      Summary (hits st) (misses st) (evictions st)]
                     h2)
         end).
Proof.
  split.
  - rewrite main_usage_exit, main_getopt_None.
    by setoid_rewrite main_rejects_iff.
  - intros o t Ho Hh Hargv Ht Hs HE Hb Hok Hheap.
    destruct (makecache_heap_spec malloc_ok (o_s o) (o_E o) (o_b o) h Hheap)
      as (r & h1 & out & Hmade & Hr); [lia|].
    destruct r as [[c bl]|];
      [|by destruct (makecache_heap_granted _ _ _ _ _ h1 out Hok Hmade)].
    destruct Hr as (-> & -> & _).
    exists bl, h1. split; [done|].
    unfold main. rewrite Ho.
    destruct (main_rejects _ _ _ _ _ _) eqn:Hrej.
    + apply main_rejects_iff in Hrej.
      destruct Hrej as [?|[?|[?|[?|[?|?]]]]]; (done || lia || congruence).
    + rewrite Hmade, Ht. simpl. by destruct (fopen t).
Qed.

Lemma C4_configuration_check_witness :
  (main_getopt (λ x, if String.eqb x "64" then 64 else 1) no_options
     [mkopt "s" "1"; mkopt "E" "1"; mkopt "b" "64"; mkopt "t" "yi.trace"]
   = Some (mkoptions 0 0 1 1 64 (Some "yi.trace")) ∧
   heap_ok (mkheap 0 [])) ∧
  main malloc_always (λ x, if String.eqb x "64" then 64 else 1) (λ _, None)
    "csim" (Some "-s")
    [mkopt "s" "1"; mkopt "E" "1"; mkopt "b" "64"; mkopt "t" "yi.trace"] (mkheap 0 [])
  = Some (mkexit 1
            [Line "Initializing Cache Simulation"; Line "Cache created";
             Line "Error opening trace file. Make sure path and name is correct"]
            (mkheap 4 [3; 2; 1; 0]%nat)) ∧
  ∃ bl h1,
    makecache_heap malloc_always 1 1 64 (mkheap 0 [])
    = Some (Some (fresh_cache 1 1 64, bl), h1, []).
Proof.
  split; [split; [reflexivity | apply heap_ok_empty]|]. split; [reflexivity|].
  destruct (proj2 (C4_configuration_check malloc_always
                     (λ x, if String.eqb x "64" then 64 else 1) (λ _, None)
                     "csim" (Some "-s")
                     [mkopt "s" "1"; mkopt "E" "1"; mkopt "b" "64"; mkopt "t" "yi.trace"]
                     (mkheap 0 []))
              (mkoptions 0 0 1 1 64 (Some "yi.trace")) "yi.trace"
              eq_refl ltac:(discriminate) ltac:(discriminate) eq_refl
              ltac:(simpl; lia) ltac:(simpl; lia) ltac:(discriminate)
              ltac:(reflexivity) heap_ok_empty)
    as (bl & h1 & Hmade & _).
  exists bl, h1. exact Hmade.
Defined.

(** ** Blocks, sets and tags *)

Lemma block_of_index_and_tag c a :
  cache_inv c →
  Z.shiftr a (c_b c) = spec_tag c a * 2 ^ c_s c + spec_set_index c a.
Proof.
  intros Hinv. destruct Hinv. unfold spec_tag, spec_set_index.
  rewrite inv_S0, land_mask by lia.
  rewrite (Z.add_comm (c_s c)), <- Z.shiftr_shiftr by lia.
  rewrite (Z.shiftr_div_pow2 (Z.shiftr a (c_b c))) by lia.
  pose proof (pow2_bounds _ inv_s0).
  pose proof (Z.div_mod (Z.shiftr a (c_b c)) (2 ^ c_s c)). lia.
Qed.

(** X23. The set index and the tag name the block.  On a reachable cache
    the block number [a >> b] of an address is [tag * 2^s + set index], the
    set index is below [2^s], and for a 64-bit address the tag is below
    [2^(64 - s - b)]; so two addresses with the same set index and the same
    tag lie in the same block. *)
Theorem X23_index_and_tag_name_the_block c a si tg :
  reachable c →
  set_index c a = Some si → block_tag c a = Some tg →
  Z.shiftr a (c_b c) = tg * 2 ^ c_s c + si ∧
  0 <= si < 2 ^ c_s c ∧
  (is_ulong a → 0 <= tg < 2 ^ (64 - c_s c - c_b c)) ∧
  ∀ a', set_index c a' = Some si → block_tag c a' = Some tg →
        Z.shiftr a' (c_b c) = Z.shiftr a (c_b c).
Proof.
  intros Hinv%reachable_inv Hsi Htg.
  rewrite set_index_inv in Hsi by done. rewrite block_tag_inv in Htg by done.
  injection Hsi as <-. injection Htg as <-.
  split; [|split; [|split]].
  - by apply block_of_index_and_tag.
  - rewrite <- (inv_S c Hinv). by apply spec_set_index_range.
  - intros [Ha0 Ha]. unfold spec_tag, ADDRESS_LENGTH in *.
    destruct Hinv. unfold ADDRESS_LENGTH in *.
    rewrite Z.shiftr_div_pow2 by lia. split.
    + apply Z.div_pos; [lia|]. apply Z.pow_pos_nonneg; lia.
    + apply Z.div_lt_upper_bound; [apply Z.pow_pos_nonneg; lia|].
      rewrite <- Z.pow_add_r by lia.
      by replace (c_s c + c_b c + (64 - c_s c - c_b c)) with 64 by lia.
  - intros a' Hsi' Htg'.
    rewrite set_index_inv in Hsi' by done. rewrite block_tag_inv in Htg' by done.
    injection Hsi' as Hsi'. injection Htg' as Htg'.
    rewrite !block_of_index_and_tag by done. by rewrite Hsi', Htg'.
Qed.

Lemma X23_index_and_tag_name_the_block_witness :
  reachable cache_AB ∧
  set_index cache_AB 13 = Some 0 ∧ block_tag cache_AB 13 = Some 3 ∧
  Z.shiftr 13 (c_b cache_AB) = 3 * 2 ^ c_s cache_AB + 0.
Proof.
  split; [apply reachable_cache_AB|]. split; [reflexivity|]. split; [reflexivity|].
  destruct (X23_index_and_tag_name_the_block cache_AB 13 0 3
              reachable_cache_AB eq_refl eq_refl) as (Hblock & _).
  exact Hblock.
Defined.

(** ** Hits are never spurious *)

Lemma access_case_tag tg ls o ls' k l :
  access_case tg ls o ls' → ls' !! k = Some l → valid l ≠ 0 →
  tag l = tg ∨ ∃ l0, ls !! k = Some l0 ∧ valid l0 ≠ 0 ∧ tag l0 = tag l.
Proof.
  destruct 1 as [Hex | k0 lk Hno (Hk0 & _) | l0 Hno Hfull Hl0]; intros Hk Hv.
  - right. by exists l.
  - apply list_lookup_insert_Some in Hk as [(-> & <- & _)|[Hne Hk]]; [by left|].
    right. by exists l.
  - apply list_lookup_insert_Some in Hk as [(<- & <- & _)|[Hne Hk]]; [by left|].
    right. by exists l.
Qed.

Lemma tags_seen_fresh s E b : tags_seen [] (fresh_cache s E b).
Proof.
  intros i ls k l Hls Hk Hv. apply set_lines_fresh in Hls as ->.
  by apply lookup_replicate in Hk as [-> _].
Qed.

Lemma tags_seen_access seen c a hit miss evs verb r :
  cache_inv c → tags_seen seen c →
  access_cache c a hit miss evs verb = Some r →
  tags_seen (a :: seen) (ar_cache r).
Proof.
  intros Hinv Hseen Hacc.
  destruct (access_cache_cases c a hit miss evs verb Hinv)
    as (ls0 & r' & Hls0 & _ & _ & Hacc' & ls' & Hcase & Hc & _).
  assert (r' = r) as -> by congruence.
  intros i ls k l Hls Hk Hv. rewrite Hc in Hls |- *.
  assert (∃ a', a' ∈ a :: seen ∧ target c a' = i ∧ spec_tag c a' = tag l)
    as (a' & Hin & Hi & Ht); [|by exists a'].
  destruct (decide (target c a = i)) as [<-|Hne].
  - rewrite set_lines_with_lines in Hls by by apply target_lt.
    injection Hls as <-.
    destruct (access_case_tag _ _ _ _ _ _ Hcase Hk Hv) as [Ht|(l0 & Hk0 & Hv0 & Ht0)].
    + exists a. split_and!; [by left | done | done].
    + destruct (Hseen _ _ _ _ Hls0 Hk0 Hv0) as (a' & Hin & Hi & Ht).
      exists a'. split_and!; [by right | done | congruence].
  - rewrite set_lines_with_lines_ne in Hls by done.
    destruct (Hseen _ _ _ _ Hls Hk Hv) as (a' & Hin & Hi & Ht).
    exists a'. split_and!; [by right | done | done].
Qed.

Lemma same_block c a a' :
  cache_inv c → target c a' = target c a → spec_tag c a' = spec_tag c a →
  Z.shiftr a' (c_b c) = Z.shiftr a (c_b c).
Proof.
  intros Hinv Hi Ht. rewrite !block_of_index_and_tag by done.
  unfold target in Hi.
  pose proof (spec_set_index_range c Hinv a).
  pose proof (spec_set_index_range c Hinv a').
  assert (spec_set_index c a' = spec_set_index c a) as -> by lia.
  by rewrite Ht.
Qed.

Lemma hits_have_a_cause addrs : ∀ seen c os,
  cache_inv c → tags_seen seen c →
  outcomes addrs c = Some os →
  ∀ k a, addrs !! k = Some a → os !! k = Some Hit →
    ∃ a', (a' ∈ seen ∨ ∃ j, (j < k)%nat ∧ addrs !! j = Some a') ∧
          Z.shiftr a' (c_b c) = Z.shiftr a (c_b c).
Proof.
  induction addrs as [|a0 addrs IH]; intros seen c os Hinv Hseen Hos k a Hk Hhit; [done|].
  simpl in Hos.
  destruct (access_cache c a0 0 0 0 0) as [r|] eqn:Hacc; simpl in Hos; [|done].
  destruct (outcomes addrs (ar_cache r)) as [os'|] eqn:Hos'; simpl in Hos; [|done].
  injection Hos as <-.
  destruct k as [|k]; simpl in Hk, Hhit.
  - injection Hk as ->. injection Hhit as Hhit.
    destruct (access_cache_cases c a 0 0 0 0 Hinv)
      as (ls & r' & Hls & _ & _ & Hacc' & ls' & Hcase & _).
    assert (r' = r) as -> by congruence.
    rewrite Hhit in Hcase. inversion Hcase as [Hex| |]; subst.
    apply Exists_exists in Hex as (l & Hl & Hv & Ht).
    apply list_elem_of_lookup in Hl as [j Hj].
    destruct (Hseen _ _ _ _ Hls Hj Hv) as (a' & Hin & Hi & Ht').
    exists a'. split; [by left|]. apply same_block; [done..|congruence].
  - pose proof (access_cache_keeps_inv c Hinv _ _ _ _ _ _ Hacc) as Hinv'.
    pose proof (tags_seen_access _ _ _ _ _ _ _ _ Hinv Hseen Hacc) as Hseen'.
    destruct (IH _ _ _ Hinv' Hseen' Hos' k a Hk Hhit) as (a' & Hwhere & Hblock).
    destruct (access_cache_cases c a0 0 0 0 0 Hinv)
      as (ls & r' & _ & _ & _ & Hacc' & ls' & _ & Hc & _).
    assert (r' = r) as -> by congruence.
    rewrite Hc in Hblock. simpl in Hblock.
    exists a'. split; [|done].
    destruct Hwhere as [[->|Hin]%elem_of_cons|(j & Hj & Hja)].
    + right. exists 0%nat. split; [lia | done].
    + by left.
    + right. exists (S j). split; [lia | done].
Qed.

(** X24. Hits are never spurious.  On a cache as [makecache] returns it,
    built from valid parameters, when the access number [k] of a sequence of
    accesses is a [Hit], an earlier access of the sequence was to the same
    block (the same [a >> b]).  So the first access to a block is always a
    miss. *)
Theorem X24_a_hit_has_an_earlier_access malloc_ok s E b c addrs os k a :
  valid_config s E b →
  makecache malloc_ok s E b = Some (Some c) →
  outcomes addrs c = Some os →
  addrs !! k = Some a → os !! k = Some Hit →
  ∃ j a', (j < k)%nat ∧ addrs !! j = Some a' ∧ Z.shiftr a' b = Z.shiftr a b.
Proof.
  intros Hcfg Hmk Hos Hk Hhit.
  pose proof (reachable_inv _ (reachable_fresh _ _ _ _ _ Hcfg Hmk)) as Hinv.
  apply makecache_Some in Hmk as [_ ->].
  destruct (hits_have_a_cause addrs [] _ os Hinv (tags_seen_fresh s E b) Hos k a Hk Hhit)
    as (a' & [Hin%elem_of_nil|(j & Hj & Hja)] & Hblock); [done|].
  by exists j, a'.
Qed.

Lemma X24_a_hit_has_an_earlier_access_witness :
  valid_config 1 2 1 ∧
  makecache malloc_always 1 2 1 = Some (Some (fresh_cache 1 2 1)) ∧
  outcomes [0; 4; 1; 8] (fresh_cache 1 2 1) = Some [MissFill; MissFill; Hit; MissEvict] ∧
  ∃ j a', (j < 2)%nat ∧ [0; 4; 1; 8] !! j = Some a' ∧ Z.shiftr a' 1 = Z.shiftr 1 1.
Proof.
  split; [apply valid_config_121|]. split; [reflexivity|]. split; [reflexivity|].
  apply (X24_a_hit_has_an_earlier_access malloc_always 1 2 1 (fresh_cache 1 2 1)
           [0; 4; 1; 8] [MissFill; MissFill; Hit; MissEvict] 2 1
           valid_config_121 eq_refl eq_refl eq_refl eq_refl).
Defined.

(** ** The two models of [makecache] agree *)

Lemma makecache_lines_sets malloc_ok E n : ∀ i h sets blocks r h',
  calls h = (2 + i)%nat →
  makecache_lines malloc_ok E i n h sets blocks = Some (r, h') →
  makecache_sets malloc_ok E i n sets = fst <$> r.
Proof.
  induction n as [|n IH]; intros i h sets blocks r h' Hcalls; simpl.
  - by intros [= <- <-].
  - unfold malloc. rewrite Hcalls. simpl.
    destruct (malloc_ok (S (S i)) _).
    + apply IH. simpl. lia.
    + destruct (free_lines _ _ _ _) as [h''|]; simpl; [|done]. by intros [= <- <-].
Qed.

(** On a heap on which [malloc] has not been called yet, [makecache] with
    the heap returns the cache that [makecache] returns. *)
Lemma makecache_heap_agrees malloc_ok s E b h r h' out :
  calls h = 0%nat →
  makecache_heap malloc_ok s E b h = Some (r, h', out) →
  makecache malloc_ok s E b = Some (fst <$> r).
Proof.
  intros Hcalls. unfold makecache_heap, makecache, malloc.
  destruct (int_shl 1 s) as [n|]; simpl; [|done].
  rewrite Hcalls.
  destruct (malloc_ok 0%nat sizeof_cache); simpl; [|by intros [= <- <- <-]].
  destruct (malloc_ok 1%nat _); simpl.
  2:{ by intros [= <- <- <-]. }
  destruct (makecache_lines _ _ _ _ _ _ _) as [[r1 h3]|] eqn:Hlines; simpl; [|done].
  apply makecache_lines_sets in Hlines; [|done]. rewrite Hlines.
  destruct r1 as [[sets blocks]|]; simpl.
  - by intros [= <- <- <-].
  - destruct (free _ h3) as [h4|]; simpl; [|done].
    destruct (free _ h4) as [h5|]; simpl; [|done]. by intros [= <- <- <-].
Qed.
